(** * Ark wallet SDK: a shallow embedding of the settlement client

    The development follows the TypeScript sources module by module:

    - [Forfeit]   the forfeit transaction builder ([buildForfeitTx]);
    - [Balance]   [Wallet.getBalance];
    - [Send]      [Wallet.sendBitcoin] and [Wallet.isOffchainSuitable];
    - [Matrix]    [encodeMatrix] / [decodeMatrix] of the REST provider;
    - [Events]    [parseSettlementEvent] of the REST provider;
    - [Settle]    the event loop of [Wallet.settle];
    - [VHTLC]     the delay rule of the VHTLC script constructor.

    Satoshi amounts that the source holds in [bigint] are [Z]; amounts it
    holds in [number] are integers in the wallet and are [Z] as well (sums of
    satoshi values stay far below 2^53, where [number] addition is exact).
    Byte arrays ([Uint8Array]) are [list byte]. *)

From Stdlib.Strings Require Import String Ascii Byte.
From Stdlib Require Import DecimalString DecimalPos DecimalZ.
From Stdlib Require Import ZArith List Bool Lia.
Import ListNotations.

Local Open Scope Z_scope.

(** ** Results of fallible code

    A thrown [Error] is the left summand, carrying what the source throws. *)

Inductive result (E A : Type) : Type :=
| Ok (a : A)
| Err (e : E).
Arguments Ok {E A} a.
Arguments Err {E A} e.

Definition bind {E A B} (r : result E A) (k : A -> result E B) : result E B :=
  match r with
  | Ok a => k a
  | Err e => Err e
  end.

Notation "'let*' x ':=' r 'in' k" := (bind r (fun x => k))
  (at level 10, x pattern, r at level 100, k at level 200).

(** ** The forfeit transaction builder *)

Module Forfeit.

Record Outpoint := { txid : string; vout : Z }.

Record WitnessUtxo := { script : list byte; amount : Z }.

(** The fields [buildForfeitTx] passes to [Transaction.addInput]; a field
    the call leaves out is [None]. *)
Record TxInput := {
  in_txid : string;
  in_index : Z;
  witnessUtxo : WitnessUtxo;
  sequence : Z;
  sighashType : option Z
}.

Record TxOutput := { out_script : list byte; out_amount : Z }.

Record Transaction := {
  version : Z;
  lockTime : option Z;
  inputs : list TxInput;
  outputs : list TxOutput
}.

Definition new_Transaction (v : Z) (lt : option Z) : Transaction :=
  {| version := v; lockTime := lt; inputs := []; outputs := [] |}.

Definition addInput (tx : Transaction) (i : TxInput) : Transaction :=
  {| version := version tx; lockTime := lockTime tx;
     inputs := inputs tx ++ [i]; outputs := outputs tx |}.

Definition addOutput (tx : Transaction) (o : TxOutput) : Transaction :=
  {| version := version tx; lockTime := lockTime tx;
     inputs := inputs tx; outputs := outputs tx ++ [o] |}.

(** [SigHash.DEFAULT] of the signer library. *)
Definition SigHash_DEFAULT : Z := 0.

(** Modelled from the spec: the constant [P2A] of [utils/anchor], which is
    not among the sources; the pay-to-anchor output [OP_1 0x02 0x4e73]
    carrying 0 sats. *)
Definition P2A : TxOutput :=
  {| out_script := [x51; x02; x4e; x73]; out_amount := 0 |}.

Record ForfeitTxParams := {
  connectorInput : Outpoint;
  vtxoInput : Outpoint;
  vtxoAmount : Z;
  connectorAmount : Z;
  vtxoPkScript : list byte;
  connectorPkScript : list byte;
  serverPkScript : list byte;
  txLocktime : option Z
}.

(** JavaScript truthiness of an optional [number]: [undefined] and [0] are
    falsy. *)
Definition truthy (n : option Z) : bool :=
  match n with
  | Some v => negb (v =? 0)
  | None => false
  end.

Definition buildForfeitTx (p : ForfeitTxParams) : Transaction :=
  let tx := new_Transaction 3 (txLocktime p) in
  (* Add connector input *)
  let tx := addInput tx
    {| in_txid := txid (connectorInput p);
       in_index := vout (connectorInput p);
       witnessUtxo := {| script := connectorPkScript p;
                         amount := connectorAmount p |};
       sequence := 0xffffffff;
       sighashType := None |} in
  (* Add VTXO input *)
  let tx := addInput tx
    {| in_txid := txid (vtxoInput p);
       in_index := vout (vtxoInput p);
       witnessUtxo := {| script := vtxoPkScript p;
                         amount := vtxoAmount p |};
       sequence := if truthy (txLocktime p) then 0xfffffffe else 0xffffffff;
       sighashType := Some SigHash_DEFAULT |} in
  let amount := vtxoAmount p + connectorAmount p in
  (* Add main output to server *)
  let tx := addOutput tx
    {| out_script := serverPkScript p; out_amount := amount |} in
  (* Add P2A output *)
  addOutput tx P2A.

(** The property of the specification for a fee amount [fee]: output 0 pays
    the server script [vtxoAmount + connectorAmount - fee]. *)
Definition pays_server_net_of_fee (p : ForfeitTxParams) (fee : Z) : Prop :=
  nth_error (outputs (buildForfeitTx p)) 0
  = Some {| out_script := serverPkScript p;
            out_amount := vtxoAmount p + connectorAmount p - fee |}.

(** A forfeit of a 1000 sat vtxo against a 330 sat connector. *)
Definition sample_params (lt : option Z) : ForfeitTxParams :=
  {| connectorInput := {| txid := "c0"; vout := 1 |};
     vtxoInput := {| txid := "a1"; vout := 0 |};
     vtxoAmount := 1000;
     connectorAmount := 330;
     vtxoPkScript := [x51; x20];
     connectorPkScript := [x51; x20];
     serverPkScript := [x00; x14];
     txLocktime := lt |}.

(** C1 (as the specification states it) fails: with a fee of 100 sats the
    builder still pays the server the full 1330 sats. *)
Lemma forfeit_output0_ignores_fee :
  ~ pays_server_net_of_fee (sample_params None) 100.
Proof.
  unfold pays_server_net_of_fee. cbn. intros H. discriminate H.
Qed.

(** C1 (amended): [buildForfeitTx] has no fee parameter; output 0 pays the
    server script exactly [vtxoAmount + connectorAmount] satoshis, so the
    amount of the specification is paid only for a fee of zero. *)
Theorem forfeit_output0_pays_server_sum :
  forall p : ForfeitTxParams,
    nth_error (outputs (buildForfeitTx p)) 0
    = Some {| out_script := serverPkScript p;
              out_amount := vtxoAmount p + connectorAmount p |}
    /\ (forall fee : Z, pays_server_net_of_fee p fee <-> fee = 0).
Proof.
  intros p. split; [reflexivity|].
  intros fee. unfold pays_server_net_of_fee. cbn. split.
  - intros H. injection H as H. lia.
  - intros ->. now rewrite Z.sub_0_r.
Qed.

(** C8: input 0 (the connector) has sequence 0xffffffff and no sighash
    annotation; input 1 (the vtxo) has sighash type DEFAULT, and its sequence
    is 0xfffffffe exactly when a non-zero locktime is supplied, 0xffffffff
    otherwise. *)
Theorem forfeit_inputs_sequence_sighash :
  forall p : ForfeitTxParams,
  exists i0 i1 : TxInput,
    inputs (buildForfeitTx p) = [i0; i1]
    /\ in_txid i0 = txid (connectorInput p)
    /\ in_index i0 = vout (connectorInput p)
    /\ sequence i0 = 0xffffffff
    /\ sighashType i0 = None
    /\ in_txid i1 = txid (vtxoInput p)
    /\ in_index i1 = vout (vtxoInput p)
    /\ sighashType i1 = Some SigHash_DEFAULT
    /\ (sequence i1 = 0xfffffffe
        <-> exists n : Z, txLocktime p = Some n /\ n <> 0)
    /\ (sequence i1 = 0xffffffff
        <-> txLocktime p = None \/ txLocktime p = Some 0).
Proof.
  intros p. eexists. eexists. split; [reflexivity|]. cbn.
  repeat (split; [reflexivity|]).
  destruct (txLocktime p) as [n|]; cbn.
  - destruct (Z.eqb_spec n 0) as [->|Hn]; cbn; split; split;
      try discriminate; try (intros [m [Hm Hm0]]; congruence);
      try (intros [H|H]; congruence); auto.
    + intros _. exists n. split; [reflexivity|assumption].
  - split; split; try discriminate; auto.
    intros [m [Hm _]]. discriminate Hm.
Qed.

(** With a locktime of 1000 the vtxo input signals it; without, it does
    not. *)
Example forfeit_sequences :
  map sequence (inputs (buildForfeitTx (sample_params (Some 1000))))
  = [0xffffffff; 0xfffffffe]
  /\ map sequence (inputs (buildForfeitTx (sample_params (Some 0))))
     = [0xffffffff; 0xffffffff]
  /\ map sequence (inputs (buildForfeitTx (sample_params None)))
     = [0xffffffff; 0xffffffff]
  /\ outputs (buildForfeitTx (sample_params None))
     = [{| out_script := [x00; x14]; out_amount := 1330 |}; P2A].
Proof. repeat split. Qed.

End Forfeit.

(** ** Wallet balance *)

Module Balance.

Record Status := { confirmed : bool }.

Inductive VirtualState := pending | settled | swept | spent.

Record VirtualStatus := { state : VirtualState }.

Record Coin := {
  txid : string;
  vout : Z;
  value : Z;
  status : Status
}.

(** [VirtualCoin extends Coin]. *)
Record VirtualCoin := {
  coin :> Coin;
  virtualStatus : VirtualStatus
}.

Record OnchainBalance := {
  onchain_confirmed : Z;
  onchain_unconfirmed : Z;
  onchain_total : Z
}.

Record OffchainBalance := {
  offchain_swept : Z;
  offchain_settled : Z;
  offchain_pending : Z;
  offchain_total : Z
}.

Record WalletBalance := {
  onchain : OnchainBalance;
  offchain : OffchainBalance;
  total : Z
}.

(** The strict equality [coin.virtualStatus.state === s]. *)
Definition state_eqb (a b : VirtualState) : bool :=
  match a, b with
  | pending, pending | settled, settled | swept, swept | spent, spent => true
  | _, _ => false
  end.

(** [xs.reduce((sum, coin) => sum + coin.value, 0)]. *)
Definition reduce_value {A : Type} (val : A -> Z) (xs : list A) : Z :=
  fold_left (fun sum c => sum + val c) xs 0.

(** [getBalance], given the coins of the onchain provider and, when an Ark
    provider is configured, the virtual coins it returns. *)
Definition getBalance (coins : list Coin) (arkProvider : option (list VirtualCoin))
  : WalletBalance :=
  let onchainConfirmed :=
    reduce_value value (filter (fun c => confirmed (status c)) coins) in
  let onchainUnconfirmed :=
    reduce_value value (filter (fun c => negb (confirmed (status c))) coins) in
  let onchainTotal := onchainConfirmed + onchainUnconfirmed in
  let '(offchainSettled, offchainPending, offchainSwept) :=
    match arkProvider with
    | Some vtxos =>
        (reduce_value (fun c : VirtualCoin => value c)
           (filter (fun c => state_eqb (state (virtualStatus c)) settled) vtxos),
         reduce_value (fun c : VirtualCoin => value c)
           (filter (fun c => state_eqb (state (virtualStatus c)) pending) vtxos),
         reduce_value (fun c : VirtualCoin => value c)
           (filter (fun c => state_eqb (state (virtualStatus c)) swept) vtxos))
    | None => (0, 0, 0)
    end in
  let offchainTotal := offchainSettled + offchainPending in
  {| onchain := {| onchain_confirmed := onchainConfirmed;
                   onchain_unconfirmed := onchainUnconfirmed;
                   onchain_total := onchainTotal |};
     offchain := {| offchain_swept := offchainSwept;
                    offchain_settled := offchainSettled;
                    offchain_pending := offchainPending;
                    offchain_total := offchainTotal |};
     total := onchainTotal + offchainTotal |}.

(** Reference sum: the values of the virtual coins that are in state [s]. *)
Fixpoint value_in_state (s : VirtualState) (vtxos : list VirtualCoin) : Z :=
  match vtxos with
  | [] => 0
  | c :: rest =>
      (if state_eqb (state (virtualStatus c)) s then value c else 0)
      + value_in_state s rest
  end.

Definition is_swept (c : VirtualCoin) : bool :=
  state_eqb (state (virtualStatus c)) swept.

Lemma fold_left_add_shift {A : Type} (val : A -> Z) (xs : list A) (a : Z) :
  fold_left (fun sum c => sum + val c) xs a
  = a + fold_left (fun sum c => sum + val c) xs 0.
Proof.
  revert a. induction xs as [|x xs IH]; intros a; cbn.
  - lia.
  - rewrite IH, (IH (val x)). lia.
Qed.

Lemma reduce_value_cons {A : Type} (val : A -> Z) (x : A) (xs : list A) :
  reduce_value val (x :: xs) = val x + reduce_value val xs.
Proof.
  unfold reduce_value. cbn. now rewrite fold_left_add_shift.
Qed.

Lemma reduce_filter_state (s : VirtualState) (vtxos : list VirtualCoin) :
  reduce_value (fun c : VirtualCoin => value c)
    (filter (fun c => state_eqb (state (virtualStatus c)) s) vtxos)
  = value_in_state s vtxos.
Proof.
  induction vtxos as [|c rest IH]; [reflexivity|].
  cbn [filter value_in_state].
  destruct (state_eqb (state (virtualStatus c)) s).
  - rewrite reduce_value_cons, IH. reflexivity.
  - rewrite IH. lia.
Qed.

Lemma value_in_state_drop_swept (s : VirtualState) (vtxos : list VirtualCoin) :
  s <> swept ->
  value_in_state s (filter (fun c => negb (is_swept c)) vtxos)
  = value_in_state s vtxos.
Proof.
  intros Hs. induction vtxos as [|c rest IH]; [reflexivity|].
  cbn [filter value_in_state]. unfold is_swept at 1.
  destruct (state (virtualStatus c)) eqn:Hc; cbn [state_eqb negb];
    cbn [value_in_state]; rewrite ?Hc, IH; try reflexivity.
  destruct s; cbn; try reflexivity. congruence.
Qed.

(** C9: with an Ark provider returning [vtxos], [offchain.total] is the sum
    of the settled and the pending values only; swept coins are reported in
    [offchain.swept] and count neither in [offchain.total] nor in the wallet
    total, which is [onchain.total + settled + pending]. *)
Theorem getBalance_excludes_swept :
  forall (coins : list Coin) (vtxos : list VirtualCoin),
    let b := getBalance coins (Some vtxos) in
    let unswept := filter (fun c => negb (is_swept c)) vtxos in
    offchain_settled (offchain b) = value_in_state settled vtxos
    /\ offchain_pending (offchain b) = value_in_state pending vtxos
    /\ offchain_swept (offchain b) = value_in_state swept vtxos
    /\ offchain_total (offchain b)
       = value_in_state settled vtxos + value_in_state pending vtxos
    /\ total b
       = onchain_total (onchain b)
         + value_in_state settled vtxos + value_in_state pending vtxos
    /\ offchain_total (offchain (getBalance coins (Some unswept)))
       = offchain_total (offchain b)
    /\ total (getBalance coins (Some unswept)) = total b.
Proof.
  intros coins vtxos. cbn zeta. unfold getBalance. cbn.
  rewrite !reduce_filter_state.
  rewrite !value_in_state_drop_swept by discriminate.
  repeat split; lia.
Qed.

(** A wallet with one coin of each kind. *)
Example getBalance_sample :
  let onchain_coin v c :=
    {| txid := "aa"; vout := 0; value := v; status := {| confirmed := c |} |} in
  let vtxo v s :=
    {| coin := onchain_coin v true; virtualStatus := {| state := s |} |} in
  getBalance [onchain_coin 1000 true; onchain_coin 10 false]
    (Some [vtxo 100 settled; vtxo 50 pending; vtxo 30 swept; vtxo 7 spent])
  = {| onchain := {| onchain_confirmed := 1000; onchain_unconfirmed := 10;
                     onchain_total := 1010 |};
       offchain := {| offchain_swept := 30; offchain_settled := 100;
                      offchain_pending := 50; offchain_total := 150 |};
       total := 1160 |}.
Proof. reflexivity. Qed.

End Balance.

(** ** Routing of a payment *)

Module Send.

Record SendBitcoinParams := {
  address : string;
  amount : Z;
  feeRate : option Z;
  memo : option string
}.

(** [Wallet.DUST_AMOUNT]. *)
Definition DUST_AMOUNT : Z := 546.

Definition isOffchainSuitable (params : SendBitcoinParams) : bool :=
  amount params >? DUST_AMOUNT.

Section Routing.

(** The two senders are whatever the wallet does once a route is chosen;
    they resolve to a transaction id or reject. *)
Variable sendOnchain : SendBitcoinParams -> result string string.
Variable sendOffchain : SendBitcoinParams -> bool -> result string string.

(** [arkProvider] tells whether an Ark provider is configured. *)
Definition sendBitcoin (arkProvider : bool) (params : SendBitcoinParams)
    (zeroFee : bool) : result string string :=
  if amount params <=? 0 then Err "Amount must be positive"%string
  else if amount params <? DUST_AMOUNT then Err "Amount is below dust limit"%string
  else if arkProvider && isOffchainSuitable params
       then sendOffchain params zeroFee
       else sendOnchain params.

End Routing.

(** Two senders that tell the routes apart. *)
Definition onchain_marker (_ : SendBitcoinParams) : result string string :=
  Ok "onchain"%string.
Definition offchain_marker (_ : SendBitcoinParams) (_ : bool)
  : result string string := Ok "offchain"%string.

(** C10: a payment of exactly 546 sats passes both amount checks, is never
    suitable for the offchain route, which asks for strictly more than 546
    sats, and is handed to the onchain sender even when an Ark provider is
    configured.  That the dust check rejects exactly the positive amounts
    below 546 is [sendBitcoin_below_dust_iff]. *)
Theorem sendBitcoin_at_dust_goes_onchain :
  forall (sendOnchain : SendBitcoinParams -> result string string)
         (sendOffchain : SendBitcoinParams -> bool -> result string string)
         (arkProvider zeroFee : bool) (params : SendBitcoinParams),
    amount params = 546 ->
    isOffchainSuitable params = false
    /\ sendBitcoin sendOnchain sendOffchain arkProvider params zeroFee
       = sendOnchain params.
Proof.
  intros sendOnchain sendOffchain arkProvider zeroFee params Hamt.
  unfold sendBitcoin, isOffchainSuitable, DUST_AMOUNT. rewrite Hamt. cbn.
  split; [reflexivity|]. now rewrite andb_false_r.
Qed.

Lemma sendBitcoin_at_dust_goes_onchain_witness :
  isOffchainSuitable
    {| address := "tark1"; amount := 546; feeRate := None; memo := None |} = false
  /\ sendBitcoin onchain_marker offchain_marker true
       {| address := "tark1"; amount := 546; feeRate := None; memo := None |} true
     = Ok "onchain"%string.
Proof.
  apply (sendBitcoin_at_dust_goes_onchain onchain_marker offchain_marker
           true true
           {| address := "tark1"; amount := 546; feeRate := None; memo := None |}).
  reflexivity.
Defined.

(** The dust check rejects exactly the positive amounts below 546. *)
Lemma sendBitcoin_below_dust_iff :
  forall sendOnchain sendOffchain arkProvider zeroFee params,
    (forall p, sendOnchain p <> Err "Amount is below dust limit"%string) ->
    (forall p z, sendOffchain p z <> Err "Amount is below dust limit"%string) ->
    (sendBitcoin sendOnchain sendOffchain arkProvider params zeroFee
     = Err "Amount is below dust limit"%string
     <-> 0 < amount params < 546).
Proof.
  intros sendOnchain sendOffchain arkProvider zeroFee params Hon Hoff.
  unfold sendBitcoin, DUST_AMOUNT.
  destruct (Z.leb_spec (amount params) 0) as [H0|H0].
  - split; [discriminate|lia].
  - destruct (Z.ltb_spec (amount params) 546) as [H1|H1].
    + split; [lia|reflexivity].
    + split; [|lia].
      destruct (arkProvider && isOffchainSuitable params); intros H.
      * now apply Hoff in H.
      * now apply Hon in H.
Qed.

Example sendBitcoin_routes :
  let pay a :=
    {| address := "tark1"; amount := a; feeRate := None; memo := None |} in
  let send := sendBitcoin onchain_marker offchain_marker in
  send true (pay 0) true = Err "Amount must be positive"%string
  /\ send true (pay 545) true = Err "Amount is below dust limit"%string
  /\ send true (pay 546) true = Ok "onchain"%string
  /\ send true (pay 547) true = Ok "offchain"%string
  /\ send false (pay 547) true = Ok "onchain"%string.
Proof. repeat split. Qed.

End Send.

(** ** The nonce / signature matrix codec of the REST provider *)

Module Matrix.

Local Open Scope nat_scope.

(** What a [DataView] or typed-array access outside its bounds throws. *)
Inductive Error := RangeError.

(** A [Uint8Array]: a window of [byteLength] bytes at [byteOffset] of an
    [ArrayBuffer]. *)
Record Uint8Array := {
  buffer : list byte;
  byteOffset : nat;
  byteLength : nat
}.

(** [new Uint8Array(buffer)]: the window is the whole buffer. *)
Definition Uint8Array_of_buffer (b : list byte) : Uint8Array :=
  {| buffer := b; byteOffset := 0; byteLength := length b |}.

(** The low eight bits of an integer, as a byte. *)
Definition byte_of_Z (z : Z) : byte :=
  match Byte.of_N (Z.to_N (z mod 256)) with
  | Some b => b
  | None => x00
  end.

Definition Z_of_byte (b : byte) : Z := Z.of_N (Byte.to_N b).

(** The four bytes of [ToUint32 v], least significant first. *)
Definition u32le (v : Z) : list byte :=
  [byte_of_Z v; byte_of_Z (v / 256); byte_of_Z (v / 65536);
   byte_of_Z (v / 16777216)].

(** The number that little-endian bytes denote. *)
Fixpoint Z_of_le (bs : list byte) : Z :=
  match bs with
  | [] => 0%Z
  | b :: rest => (Z_of_byte b + 256 * Z_of_le rest)%Z
  end.

(** Overwrite [bs] into [buf] at [off]; out of bounds is a [RangeError]. *)
Definition write_at (buf : list byte) (off : nat) (bs : list byte)
  : result Error (list byte) :=
  if off + length bs <=? length buf
  then Ok (firstn off buf ++ bs ++ skipn (off + length bs) buf)
  else Err RangeError.

(** [view.setUint32(offset, v, true)] on a view of the whole buffer. *)
Definition setUint32 (buf : list byte) (off : nat) (v : Z) :=
  write_at buf off (u32le v).

(** [view.setInt8(offset, v)]. *)
Definition setInt8 (buf : list byte) (off : nat) (v : Z) :=
  write_at buf off [byte_of_Z v].

(** [new Uint8Array(buffer).set(cell, offset)]. *)
Definition Uint8Array_set (buf : list byte) (cell : list byte) (off : nat) :=
  write_at buf off cell.

(** The first loop of [encodeMatrix]: the size of the buffer. *)
Definition totalSize (matrix : list (list (list byte))) : nat :=
  fold_left
    (fun totalSize row =>
       fold_left (fun totalSize cell => totalSize + 1 + length cell)
                 row (totalSize + 4))
    matrix 4.

(** The buffer being filled and the write position. *)
Record Writer := { w_buffer : list byte; w_offset : nat }.

Definition encode_cell (w : Writer) (cell : list byte) : result Error Writer :=
  let notNil := 0 <? length cell in
  let* buf := setInt8 (w_buffer w) (w_offset w) (if notNil then 1 else 0) in
  let offset := w_offset w + 1 in
  if negb notNil then Ok {| w_buffer := buf; w_offset := offset |}
  else
    let* buf := Uint8Array_set buf cell offset in
    Ok {| w_buffer := buf; w_offset := offset + length cell |}.

Fixpoint encode_cells (w : Writer) (row : list (list byte))
  : result Error Writer :=
  match row with
  | [] => Ok w
  | cell :: rest => let* w := encode_cell w cell in encode_cells w rest
  end.

Definition encode_row (w : Writer) (row : list (list byte))
  : result Error Writer :=
  let* buf := setUint32 (w_buffer w) (w_offset w) (Z.of_nat (length row)) in
  encode_cells {| w_buffer := buf; w_offset := w_offset w + 4 |} row.

Fixpoint encode_rows (w : Writer) (matrix : list (list (list byte)))
  : result Error Writer :=
  match matrix with
  | [] => Ok w
  | row :: rest => let* w := encode_row w row in encode_rows w rest
  end.

Definition encodeMatrix (matrix : list (list (list byte)))
  : result Error Uint8Array :=
  let buffer := repeat x00 (totalSize matrix) in
  let* buf := setUint32 buffer 0 (Z.of_nat (length matrix)) in
  let* w := encode_rows {| w_buffer := buf; w_offset := 4 |} matrix in
  Ok (Uint8Array_of_buffer (w_buffer w)).

(** [view.getUint32(offset, true)] on the [DataView] over the window of
    [m]; the window lies within its buffer. *)
Definition getUint32 (m : Uint8Array) (off : nat) : result Error Z :=
  if (off + 4 <=? byteLength m) && (byteOffset m + byteLength m <=? length (buffer m))
  then Ok (Z_of_le (firstn 4 (skipn (byteOffset m + off) (buffer m))))
  else Err RangeError.

(** [view.getUint8(offset)]. *)
Definition getUint8 (m : Uint8Array) (off : nat) : result Error Z :=
  if off + 1 <=? byteLength m
  then match nth_error (buffer m) (byteOffset m + off) with
       | Some b => Ok (Z_of_byte b)
       | None => Err RangeError
       end
  else Err RangeError.

(** [new Uint8Array(new Uint8Array(buffer, start, len))]: a copy of [len]
    bytes of the underlying buffer. *)
Definition Uint8Array_copy (buf : list byte) (start len : nat)
  : result Error (list byte) :=
  if start + len <=? length buf
  then Ok (firstn len (skipn start buf))
  else Err RangeError.

(** The inner loop of [decodeMatrix]: [rowLength] cells from [offset] on;
    returns the row and the offset after it. *)
Fixpoint decode_cells (m : Uint8Array) (cellLength : nat) (rowLength : nat)
    (offset : nat) : result Error (list (list byte) * nat) :=
  match rowLength with
  | O => Ok ([], offset)
  | S j =>
      let* flag := getUint8 m offset in
      let notNil := (flag =? 1)%Z in
      let offset := offset + 1 in
      if notNil then
        let* cell := Uint8Array_copy (buffer m) (byteOffset m + offset) cellLength in
        let* (row, offset) := decode_cells m cellLength j (offset + cellLength) in
        Ok (cell :: row, offset)
      else
        let* (row, offset) := decode_cells m cellLength j offset in
        Ok ([] :: row, offset)
  end.

(** The outer loop of [decodeMatrix]. *)
Fixpoint decode_rows (m : Uint8Array) (cellLength : nat) (numRows : nat)
    (offset : nat) : result Error (list (list (list byte)) * nat) :=
  match numRows with
  | O => Ok ([], offset)
  | S i =>
      let* rowLength := getUint32 m offset in
      let offset := offset + 4 in
      let* (row, offset) := decode_cells m cellLength (Z.to_nat rowLength) offset in
      let* (rows, offset) := decode_rows m cellLength i offset in
      Ok (row :: rows, offset)
  end.

Definition decodeMatrix (m : Uint8Array) (cellLength : nat)
  : result Error (list (list (list byte))) :=
  let* numRows := getUint32 m 0 in
  let* (result, _) := decode_rows m cellLength (Z.to_nat numRows) 4 in
  Ok result.

(** *** The wire format, as the specification words it *)

(** A cell: a presence flag, 1 iff the cell is non-empty, then the bytes of
    the cell when present. *)
Definition wire_cell (cell : list byte) : list byte :=
  match cell with
  | [] => [x00]
  | _ :: _ => x01 :: cell
  end.

(** A row: little-endian u32 length, then its cells. *)
Definition wire_row (row : list (list byte)) : list byte :=
  u32le (Z.of_nat (length row)) ++ concat (map wire_cell row).

(** A matrix: little-endian u32 row count, then its rows. *)
Definition wire_matrix (matrix : list (list (list byte))) : list byte :=
  u32le (Z.of_nat (length matrix)) ++ concat (map wire_row matrix).

(** Every cell is empty or [cellLength] bytes long. *)
Definition cells_fit (cellLength : nat) (matrix : list (list (list byte))) : Prop :=
  Forall (Forall (fun cell => cell = [] \/ length cell = cellLength)) matrix.

(** JavaScript arrays hold fewer than 2^32 elements. *)
Definition array_sized (matrix : list (list (list byte))) : Prop :=
  (Z.of_nat (length matrix) < 2 ^ 32)%Z
  /\ Forall (fun row => (Z.of_nat (length row) < 2 ^ 32)%Z) matrix.

(** A writer that has produced [done] and has [room] zero bytes left. *)
Definition filling (done : list byte) (room : nat) : Writer :=
  {| w_buffer := done ++ repeat x00 room; w_offset := length done |}.

(** *** Bytes and little-endian words *)

Lemma Z_of_byte_of_Z (z : Z) : Z_of_byte (byte_of_Z z) = (z mod 256)%Z.
Proof.
  assert (Hb : (0 <= z mod 256 < 256)%Z) by (apply Z.mod_pos_bound; lia).
  unfold Z_of_byte, byte_of_Z.
  destruct (Byte.of_N (Z.to_N (z mod 256))) as [b|] eqn:E.
  - apply Byte.to_of_N in E. rewrite E. apply Z2N.id. lia.
  - apply Byte.of_N_None_iff in E. lia.
Qed.

Lemma Z_of_le_u32le (v : Z) :
  (0 <= v < 2 ^ 32)%Z -> Z_of_le (u32le v) = v.
Proof.
  intros Hv. unfold u32le. cbn [Z_of_le]. rewrite !Z_of_byte_of_Z.
  change (2 ^ 32)%Z with 4294967296%Z in Hv.
  Z.div_mod_to_equations. lia.
Qed.

(** *** List surgery *)

Lemma firstn_app_exact {A} (l1 l2 : list A) : firstn (length l1) (l1 ++ l2) = l1.
Proof.
  induction l1 as [|x l1 IH]; cbn; [now destruct l2|now rewrite IH].
Qed.

Lemma skipn_app_exact {A} (l1 l2 : list A) : skipn (length l1) (l1 ++ l2) = l2.
Proof.
  induction l1 as [|x l1 IH]; cbn; [reflexivity|exact IH].
Qed.

Lemma skipn_repeat_zero (n k : nat) :
  skipn n (repeat x00 k) = repeat x00 (k - n).
Proof.
  revert k. induction n as [|n IH]; intros k.
  - now rewrite Nat.sub_0_r.
  - destruct k as [|k]; cbn; [reflexivity|apply IH].
Qed.

Lemma write_at_fill (done bs : list byte) (room : nat) :
  length bs <= room ->
  write_at (done ++ repeat x00 room) (length done) bs
  = Ok ((done ++ bs) ++ repeat x00 (room - length bs)).
Proof.
  intros Hroom. unfold write_at.
  rewrite length_app, repeat_length.
  destruct (Nat.leb_spec (length done + length bs) (length done + room)) as [_|H];
    [|lia].
  rewrite firstn_app_exact.
  rewrite (Nat.add_comm (length done)), <- skipn_skipn.
  rewrite skipn_app_exact, skipn_repeat_zero.
  now rewrite <- app_assoc.
Qed.

(** *** The encoder writes the wire format *)

Lemma length_wire_cell (cell : list byte) :
  length (wire_cell cell) = 1 + length cell.
Proof. destruct cell; reflexivity. Qed.

Lemma filling_eq (d1 d2 : list byte) (r1 r2 : nat) :
  d1 = d2 -> r1 = r2 -> filling d1 r1 = filling d2 r2.
Proof. now intros -> ->. Qed.

Lemma encode_cell_fill (done cell : list byte) (room : nat) :
  length (wire_cell cell) <= room ->
  encode_cell (filling done room) cell
  = Ok (filling (done ++ wire_cell cell) (room - length (wire_cell cell))).
Proof.
  intros Hroom. unfold encode_cell, filling. cbn [w_buffer w_offset].
  destruct cell as [|b cell].
  - cbn [length Nat.ltb Nat.leb negb wire_cell] in *.
    unfold setInt8. change (byte_of_Z 0) with x00.
    rewrite write_at_fill by exact Hroom. cbn [bind].
    now rewrite length_app.
  - rewrite length_wire_cell in Hroom.
    change (0 <? length (b :: cell)) with true. cbn [negb].
    unfold setInt8, Uint8Array_set. change (byte_of_Z 1) with x01.
    rewrite write_at_fill by (cbn; lia). cbn [bind].
    replace (length done + 1) with (length (done ++ [x01]))
      by (rewrite length_app; reflexivity).
    rewrite write_at_fill by (cbn in *; lia). cbn [bind].
    do 2 f_equal.
    + cbn [wire_cell length] in *. rewrite <- !app_assoc. cbn [app].
      do 5 f_equal. lia.
    + cbn [wire_cell]. rewrite !length_app. cbn [length]. lia.
Qed.

Lemma encode_cells_fill (row : list (list byte)) :
  forall (done : list byte) (room : nat),
    length (concat (map wire_cell row)) <= room ->
    encode_cells (filling done room) row
    = Ok (filling (done ++ concat (map wire_cell row))
                  (room - length (concat (map wire_cell row)))).
Proof.
  induction row as [|cell row IH]; intros done room Hroom.
  - cbn. apply f_equal, filling_eq; [now rewrite app_nil_r|lia].
  - cbn [map concat encode_cells] in *. rewrite length_app in Hroom.
    rewrite encode_cell_fill by lia. cbn [bind].
    rewrite IH by lia. apply f_equal, filling_eq.
    + now rewrite app_assoc.
    + rewrite length_app. lia.
Qed.

Lemma encode_row_fill (row : list (list byte)) (done : list byte) (room : nat) :
  length (wire_row row) <= room ->
  encode_row (filling done room) row
  = Ok (filling (done ++ wire_row row) (room - length (wire_row row))).
Proof.
  unfold wire_row. rewrite length_app. intros Hroom.
  unfold encode_row, setUint32.
  change (w_buffer (filling done room)) with (done ++ repeat x00 room).
  change (w_offset (filling done room)) with (length done).
  rewrite write_at_fill by (cbn in *; lia). cbn [bind].
  replace (length done + 4) with (length (done ++ u32le (Z.of_nat (length row))))
    by (rewrite length_app; reflexivity).
  fold (filling (done ++ u32le (Z.of_nat (length row)))
                (room - length (u32le (Z.of_nat (length row))))).
  rewrite encode_cells_fill by (cbn in *; lia).
  apply f_equal, filling_eq; [now rewrite app_assoc|lia].
Qed.

Lemma encode_rows_fill (matrix : list (list (list byte))) :
  forall (done : list byte) (room : nat),
    length (concat (map wire_row matrix)) <= room ->
    encode_rows (filling done room) matrix
    = Ok (filling (done ++ concat (map wire_row matrix))
                  (room - length (concat (map wire_row matrix)))).
Proof.
  induction matrix as [|row matrix IH]; intros done room Hroom.
  - cbn. apply f_equal, filling_eq; [now rewrite app_nil_r|lia].
  - cbn [map concat encode_rows] in *. rewrite length_app in Hroom.
    rewrite encode_row_fill by lia. cbn [bind].
    rewrite IH by lia. apply f_equal, filling_eq.
    + now rewrite app_assoc.
    + rewrite length_app. lia.
Qed.

Lemma row_size_fold (row : list (list byte)) :
  forall a : nat,
    fold_left (fun totalSize cell => totalSize + 1 + length cell) row a
    = a + length (concat (map wire_cell row)).
Proof.
  induction row as [|cell row IH]; intros a; cbn [fold_left map concat].
  - cbn. lia.
  - rewrite IH, length_app, length_wire_cell. lia.
Qed.

Lemma matrix_size_fold (matrix : list (list (list byte))) :
  forall a : nat,
    fold_left
      (fun totalSize row =>
         fold_left (fun totalSize cell => totalSize + 1 + length cell)
                   row (totalSize + 4))
      matrix a
    = a + length (concat (map wire_row matrix)).
Proof.
  induction matrix as [|row matrix IH]; intros a; cbn [fold_left map concat].
  - cbn. lia.
  - rewrite IH, row_size_fold, length_app. unfold wire_row at 2.
    rewrite length_app. cbn [length u32le]. lia.
Qed.

Lemma totalSize_wire (matrix : list (list (list byte))) :
  totalSize matrix = length (wire_matrix matrix).
Proof.
  unfold totalSize, wire_matrix. rewrite matrix_size_fold, length_app.
  reflexivity.
Qed.

Lemma encodeMatrix_wire (matrix : list (list (list byte))) :
  encodeMatrix matrix = Ok (Uint8Array_of_buffer (wire_matrix matrix)).
Proof.
  unfold encodeMatrix. rewrite totalSize_wire. unfold setUint32.
  pose proof (write_at_fill [] (u32le (Z.of_nat (length matrix)))
                (length (wire_matrix matrix))) as Hw.
  cbn [app length] in Hw. cbn [length] in *. rewrite Hw; clear Hw.
  2:{ unfold wire_matrix. rewrite length_app. cbn. lia. }
  cbn [bind].
  change 4 with (length (u32le (Z.of_nat (length matrix)))).
  fold (filling (u32le (Z.of_nat (length matrix)))
                (length (wire_matrix matrix)
                 - length (u32le (Z.of_nat (length matrix))))).
  rewrite encode_rows_fill.
  2:{ unfold wire_matrix. rewrite length_app. cbn. lia. }
  cbn [bind]. unfold filling. cbn [w_buffer]. do 2 f_equal.
  unfold wire_matrix. rewrite length_app.
  replace (_ - _ - _) with 0 by lia.
  cbn [repeat]. now rewrite app_nil_r.
Qed.

(** *** The decoder reads the wire format back *)

Lemma getUint8_at (buf pre post : list byte) (b : byte) :
  buf = pre ++ b :: post ->
  getUint8 (Uint8Array_of_buffer buf) (length pre) = Ok (Z_of_byte b).
Proof.
  intros ->. unfold getUint8, Uint8Array_of_buffer.
  cbn [byteLength byteOffset buffer]. rewrite length_app. cbn [length].
  destruct (Nat.leb_spec (length pre + 1) (length pre + S (length post)))
    as [_|H]; [|lia].
  cbn [Nat.add]. rewrite nth_error_app2, Nat.sub_diag by lia. reflexivity.
Qed.

Lemma getUint32_at (buf pre post : list byte) (v : Z) :
  (0 <= v < 2 ^ 32)%Z ->
  buf = pre ++ u32le v ++ post ->
  getUint32 (Uint8Array_of_buffer buf) (length pre) = Ok v.
Proof.
  intros Hv ->. unfold getUint32, Uint8Array_of_buffer.
  cbn [byteLength byteOffset buffer Nat.add]. rewrite !length_app.
  destruct (Nat.leb_spec (length pre + 4)
              (length pre + (length (u32le v) + length post))) as [_|H];
    [|cbn in H; lia].
  rewrite Nat.leb_refl. cbn [andb].
  rewrite skipn_app_exact.
  change 4 with (length (u32le v)). rewrite firstn_app_exact.
  now rewrite Z_of_le_u32le.
Qed.

Lemma Uint8Array_copy_at (buf pre cell post : list byte) :
  buf = pre ++ cell ++ post ->
  Uint8Array_copy buf (length pre) (length cell) = Ok cell.
Proof.
  intros ->. unfold Uint8Array_copy. rewrite !length_app.
  destruct (Nat.leb_spec (length pre + length cell)
              (length pre + (length cell + length post))) as [_|H]; [|lia].
  now rewrite skipn_app_exact, firstn_app_exact.
Qed.

Lemma decode_cells_wire (cellLength : nat) (row : list (list byte)) :
  Forall (fun cell => cell = [] \/ length cell = cellLength) row ->
  forall buf pre post : list byte,
    buf = pre ++ concat (map wire_cell row) ++ post ->
    decode_cells (Uint8Array_of_buffer buf) cellLength (length row) (length pre)
    = Ok (row, length pre + length (concat (map wire_cell row))).
Proof.
  induction 1 as [|cell row Hcell _ IH]; intros buf pre post Hbuf.
  - cbn. now rewrite Nat.add_0_r.
  - cbn [length map concat decode_cells] in *.
    destruct cell as [|b cell].
    + cbn [wire_cell app] in *.
      rewrite (getUint8_at buf pre (concat (map wire_cell row) ++ post) x00 Hbuf).
      cbn [bind]. change (Z_of_byte x00 =? 1)%Z with false. cbv iota.
      replace (length pre + 1) with (length (pre ++ [x00]))
        by (rewrite length_app; reflexivity).
      rewrite (IH buf (pre ++ [x00]) post)
        by (rewrite Hbuf, <- app_assoc; reflexivity).
      cbn [bind]. rewrite length_app. cbn [length]. do 2 f_equal. lia.
    + destruct Hcell as [Hnil|Hlen]; [discriminate Hnil|].
      cbn [wire_cell] in *. rewrite <- app_assoc in Hbuf. cbn [app] in Hbuf.
      rewrite (getUint8_at buf pre _ x01 Hbuf).
      cbn [bind]. change (Z_of_byte x01 =? 1)%Z with true. cbv iota.
      cbn [byteOffset buffer Uint8Array_of_buffer Nat.add].
      replace (length pre + 1) with (length (pre ++ [x01]))
        by (rewrite length_app; reflexivity).
      subst cellLength.
      rewrite (Uint8Array_copy_at buf (pre ++ [x01]) (b :: cell)
                 (concat (map wire_cell row) ++ post))
        by (rewrite Hbuf, <- app_assoc; reflexivity).
      cbn [bind].
      rewrite <- length_app.
      rewrite (IH buf ((pre ++ [x01]) ++ b :: cell) post)
        by (rewrite Hbuf, <- !app_assoc; reflexivity).
      cbn [bind]. rewrite !length_app. cbn [length]. do 2 f_equal. lia.
Qed.

Lemma decode_rows_wire (cellLength : nat) (matrix : list (list (list byte))) :
  cells_fit cellLength matrix ->
  Forall (fun row => (Z.of_nat (length row) < 2 ^ 32)%Z) matrix ->
  forall buf pre post : list byte,
    buf = pre ++ concat (map wire_row matrix) ++ post ->
    decode_rows (Uint8Array_of_buffer buf) cellLength (length matrix) (length pre)
    = Ok (matrix, length pre + length (concat (map wire_row matrix))).
Proof.
  unfold cells_fit.
  induction 1 as [|row matrix Hrow _ IH]; intros Hsize buf pre post Hbuf.
  - cbn. now rewrite Nat.add_0_r.
  - apply Forall_cons_iff in Hsize as [Hlen Hsize].
    cbn [length map concat decode_rows] in *.
    unfold wire_row at 1 in Hbuf. rewrite <- !app_assoc in Hbuf.
    rewrite (getUint32_at buf pre _ (Z.of_nat (length row)) ltac:(lia) Hbuf).
    cbn [bind]. rewrite Nat2Z.id.
    replace (length pre + 4)
      with (length (pre ++ u32le (Z.of_nat (length row))))
      by (rewrite length_app; reflexivity).
    rewrite (decode_cells_wire cellLength row Hrow buf _
               (concat (map wire_row matrix) ++ post))
      by (rewrite Hbuf, <- !app_assoc; reflexivity).
    cbn [bind]. rewrite <- length_app.
    rewrite (IH Hsize buf _ post)
      by (rewrite Hbuf, <- !app_assoc; reflexivity).
    cbn [bind]. do 2 f_equal. unfold wire_row. rewrite !length_app. lia.
Qed.

Lemma decodeMatrix_wire (cellLength : nat) (matrix : list (list (list byte))) :
  cells_fit cellLength matrix ->
  array_sized matrix ->
  decodeMatrix (Uint8Array_of_buffer (wire_matrix matrix)) cellLength
  = Ok matrix.
Proof.
  intros Hfit [Hrows Hrow]. unfold decodeMatrix.
  pose proof (getUint32_at (wire_matrix matrix) [] (concat (map wire_row matrix))
                (Z.of_nat (length matrix)) ltac:(lia) eq_refl) as Hhead.
  cbn [length] in Hhead. rewrite Hhead; clear Hhead.
  cbn [bind]. rewrite Nat2Z.id.
  change 4 with (length (u32le (Z.of_nat (length matrix)))).
  rewrite (decode_rows_wire cellLength matrix Hfit Hrow (wire_matrix matrix) _ [])
    by (unfold wire_matrix; now rewrite app_nil_r).
  reflexivity.
Qed.

(** A 2 x 2 matrix of 2-byte cells with one absent cell, and an empty row. *)
Definition sample_matrix : list (list (list byte)) :=
  [[[xaa; xbb]; []]; []; [[]; [x01; x02]]].

(** C6: for a matrix whose cells are empty or [cellLength] bytes long (and
    whose arrays have a JavaScript length, below 2^32), [encodeMatrix]
    succeeds and emits the wire format (u32 little-endian row count; per row
    a u32 little-endian length and, per cell, a presence flag that is 1 iff
    the cell is non-empty, followed by the bytes of a present cell), and
    [decodeMatrix] of the result with [cellLength] returns the matrix,
    absent cells coming back as empty byte strings. *)
Theorem encodeMatrix_decodeMatrix_roundtrip :
  forall (cellLength : nat) (matrix : list (list (list byte))),
    cells_fit cellLength matrix ->
    array_sized matrix ->
    exists encoded : Uint8Array,
      encodeMatrix matrix = Ok encoded
      /\ byteOffset encoded = 0
      /\ byteLength encoded = length (buffer encoded)
      /\ buffer encoded = wire_matrix matrix
      /\ decodeMatrix encoded cellLength = Ok matrix.
Proof.
  intros cellLength matrix Hfit Hsize.
  exists (Uint8Array_of_buffer (wire_matrix matrix)).
  split; [apply encodeMatrix_wire|].
  repeat (split; [reflexivity|]).
  now apply decodeMatrix_wire.
Qed.

Lemma encodeMatrix_decodeMatrix_roundtrip_witness :
  exists encoded : Uint8Array,
    encodeMatrix sample_matrix = Ok encoded
    /\ byteOffset encoded = 0
    /\ byteLength encoded = length (buffer encoded)
    /\ buffer encoded = wire_matrix sample_matrix
    /\ decodeMatrix encoded 2 = Ok sample_matrix.
Proof.
  apply (encodeMatrix_decodeMatrix_roundtrip 2 sample_matrix).
  - unfold cells_fit, sample_matrix.
    repeat constructor; (now left) || (now right).
  - unfold array_sized, sample_matrix. split; [cbn; lia|].
    repeat constructor; cbn; lia.
Defined.

(** The bytes of [sample_matrix] on the wire. *)
Example wire_sample_matrix :
  encodeMatrix sample_matrix
  = Ok (Uint8Array_of_buffer
          [x03; x00; x00; x00;
           x02; x00; x00; x00; x01; xaa; xbb; x00;
           x00; x00; x00; x00;
           x02; x00; x00; x00; x00; x01; x01; x02]).
Proof. vm_compute. reflexivity. Qed.

End Matrix.

(** ** Settlement events of the REST provider *)

Module Events.

(** The raw records received from the server ([ProtoTypes]). *)
Module ProtoTypes.

Record Node := { txid : string; tx : string; parentTxid : string }.

Record TreeLevel := { nodes : list Node }.

Record Tree := { levels : list TreeLevel }.

Record RoundFailed := { failed_id : string; reason : string }.

Record RoundFinalizationEvent := {
  finalization_id : string;
  roundTx : string;
  vtxoTree : Tree;
  connectors : list string;
  minRelayFeeRate : string
}.

Record RoundFinalizedEvent := { finalized_id : string; roundTxid : string }.

Record RoundSigningEvent := {
  signing_id : string;
  cosignersPubkeys : list string;
  unsignedVtxoTree : Tree;
  unsignedRoundTx : string
}.

Record RoundSigningNoncesGeneratedEvent := {
  nonces_id : string;
  treeNonces : string
}.

Record EventData := {
  roundFailed : option RoundFailed;
  roundFinalization : option RoundFinalizationEvent;
  roundFinalized : option RoundFinalizedEvent;
  roundSigning : option RoundSigningEvent;
  roundSigningNoncesGenerated : option RoundSigningNoncesGeneratedEvent
}.

End ProtoTypes.

(** A node of a [VtxoTree]. *)
Record TreeNode := {
  node_txid : string;
  node_tx : string;
  node_parentTxid : string;
  leaf : bool
}.

Definition VtxoTree := list (list TreeNode).

(** The enum of the provider.  The parser below yields events of the first
    five types; the three batch types are those of the later provider. *)
Inductive SettlementEventType :=
| Finalization | Finalized | Failed | SigningStart | SigningNoncesGenerated
| BatchStarted | BatchTree | BatchTreeSignature.

Inductive SettlementEvent :=
| FinalizationEvent (id roundTx : string) (vtxoTree : VtxoTree)
    (connectors : list string) (minRelayFeeRate : Z)
| FinalizedEvent (id roundTxid : string)
| FailedEvent (id reason : string)
| SigningStartEvent (id : string) (cosignersPublicKeys : list string)
    (unsignedVtxoTree : VtxoTree) (unsignedSettlementTx : string)
| SigningNoncesGeneratedEvent (id treeNonces : string)
| BatchStartedEvent (id : string) (intentIdHashes : list string)
    (batchExpiry : Z) (forfeitAddress : string)
| BatchTreeEvent (id : string) (topic : list string) (batchIndex : Z)
    (treeTx : TreeNode)
| BatchTreeSignatureEvent (id : string) (topic : list string)
    (batchIndex level levelIndex : Z) (signature : string).

(** [event.type]. *)
Definition type (e : SettlementEvent) : SettlementEventType :=
  match e with
  | FinalizationEvent _ _ _ _ _ => Finalization
  | FinalizedEvent _ _ => Finalized
  | FailedEvent _ _ => Failed
  | SigningStartEvent _ _ _ _ => SigningStart
  | SigningNoncesGeneratedEvent _ _ => SigningNoncesGenerated
  | BatchStartedEvent _ _ _ _ => BatchStarted
  | BatchTreeEvent _ _ _ _ => BatchTree
  | BatchTreeSignatureEvent _ _ _ _ _ _ => BatchTreeSignature
  end.

(** What [BigInt(string)] throws on a string that is no integer literal. *)
Inductive Error := SyntaxError.

Definition digit_of_ascii (c : ascii) : option Z :=
  let n := Z.of_N (N_of_ascii c) in
  if (48 <=? n) && (n <=? 57) then Some (n - 48) else None.

(** The value of a non-empty run of decimal digits, most significant first,
    continuing from [acc]. *)
Fixpoint parse_digits (acc : Z) (s : string) : option Z :=
  match s with
  | EmptyString => Some acc
  | String c rest =>
      match digit_of_ascii c with
      | Some d => parse_digits (10 * acc + d) rest
      | None => None
      end
  end.

(** [StrWhiteSpaceChar].  A string is the sequence of its code units, and
    the code units of this model are below 256: of the white space and line
    terminator code points these are TAB, LF, VT, FF, CR, SP and NBSP. *)
Definition is_white_space (c : ascii) : bool :=
  let n := Z.of_N (N_of_ascii c) in
  (9 <=? n) && (n <=? 13) || (n =? 32) || (n =? 160).

(** The white space before and after a literal is skipped. *)
Fixpoint trim_start (s : string) : string :=
  match s with
  | EmptyString => EmptyString
  | String c rest => if is_white_space c then trim_start rest else s
  end.

Fixpoint trim_end (s : string) : string :=
  match s with
  | EmptyString => EmptyString
  | String c rest =>
      match trim_end rest with
      | EmptyString =>
          if is_white_space c then EmptyString else String c EmptyString
      | kept => String c kept
      end
  end.

(** [SignedInteger]: an optional sign, then at least one decimal digit. *)
Definition SignedInteger (s : string) : option Z :=
  match s with
  | EmptyString => None
  | String c rest =>
      if Ascii.eqb c "-" then
        match rest, parse_digits 0 rest with
        | String _ _, Some v => Some (- v)
        | _, _ => None
        end
      else if Ascii.eqb c "+" then
        match rest, parse_digits 0 rest with
        | String _ _, Some v => Some v
        | _, _ => None
        end
      else parse_digits 0 s
  end.

(** The value of a digit of the given radix ([0-9], [a-f], [A-F]). *)
Definition digit_of_radix (radix : Z) (c : ascii) : option Z :=
  let n := Z.of_N (N_of_ascii c) in
  let v := if (48 <=? n) && (n <=? 57) then Some (n - 48)
           else if (97 <=? n) && (n <=? 102) then Some (n - 87)
           else if (65 <=? n) && (n <=? 70) then Some (n - 55)
           else None in
  match v with
  | Some d => if d <? radix then Some d else None
  | None => None
  end.

Fixpoint parse_radix (radix acc : Z) (s : string) : option Z :=
  match s with
  | EmptyString => Some acc
  | String c rest =>
      match digit_of_radix radix c with
      | Some d => parse_radix radix (radix * acc + d) rest
      | None => None
      end
  end.

(** The radix a prefix letter announces: [0x], [0o], [0b], in either
    case. *)
Definition radix_of_prefix (c : ascii) : option Z :=
  if Ascii.eqb c "x" || Ascii.eqb c "X" then Some 16
  else if Ascii.eqb c "o" || Ascii.eqb c "O" then Some 8
  else if Ascii.eqb c "b" || Ascii.eqb c "B" then Some 2
  else None.

(** [StrIntegerLiteral]: a [NonDecimalIntegerLiteral] (a prefix and at
    least one digit of its radix, without a sign) or a [SignedInteger];
    neither takes numeric separators. *)
Definition StrIntegerLiteral (s : string) : option Z :=
  match s with
  | String zero (String p (String _ _ as digits)) =>
      match Ascii.eqb zero "0", radix_of_prefix p with
      | true, Some radix => parse_radix radix 0 digits
      | _, _ => SignedInteger s
      end
  | _ => SignedInteger s
  end.

(** [BigInt(s)] on a string ([StringToBigInt]): white space around the
    literal is skipped, nothing but white space is [0n], and a string that
    is no [StringIntegerLiteral] is a [SyntaxError]. *)
Definition BigInt (s : string) : result Error Z :=
  match trim_end (trim_start s) with
  | EmptyString => Ok 0
  | literal =>
      match StrIntegerLiteral literal with
      | Some v => Ok v
      | None => Err SyntaxError
      end
  end.

(** [a / b] on [bigint]: the quotient rounded towards zero. *)
Definition bigint_div (a b : Z) : Z := Z.quot a b.

(** [toVtxoTree]: a node is a leaf when no node names it as its parent. *)
Definition toVtxoTree (t : ProtoTypes.Tree) : VtxoTree :=
  let parentTxids :=
    flat_map
      (fun level =>
         flat_map
           (fun node =>
              if String.eqb (ProtoTypes.parentTxid node) "" then []
              else [ProtoTypes.parentTxid node])
           (ProtoTypes.nodes level))
      (ProtoTypes.levels t) in
  map
    (fun level =>
       map
         (fun node =>
            {| node_txid := ProtoTypes.txid node;
               node_tx := ProtoTypes.tx node;
               node_parentTxid := ProtoTypes.parentTxid node;
               leaf := negb (existsb (String.eqb (ProtoTypes.txid node))
                                     parentTxids) |})
         (ProtoTypes.nodes level))
    (ProtoTypes.levels t).

(** [parseSettlementEvent]; [None] is the [null] of an unknown record. *)
Definition parseSettlementEvent (data : ProtoTypes.EventData)
  : result Error (option SettlementEvent) :=
  match ProtoTypes.roundFinalization data with
  | Some e =>
      (* divide by 1000 to convert to sat/vbyte *)
      let* raw := BigInt (ProtoTypes.minRelayFeeRate e) in
      Ok (Some (FinalizationEvent
                  (ProtoTypes.finalization_id e)
                  (ProtoTypes.roundTx e)
                  (toVtxoTree (ProtoTypes.vtxoTree e))
                  (ProtoTypes.connectors e)
                  (bigint_div raw 1000)))
  | None =>
  match ProtoTypes.roundFinalized data with
  | Some e =>
      Ok (Some (FinalizedEvent (ProtoTypes.finalized_id e)
                               (ProtoTypes.roundTxid e)))
  | None =>
  match ProtoTypes.roundFailed data with
  | Some e =>
      Ok (Some (FailedEvent (ProtoTypes.failed_id e) (ProtoTypes.reason e)))
  | None =>
  match ProtoTypes.roundSigning data with
  | Some e =>
      Ok (Some (SigningStartEvent
                  (ProtoTypes.signing_id e)
                  (ProtoTypes.cosignersPubkeys e)
                  (toVtxoTree (ProtoTypes.unsignedVtxoTree e))
                  (ProtoTypes.unsignedRoundTx e)))
  | None =>
  match ProtoTypes.roundSigningNoncesGenerated data with
  | Some e =>
      Ok (Some (SigningNoncesGeneratedEvent (ProtoTypes.nonces_id e)
                                            (ProtoTypes.treeNonces e)))
  | None => Ok None
  end end end end end.

(** [event.minRelayFeeRate] of a parsed event, when it is a Finalization. *)
Definition minRelayFeeRate_of (r : result Error (option SettlementEvent))
  : option Z :=
  match r with
  | Ok (Some (FinalizationEvent _ _ _ _ rate)) => Some rate
  | _ => None
  end.

(** The canonical decimal numeral of an integer. *)
Definition decimal_of_Z (n : Z) : string :=
  NilZero.string_of_int (Z.to_int n).

(** A raw Finalization record with the given fee rate string. *)
Definition sample_finalization (rate : string) : ProtoTypes.EventData :=
  {| ProtoTypes.roundFailed := None;
     ProtoTypes.roundFinalization :=
       Some {| ProtoTypes.finalization_id := "round-1";
               ProtoTypes.roundTx := "cHNidP8=";
               ProtoTypes.vtxoTree := {| ProtoTypes.levels := [] |};
               ProtoTypes.connectors := [];
               ProtoTypes.minRelayFeeRate := rate |};
     ProtoTypes.roundFinalized := None;
     ProtoTypes.roundSigning := None;
     ProtoTypes.roundSigningNoncesGenerated := None |}.

(** *** Decimal numerals *)

Lemma parse_digits_acc (d : Decimal.uint) :
  forall acc : positive,
    parse_digits (Z.pos acc) (NilEmpty.string_of_uint d)
    = Some (Z.pos (Pos.of_uint_acc d acc)).
Proof.
  induction d; intros acc; cbn [NilEmpty.string_of_uint parse_digits];
    [reflexivity|..];
    match goal with
    | |- context [digit_of_ascii ?c] =>
        let v := eval vm_compute in (digit_of_ascii c) in
        change (digit_of_ascii c) with v
    end;
    cbv iota; cbn [Pos.of_uint_acc]; rewrite <- IHd; f_equal; lia.
Qed.

Lemma parse_digits_uint (d : Decimal.uint) :
  parse_digits 0 (NilEmpty.string_of_uint d) = Some (Z.of_N (Pos.of_uint d)).
Proof.
  induction d; cbn [NilEmpty.string_of_uint parse_digits];
    [reflexivity|..];
    match goal with
    | |- context [digit_of_ascii ?c] =>
        let v := eval vm_compute in (digit_of_ascii c) in
        change (digit_of_ascii c) with v
    end;
    cbv iota; cbn [Pos.of_uint Z.mul Z.add];
    [exact IHd | apply parse_digits_acc ..].
Qed.

Lemma string_of_uint_cons (d : Decimal.uint) :
  d <> Decimal.Nil ->
  exists c rest,
    NilEmpty.string_of_uint d = String c rest
    /\ Ascii.eqb c "-" = false /\ Ascii.eqb c "+" = false.
Proof.
  intros Hd. destruct d; [contradiction|..];
    cbn [NilEmpty.string_of_uint]; eexists; eexists;
    (split; [reflexivity|split; reflexivity]).
Qed.

Lemma digit_not_white_space (c : ascii) (d : Z) :
  digit_of_ascii c = Some d -> is_white_space c = false.
Proof.
  unfold digit_of_ascii, is_white_space.
  destruct (Z.leb_spec 48 (Z.of_N (N_of_ascii c))) as [Hlo|Hlo];
    [|discriminate].
  destruct (Z.leb_spec (Z.of_N (N_of_ascii c)) 57) as [Hhi|Hhi];
    [|discriminate].
  intros _.
  destruct (Z.leb_spec 9 (Z.of_N (N_of_ascii c))),
           (Z.leb_spec (Z.of_N (N_of_ascii c)) 13),
           (Z.eqb_spec (Z.of_N (N_of_ascii c)) 32),
           (Z.eqb_spec (Z.of_N (N_of_ascii c)) 160);
    cbn; try reflexivity; lia.
Qed.

Lemma digit_no_prefix (c : ascii) (d : Z) :
  digit_of_ascii c = Some d -> radix_of_prefix c = None.
Proof.
  unfold digit_of_ascii, radix_of_prefix. intros H.
  destruct (Ascii.eqb_spec c "x"); [subst; discriminate H|].
  destruct (Ascii.eqb_spec c "X"); [subst; discriminate H|].
  destruct (Ascii.eqb_spec c "o"); [subst; discriminate H|].
  destruct (Ascii.eqb_spec c "O"); [subst; discriminate H|].
  destruct (Ascii.eqb_spec c "b"); [subst; discriminate H|].
  destruct (Ascii.eqb_spec c "B"); [subst; discriminate H|].
  reflexivity.
Qed.

(** A non-empty run of digits is its own literal. *)
Lemma trim_end_digits (s : string) (v : Z) :
  forall acc : Z, parse_digits acc s = Some v -> trim_end s = s.
Proof.
  induction s as [|c s IH]; intros acc H; [reflexivity|].
  cbn [parse_digits] in H. cbn [trim_end].
  destruct (digit_of_ascii c) as [d|] eqn:Hd; [|discriminate H].
  rewrite (IH _ H). destruct s; [|reflexivity].
  now rewrite (digit_not_white_space c d Hd).
Qed.

Lemma StrIntegerLiteral_digits (s : string) (v : Z) :
  parse_digits 0 s = Some v -> StrIntegerLiteral s = SignedInteger s.
Proof.
  intros H. destruct s as [|zero [|p [|c s]]]; try reflexivity.
  cbn [parse_digits] in H. unfold StrIntegerLiteral.
  destruct (digit_of_ascii zero); [|discriminate H].
  destruct (digit_of_ascii p) as [d|] eqn:Hd; [|discriminate H].
  rewrite (digit_no_prefix p d Hd). now destruct (Ascii.eqb zero "0").
Qed.

(** [BigInt] on an unsigned run of digits. *)
Lemma BigInt_digits (c : ascii) (rest : string) (v : Z) :
  Ascii.eqb c "-" = false -> Ascii.eqb c "+" = false ->
  parse_digits 0 (String c rest) = Some v ->
  BigInt (String c rest) = Ok v.
Proof.
  intros Hminus Hplus Hp. unfold BigInt.
  assert (Hc : is_white_space c = false).
  { cbn [parse_digits] in Hp.
    destruct (digit_of_ascii c) as [d|] eqn:Hd; [|discriminate Hp].
    exact (digit_not_white_space c d Hd). }
  cbn [trim_start]. rewrite Hc. rewrite (trim_end_digits _ v 0 Hp).
  rewrite (StrIntegerLiteral_digits _ v Hp).
  unfold SignedInteger. now rewrite Hminus, Hplus, Hp.
Qed.

(** [BigInt] on a minus sign followed by a run of digits. *)
Lemma BigInt_minus_digits (c : ascii) (rest : string) (v : Z) :
  parse_digits 0 (String c rest) = Some v ->
  BigInt (String "-" (String c rest)) = Ok (- v).
Proof.
  intros Hp. unfold BigInt.
  change (trim_start (String "-" (String c rest)))
    with (String "-" (String c rest)).
  assert (Hend : trim_end (String "-" (String c rest))
                 = String "-" (String c rest)).
  { change (trim_end (String "-" (String c rest)))
      with (match trim_end (String c rest) with
            | EmptyString => String "-" EmptyString
            | kept => String "-" kept
            end).
    now rewrite (trim_end_digits _ v 0 Hp). }
  rewrite Hend.
  assert (Hlit : StrIntegerLiteral (String "-" (String c rest))
                 = SignedInteger (String "-" (String c rest)))
    by (destruct rest; reflexivity).
  rewrite Hlit. unfold SignedInteger.
  change (Ascii.eqb "-" "-") with true. cbv iota. now rewrite Hp.
Qed.

Lemma BigInt_string_of_uint (d : Decimal.uint) :
  d <> Decimal.Nil ->
  BigInt (NilEmpty.string_of_uint d) = Ok (Z.of_N (Pos.of_uint d)).
Proof.
  intros Hd. pose proof (parse_digits_uint d) as Hp.
  destruct (string_of_uint_cons d Hd) as (c & rest & Hs & Hminus & Hplus).
  rewrite Hs in *. now apply BigInt_digits.
Qed.

(** [BigInt] reads the canonical decimal numeral of [n] as [n]. *)
Lemma BigInt_decimal_of_Z (n : Z) : BigInt (decimal_of_Z n) = Ok n.
Proof.
  unfold decimal_of_Z. destruct n as [|p|p]; [reflexivity|..];
    pose proof (Unsigned.to_uint_nonnil p) as Hnil;
    pose proof (Unsigned.of_to p) as Hval;
    cbn [Z.to_int NilZero.string_of_int].
  - unfold NilZero.string_of_uint.
    destruct (Pos.to_uint p) eqn:E; [contradiction|..];
      rewrite <- E in *; rewrite BigInt_string_of_uint by assumption;
      now rewrite Hval.
  - pose proof (parse_digits_uint (Pos.to_uint p)) as Hp.
    destruct (string_of_uint_cons _ Hnil) as (c & rest & Hs & _).
    unfold NilZero.string_of_uint.
    destruct (Pos.to_uint p) eqn:E; [contradiction|..];
      rewrite <- E in *; rewrite Hs in *;
      rewrite (BigInt_minus_digits c rest _ Hp), Hval; reflexivity.
Qed.

(** The literal forms of [BigInt] besides the plain decimal one. *)
Example BigInt_literal_forms :
  BigInt " 12000 " = Ok 12000
  /\ BigInt "0x1F40" = Ok 8000
  /\ BigInt "0o17" = Ok 15
  /\ BigInt "0B101" = Ok 5
  /\ BigInt "" = Ok 0
  /\ BigInt "007" = Ok 7
  /\ BigInt "-0" = Ok 0
  /\ BigInt "-0x10" = Err SyntaxError
  /\ BigInt "0x" = Err SyntaxError
  /\ BigInt "1 2" = Err SyntaxError
  /\ BigInt "1_000" = Err SyntaxError
  /\ BigInt "12n" = Err SyntaxError
  /\ BigInt "1e3" = Err SyntaxError
  /\ BigInt "1.5" = Err SyntaxError.
Proof. repeat split. Qed.

Lemma parseSettlementEvent_finalization
    (data : ProtoTypes.EventData) (e : ProtoTypes.RoundFinalizationEvent) (n : Z) :
  ProtoTypes.roundFinalization data = Some e ->
  BigInt (ProtoTypes.minRelayFeeRate e) = Ok n ->
  parseSettlementEvent data
  = Ok (Some (FinalizationEvent
                (ProtoTypes.finalization_id e)
                (ProtoTypes.roundTx e)
                (toVtxoTree (ProtoTypes.vtxoTree e))
                (ProtoTypes.connectors e)
                (Z.quot n 1000))).
Proof.
  intros He Hn. unfold parseSettlementEvent. rewrite He, Hn. reflexivity.
Qed.

(** C7: a raw Finalization record whose [minRelayFeeRate] string denotes
    the integer [n] (sats/kvb) is parsed into a Finalization event that
    carries [minRelayFeeRate = n / 1000], the [bigint] quotient rounded
    towards zero (sats/vB). *)
Theorem parseSettlementEvent_fee_rate :
  forall (data : ProtoTypes.EventData) (e : ProtoTypes.RoundFinalizationEvent)
         (n : Z),
    ProtoTypes.roundFinalization data = Some e ->
    BigInt (ProtoTypes.minRelayFeeRate e) = Ok n ->
    parseSettlementEvent data
    = Ok (Some (FinalizationEvent
                  (ProtoTypes.finalization_id e)
                  (ProtoTypes.roundTx e)
                  (toVtxoTree (ProtoTypes.vtxoTree e))
                  (ProtoTypes.connectors e)
                  (Z.quot n 1000)))
    /\ minRelayFeeRate_of (parseSettlementEvent data) = Some (Z.quot n 1000).
Proof.
  intros data e n He Hn.
  pose proof (parseSettlementEvent_finalization data e n He Hn) as H.
  split; [exact H|]. now rewrite H.
Qed.

Lemma parseSettlementEvent_fee_rate_witness :
  parseSettlementEvent (sample_finalization "12999")
  = Ok (Some (FinalizationEvent "round-1" "cHNidP8=" [] [] 12))
  /\ minRelayFeeRate_of (parseSettlementEvent (sample_finalization "12999"))
     = Some 12.
Proof.
  apply (parseSettlementEvent_fee_rate (sample_finalization "12999")
           {| ProtoTypes.finalization_id := "round-1";
              ProtoTypes.roundTx := "cHNidP8=";
              ProtoTypes.vtxoTree := {| ProtoTypes.levels := [] |};
              ProtoTypes.connectors := [];
              ProtoTypes.minRelayFeeRate := "12999" |}
           12999).
  - reflexivity.
  - reflexivity.
Defined.

(** The same for the canonical numeral of any integer, negative ones
    included: the rate is rounded towards zero. *)
Lemma parseSettlementEvent_fee_rate_canonical (n : Z) :
  minRelayFeeRate_of (parseSettlementEvent (sample_finalization (decimal_of_Z n)))
  = Some (Z.quot n 1000).
Proof.
  unfold sample_finalization.
  erewrite parseSettlementEvent_finalization;
    [reflexivity | reflexivity | apply BigInt_decimal_of_Z].
Qed.

Example fee_rate_rounds_towards_zero :
  minRelayFeeRate_of (parseSettlementEvent (sample_finalization "-1500"))
  = Some (-1).
Proof. reflexivity. Qed.

End Events.

(** ** The event loop of [Wallet.settle]

    The model starts where the source starts the ping interval, after both
    registrations succeeded (wallet.ts, "start pinging every seconds"), and
    ends where [settle] resolves or rejects. *)

Module Settle.

Import Events.

(** What the asynchronous event stream does next while [settle] awaits it:
    it yields an event, or its iterator throws (a provider error), or, in
    between, the 1000 ms timer fires and the ping it sends resolves
    ([Tick true]) or rejects ([Tick false]).  The end of the list is the end
    of the stream. *)
Inductive StreamItem :=
| Yield (event : SettlementEvent)
| StreamThrows (message : string)
| Tick (pingOk : bool).

(** How [settle] ends. *)
Inductive Outcome :=
| Resolved (roundTxid : string)
| Rejected (message : string).

Section Engine.

(** The MuSig2 signing session is opaque here. *)
Variable Session : Type.

(** The three event handlers of the wallet; each resolves or throws. *)
Variable handleSettlementSigningEvent :
  SettlementEvent -> result string Session.
Variable handleSettlementSigningNoncesGeneratedEvent :
  SettlementEvent -> Session -> result string unit.
Variable handleSettlementFinalizationEvent :
  SettlementEvent -> result string unit.

(** Whether the caller passed an [eventCallback]. *)
Variable eventCallback : bool.

(** The local variables of [settle], the state of the interval timer, and
    what has been observed from outside: the handlers run, the pings sent,
    the events shown to the callback. *)
Record State := {
  interval : bool;       (* the timer is armed: set, and not yet cleared *)
  pingRunning : bool;
  step : option SettlementEventType;
  signingSession : option Session;
  handled : list SettlementEventType;
  pings : nat;
  notified : list SettlementEvent
}.

(** After [setInterval] and [let pingRunning = true]. *)
Definition started : State :=
  {| interval := true; pingRunning := true; step := None;
     signingSession := None; handled := []; pings := 0; notified := [] |}.

Definition stopPing (st : State) : State :=
  if pingRunning st
  then {| interval := false; pingRunning := false; step := step st;
          signingSession := signingSession st; handled := handled st;
          pings := pings st; notified := notified st |}
  else st.

(** [if (eventCallback) eventCallback(event)]. *)
Definition notify (st : State) (event : SettlementEvent) : State :=
  if eventCallback
  then {| interval := interval st; pingRunning := pingRunning st;
          step := step st; signingSession := signingSession st;
          handled := handled st; pings := pings st;
          notified := notified st ++ [event] |}
  else st.

(** A handler for events of type [t] is entered. *)
Definition entering (st : State) (t : SettlementEventType) : State :=
  {| interval := interval st; pingRunning := pingRunning st; step := step st;
     signingSession := signingSession st; handled := handled st ++ [t];
     pings := pings st; notified := notified st |}.

(** [step = event.type], with the session the handler may have created. *)
Definition advance (st : State) (t : SettlementEventType)
    (session : option Session) : State :=
  {| interval := interval st; pingRunning := pingRunning st; step := Some t;
     signingSession := session; handled := handled st;
     pings := pings st; notified := notified st |}.

(** One timer tick: the callback of [setInterval] runs only while the timer
    is armed; a rejected ping reaches [.catch(stopPing)]. *)
Definition tick (st : State) (pingOk : bool) : State :=
  if interval st then
    let st := {| interval := interval st; pingRunning := pingRunning st;
                 step := step st; signingSession := signingSession st;
                 handled := handled st; pings := S (pings st);
                 notified := notified st |} in
    if pingOk then st else stopPing st
  else st.

(** How one iteration of the [for await] body ends. *)
Inductive Flow :=
| Continue (st : State)                 (* [continue], or the end of the body *)
| Return (roundTxid : string) (st : State)
| Throw (message : string) (st : State).

Definition step_is (st : State) (t : SettlementEventType) : bool :=
  match step st, t with
  | Some Finalization, Finalization
  | Some Finalized, Finalized
  | Some Failed, Failed
  | Some SigningStart, SigningStart
  | Some SigningNoncesGenerated, SigningNoncesGenerated
  | Some BatchStarted, BatchStarted
  | Some BatchTree, BatchTree
  | Some BatchTreeSignature, BatchTreeSignature => true
  | _, _ => false
  end.

(** The body of the [for await] loop. *)
Definition on_event (st : State) (event : SettlementEvent) : Flow :=
  let st := notify st event in
  match event with
  (* the settlement failed *)
  | FailedEvent _ reason =>
      match step st with
      | None => Continue st
      | Some _ => Throw reason (stopPing st)
      end
  (* the server has started the signing process of the vtxo tree *)
  | SigningStartEvent _ _ _ _ =>
      match step st with
      | Some _ => Continue st
      | None =>
          let st := entering (stopPing st) SigningStart in
          match handleSettlementSigningEvent event with
          | Err message => Throw message st
          | Ok session => Continue (advance st SigningStart (Some session))
          end
      end
  (* the musig2 nonces of the vtxo tree transactions are generated *)
  | SigningNoncesGeneratedEvent _ _ =>
      if negb (step_is st SigningStart) then Continue st
      else
        let st := stopPing st in
        match signingSession st with
        | None => Throw "Signing session not found" st
        | Some session =>
            let st := entering st SigningNoncesGenerated in
            match handleSettlementSigningNoncesGeneratedEvent event session with
            | Err message => Throw message st
            | Ok _ =>
                Continue (advance st SigningNoncesGenerated (Some session))
            end
        end
  (* the vtxo tree is signed, craft, sign and submit forfeit transactions *)
  | FinalizationEvent _ _ _ _ _ =>
      if negb (step_is st SigningNoncesGenerated) then Continue st
      else
        let st := entering (stopPing st) Finalization in
        match handleSettlementFinalizationEvent event with
        | Err message => Throw message st
        | Ok _ => Continue (advance st Finalization (signingSession st))
        end
  (* the settlement is done, last event to be received *)
  | FinalizedEvent _ roundTxid =>
      if negb (step_is st Finalization) then Continue st
      else Return roundTxid st
  (* no case of the switch: the body ends with [step = event.type] *)
  | BatchStartedEvent _ _ _ _
  | BatchTreeEvent _ _ _ _
  | BatchTreeSignatureEvent _ _ _ _ _ _ =>
      Continue (advance st (type event) (signingSession st))
  end.

(** The [for await] loop, and the [throw] after it. *)
Fixpoint listen (st : State) (stream : list StreamItem) : Outcome * State :=
  match stream with
  | [] => (Rejected "Settlement failed", st)
  | StreamThrows message :: _ => (Rejected message, st)
  | Tick pingOk :: rest => listen (tick st pingOk) rest
  | Yield event :: rest =>
      match on_event st event with
      | Continue st => listen st rest
      | Return roundTxid st => (Resolved roundTxid, st)
      | Throw message st => (Rejected message, st)
      end
  end.

(** [settle] from the start of the ping interval on: [getInfo] is the
    outcome of [arkProvider.getInfo()] and of deriving the sweep script from
    it, awaited before the loop. *)
Definition settle (getInfo : result string unit) (stream : list StreamItem)
  : Outcome * State :=
  match getInfo with
  | Err message => (Rejected message, started)
  | Ok _ => listen started stream
  end.

(** The order of the events of a round. *)
Definition round_order : list SettlementEventType :=
  [SigningStart; SigningNoncesGenerated; Finalization; Finalized].

(** The step after which an event of type [t] is accepted; [None] is the
    [undefined] step before any event.  Only the types of [round_order]
    have a place in the order. *)
Definition preceding (t : SettlementEventType) : option SettlementEventType :=
  match t with
  | SigningStart => None
  | SigningNoncesGenerated => Some SigningStart
  | Finalization => Some SigningNoncesGenerated
  | Finalized => Some Finalization
  | Failed | BatchStarted | BatchTree | BatchTreeSignature => None
  end.

(** The order in which the handlers can run. *)
Definition handler_order : list SettlementEventType :=
  [SigningStart; SigningNoncesGenerated; Finalization].

(** The property of the specification for a Failed event received in state
    [st]: the engine aborts with the reason of the event, the ping loop
    stopped. *)
Definition aborts_on_failed (st : State) (id reason : string) : Prop :=
  exists st' : State,
    on_event st (FailedEvent id reason) = Throw reason st'
    /\ pingRunning st' = false /\ interval st' = false.

(** The property of the specification for an exit of [settle]: the ping
    interval has been cancelled. *)
Definition ping_cancelled (exit : Outcome * State) : Prop :=
  interval (snd exit) = false /\ pingRunning (snd exit) = false.

(** An event arrives in its turn: its type has a place in the order of a
    round and the current step is the one immediately before it. *)
Definition arrives_in_turn (st : State) (event : SettlementEvent) : Prop :=
  In (type event) round_order /\ step st = preceding (type event).

(** The property of the specification for an event received out of its
    turn in state [st]: it is dropped without effect, the loop continues
    from [st] as it was. *)
Definition dropped_without_effect (st : State) (event : SettlementEvent)
  : Prop :=
  on_event st event = Continue st.

(** The handler of [event] resolves when it is run with the signing
    session [session] of the loop. *)
Definition handler_succeeds (event : SettlementEvent)
    (session : option Session) : Prop :=
  match event with
  | SigningStartEvent _ _ _ _ =>
      exists created, handleSettlementSigningEvent event = Ok created
  | SigningNoncesGeneratedEvent _ _ =>
      exists current,
        session = Some current
        /\ handleSettlementSigningNoncesGeneratedEvent event current = Ok tt
  | FinalizationEvent _ _ _ _ _ =>
      handleSettlementFinalizationEvent event = Ok tt
  | _ => False
  end.

End Engine.

Arguments interval {Session} _.
Arguments pingRunning {Session} _.
Arguments step {Session} _.
Arguments signingSession {Session} _.
Arguments handled {Session} _.
Arguments pings {Session} _.
Arguments notified {Session} _.
Arguments started {Session}.
Arguments stopPing {Session} _.
Arguments ping_cancelled {Session} _.

(** Handlers that always succeed, for a session that is a mere token. *)
Definition signing_ok (_ : SettlementEvent) : result string unit := Ok tt.
Definition nonces_ok (_ : SettlementEvent) (_ : unit) : result string unit :=
  Ok tt.
Definition finalization_ok (_ : SettlementEvent) : result string unit := Ok tt.

(** A full round as the server scripts it. *)
Definition ev_signing : SettlementEvent :=
  SigningStartEvent "round-1" ["02aa"%string] [] "cHNidP8=".
Definition ev_nonces : SettlementEvent :=
  SigningNoncesGeneratedEvent "round-1" "00".
Definition ev_finalization : SettlementEvent :=
  FinalizationEvent "round-1" "cHNidP8=" [] [] 1.
Definition ev_finalized : SettlementEvent :=
  FinalizedEvent "round-1" "aaaa".
Definition ev_failed : SettlementEvent :=
  FailedEvent "round-1" "timeout".

(** An event of the later provider, which the [switch] has no case for. *)
Definition ev_batch_started : SettlementEvent :=
  BatchStartedEvent "round-1" ["1f"%string] 144 "tark1qforfeit".

(** The state after an accepted SigningStart event. *)
Definition after_signing : State unit :=
  {| interval := false; pingRunning := false; step := Some SigningStart;
     signingSession := Some tt; handled := [SigningStart];
     pings := 0; notified := [] |}.

(** The state after an accepted Finalization event. *)
Definition after_finalization : State unit :=
  {| interval := false; pingRunning := false; step := Some Finalization;
     signingSession := Some tt; handled := handler_order;
     pings := 0; notified := [] |}.

(** The handlers that have run are an initial part of [handler_order]. *)
Definition in_order {Session : Type} (st : State Session) : Prop :=
  exists k : nat, handled st = firstn k handler_order.

(** What holds of the state at the head of every iteration: the timer is
    armed exactly while [pingRunning]; once a handler has run the ping is
    stopped; and a step of the round tells which handlers have run. *)
Definition consistent {Session : Type} (st : State Session) : Prop :=
  interval st = pingRunning st
  /\ match step st with
     | None => handled st = []
     | Some SigningStart =>
         handled st = [SigningStart] /\ pingRunning st = false
     | Some SigningNoncesGenerated =>
         handled st = [SigningStart; SigningNoncesGenerated]
         /\ pingRunning st = false
     | Some Finalization =>
         handled st = handler_order /\ pingRunning st = false
     | Some BatchStarted | Some BatchTree | Some BatchTreeSignature =>
         in_order st /\ (handled st <> [] -> pingRunning st = false)
     | Some Finalized | Some Failed => False
     end.

(** What one iteration establishes, from a consistent state. *)
Definition flow_ok {Session : Type} (e : SettlementEvent)
    (f : Flow Session) : Prop :=
  match f with
  | Continue _ st' => consistent st'
  | Return _ roundTxid st' =>
      handled st' = handler_order
      /\ interval st' = false /\ pingRunning st' = false
      /\ exists id, e = FinalizedEvent id roundTxid
  | Throw _ _ st' =>
      in_order st' /\ interval st' = false /\ pingRunning st' = false
  end.

(** What every exit of the loop satisfies, from a consistent state. *)
Definition exit_ok {Session : Type} (stream : list StreamItem)
    (exit : Outcome * State Session) : Prop :=
  in_order (snd exit)
  /\ interval (snd exit) = pingRunning (snd exit)
  /\ (handled (snd exit) <> [] -> ping_cancelled exit)
  /\ forall roundTxid,
       fst exit = Resolved roundTxid ->
       handled (snd exit) = handler_order
       /\ ping_cancelled exit
       /\ exists id, In (Yield (FinalizedEvent id roundTxid)) stream.

Section EngineFacts.

Variable Session : Type.
Variable hSigning : SettlementEvent -> result string Session.
Variable hNonces : SettlementEvent -> Session -> result string unit.
Variable hFinalization : SettlementEvent -> result string unit.
Variable eventCallback : bool.

Local Abbreviation on_event :=
  (on_event Session hSigning hNonces hFinalization eventCallback).
Local Abbreviation listen :=
  (listen Session hSigning hNonces hFinalization eventCallback).
Local Abbreviation settle :=
  (settle Session hSigning hNonces hFinalization eventCallback).
Local Abbreviation notify := (notify Session eventCallback).
Local Abbreviation aborts_on_failed :=
  (aborts_on_failed Session hSigning hNonces hFinalization eventCallback).

(** *** The callback only observes *)

Lemma notify_fields (st : State Session) (e : SettlementEvent) :
  interval (notify st e) = interval st
  /\ pingRunning (notify st e) = pingRunning st
  /\ step (notify st e) = step st
  /\ signingSession (notify st e) = signingSession st
  /\ handled (notify st e) = handled st
  /\ pings (notify st e) = pings st.
Proof. unfold Settle.notify. destruct eventCallback; cbn; auto 10. Qed.

Lemma notify_step (st : State Session) (e : SettlementEvent) :
  step (notify st e) = step st.
Proof. apply notify_fields. Qed.

Lemma notify_consistent (st : State Session) (e : SettlementEvent) :
  consistent st -> consistent (notify st e).
Proof.
  unfold consistent, in_order.
  destruct (notify_fields st e) as (-> & -> & -> & _ & -> & _).
  auto.
Qed.

Lemma notify_interval_pingRunning (st : State Session) (e : SettlementEvent) :
  interval st = pingRunning st ->
  interval (notify st e) = pingRunning (notify st e).
Proof.
  destruct (notify_fields st e) as (-> & -> & _). auto.
Qed.

(** *** [stopPing] *)

Lemma stopPing_fields (st : State Session) :
  pingRunning (stopPing st) = false
  /\ step (stopPing st) = step st
  /\ signingSession (stopPing st) = signingSession st
  /\ handled (stopPing st) = handled st
  /\ (interval st = pingRunning st -> interval (stopPing st) = false).
Proof.
  unfold stopPing. destruct (pingRunning st) eqn:E; cbn; auto 10.
Qed.

Lemma step_is_true (st : State Session) (t : SettlementEventType) :
  step_is Session st t = true <-> step st = Some t.
Proof.
  unfold step_is. destruct (step st) as [[]|], t; split;
    intros H; try reflexivity; try discriminate H.
Qed.

Lemma step_is_false (st : State Session) (t : SettlementEventType) :
  step st <> Some t -> step_is Session st t = false.
Proof.
  intros H. destruct (step_is Session st t) eqn:E; [|reflexivity].
  apply step_is_true in E. contradiction.
Qed.

(** *** One event *)

Lemma on_event_dropped (st : State Session) (e : SettlementEvent) :
  In (type e) round_order ->
  step st <> preceding (type e) ->
  on_event st e = Continue Session (notify st e).
Proof.
  intros Hkind Hstep. pose proof (notify_step st e) as Hn.
  unfold round_order in Hkind.
  destruct e; cbn [type preceding In] in *;
    try (exfalso; intuition discriminate);
    unfold Settle.on_event; fold (notify st).
  - rewrite step_is_false by (rewrite Hn; exact Hstep). reflexivity.
  - rewrite step_is_false by (rewrite Hn; exact Hstep). reflexivity.
  - rewrite Hn. destruct (step st); [reflexivity|contradiction].
  - rewrite step_is_false by (rewrite Hn; exact Hstep). reflexivity.
Qed.

Lemma on_event_finalized (st : State Session) (id roundTxid : string) :
  step st = Some Finalization ->
  on_event st (FinalizedEvent id roundTxid)
  = Return Session roundTxid (notify st (FinalizedEvent id roundTxid)).
Proof.
  intros Hstep. unfold Settle.on_event; fold (notify st).
  assert (H : step_is Session (notify st (FinalizedEvent id roundTxid)) Finalization
              = true)
    by (apply step_is_true; now rewrite notify_step).
  now rewrite H.
Qed.

Lemma on_event_failed_before_signing (st : State Session) (id reason : string) :
  step st = None ->
  on_event st (FailedEvent id reason)
  = Continue Session (notify st (FailedEvent id reason)).
Proof.
  intros Hstep. unfold Settle.on_event; fold (notify st).
  now rewrite notify_step, Hstep.
Qed.

Lemma on_event_failed_after_signing (st : State Session) (id reason : string) :
  step st <> None ->
  on_event st (FailedEvent id reason)
  = Throw Session reason (stopPing (notify st (FailedEvent id reason))).
Proof.
  intros Hstep. unfold Settle.on_event; fold (notify st).
  rewrite notify_step. destruct (step st); [reflexivity|contradiction].
Qed.

(** *** The invariant of the loop *)

Lemma started_consistent : consistent (@started Session).
Proof. split; reflexivity. Qed.

Lemma consistent_in_order (st : State Session) : consistent st -> in_order st.
Proof.
  intros [_ H]. unfold in_order.
  destruct (step st) as [[]|]; try contradiction; try apply H.
  - exists 3%nat. apply H.
  - exists 1%nat. apply H.
  - exists 2%nat. apply H.
  - exists 0%nat. exact H.
Qed.

Lemma on_event_flow_ok (st : State Session) (e : SettlementEvent) :
  consistent st -> flow_ok e (on_event st e).
Proof.
  intros Hc. apply (notify_consistent st e) in Hc.
  unfold Settle.on_event; fold (notify st).
  destruct (notify st e) as [iv pr stp ss hd pg nt].
  destruct Hc as [Hiv Hst]. cbn [interval pingRunning step handled] in *.
  unfold in_order, consistent, step_is, stopPing, entering, advance.
  destruct e; destruct stp as [[]|]; cbn in *; try contradiction;
    repeat match goal with
           | H : _ /\ _ |- _ => destruct H
           end; subst; cbn;
    repeat match goal with
           | |- context [match ?h with Ok _ => _ | Err _ => _ end] =>
               destruct h; cbn
           | |- context [match ?x with Some _ => _ | None => _ end] =>
               destruct x; cbn
           | |- context [if ?b then _ else _] => destruct b; cbn
           end;
    repeat split; try reflexivity; try discriminate; eauto;
    try (exists 0%nat; reflexivity); try (exists 1%nat; reflexivity);
    try (exists 2%nat; reflexivity); try (exists 3%nat; reflexivity);
    try (cbn; intros; congruence).
Qed.

Lemma tick_consistent (st : State Session) (pingOk : bool) :
  consistent st -> consistent (tick Session st pingOk).
Proof.
  intros [Hiv Hst]. unfold tick, stopPing, consistent in *.
  destruct st as [iv pr stp ss hd pg nt]. cbn in *. subst iv.
  destruct pr, pingOk; cbn; split; try reflexivity; try assumption;
    destruct stp as [[]|]; try contradiction; try assumption;
    destruct Hst; try discriminate; auto.
Qed.

Lemma consistent_ping_stopped (st : State Session) :
  consistent st -> handled st <> [] ->
  interval st = false /\ pingRunning st = false.
Proof.
  intros [Hiv Hst] Hh. rewrite Hiv.
  destruct (step st) as [[]|]; try contradiction; split;
    solve [apply Hst | now apply Hst].
Qed.

Lemma consistent_exit_ok (st : State Session) (message : string)
    (stream : list StreamItem) :
  consistent st -> exit_ok stream (Rejected message, st).
Proof.
  intros Hc. unfold exit_ok, ping_cancelled. cbn [fst snd].
  split; [now apply consistent_in_order|].
  split; [apply Hc|].
  split; [now apply consistent_ping_stopped|].
  intros roundTxid H. discriminate H.
Qed.

Lemma exit_ok_cons (item : StreamItem) (stream : list StreamItem)
    (exit : Outcome * State Session) :
  exit_ok stream exit -> exit_ok (item :: stream) exit.
Proof.
  intros (Ho & Hiv & Hh & Hr).
  split; [exact Ho|]. split; [exact Hiv|]. split; [exact Hh|].
  intros roundTxid H. destruct (Hr roundTxid H) as (Hall & Hping & id & Hin).
  split; [exact Hall|]. split; [exact Hping|]. exists id. now right.
Qed.

Lemma listen_exit_ok (stream : list StreamItem) :
  forall st : State Session, consistent st -> exit_ok stream (listen st stream).
Proof.
  induction stream as [|item stream IH]; intros st Hc.
  - now apply consistent_exit_ok.
  - destruct item as [e|message|pingOk]; cbn [Settle.listen].
    + pose proof (on_event_flow_ok st e Hc) as Hf.
      destruct (on_event st e) as [st'|roundTxid st'|message st'];
        cbn [flow_ok] in Hf.
      * apply exit_ok_cons. now apply IH.
      * destruct Hf as (Hh & Hiv & Hpr & id & ->).
        unfold exit_ok, ping_cancelled. cbn [fst snd].
        split; [exists 3%nat; exact Hh|].
        split; [congruence|].
        split; [intros _; now split|].
        intros txid H. injection H as <-.
        split; [exact Hh|]. split; [now split|]. exists id. now left.
      * destruct Hf as (Ho & Hiv & Hpr).
        unfold exit_ok, ping_cancelled. cbn [fst snd].
        split; [exact Ho|].
        split; [congruence|].
        split; [intros _; now split|].
        intros txid H. discriminate H.
    + now apply consistent_exit_ok.
    + apply exit_ok_cons. apply IH. now apply tick_consistent.
Qed.

Lemma settle_exit_ok (getInfo : result string unit) (stream : list StreamItem) :
  exit_ok stream (settle getInfo stream).
Proof.
  unfold Settle.settle. destruct getInfo as [[]|message].
  - apply listen_exit_ok, started_consistent.
  - apply consistent_exit_ok, started_consistent.
Qed.

(** *** An event in its turn *)

Lemma notify_notified (st : State Session) (e : SettlementEvent) :
  notified (notify st e)
  = if eventCallback then notified st ++ [e] else notified st.
Proof. unfold Settle.notify. destruct eventCallback; reflexivity. Qed.

Lemma on_event_in_turn (st : State Session) (e : SettlementEvent) :
  In (type e) handler_order ->
  step st = preceding (type e) ->
  handler_succeeds Session hSigning hNonces hFinalization e
    (signingSession st) ->
  exists st' : State Session,
    on_event st e = Continue Session st'
    /\ step st' = Some (type e)
    /\ handled st' = handled st ++ [type e]
    /\ pingRunning st' = false
    /\ notified st' = notified (notify st e).
Proof.
  unfold handler_order, handler_succeeds, Settle.on_event, Settle.notify,
    stopPing, entering, advance, step_is.
  destruct st as [iv pr stp ss hd pg nt].
  cbn [step signingSession handled notified interval pingRunning pings].
  intros Hkind Hstep Hok. subst stp.
  destruct e; cbn [type preceding In] in *;
    try (exfalso; intuition discriminate).
  - rewrite Hok. destruct eventCallback, pr; cbn; rewrite ?Hok;
      eexists; repeat split; reflexivity.
  - destruct Hok as (created & Hok).
    destruct eventCallback, pr; cbn; rewrite Hok;
      eexists; repeat split; reflexivity.
  - destruct Hok as (current & -> & Hok).
    destruct eventCallback, pr; cbn; rewrite Hok;
      eexists; repeat split; reflexivity.
Qed.

End EngineFacts.

(** *** The claims on the loop *)

(** C3 (as the specification states it) fails: a Failed event received
    before any SigningStart event does not abort; the loop goes on, the ping
    interval still armed. *)
Lemma failed_before_signing_does_not_abort :
  ~ aborts_on_failed unit signing_ok nonces_ok finalization_ok false
      started "round-1" "timeout".
Proof.
  intros (st' & H & _). cbn in H. discriminate H.
Qed.

(** A round that opens with a Failed event still settles. *)
Example settle_resolves_after_early_failed :
  settle unit signing_ok nonces_ok finalization_ok false (Ok tt)
    [Yield ev_failed; Yield ev_signing; Yield ev_nonces;
     Yield ev_finalization; Yield ev_finalized]
  = (Resolved "aaaa", after_finalization).
Proof. reflexivity. Qed.

(** C3 (amended): whenever a Failed event is received after the step of
    the engine has been set (which the SigningStart event does), the engine
    aborts: the ping loop is stopped and [settle] rejects with the reason of
    the event.  A Failed event received while the step is still undefined,
    before the SigningStart event, is ignored. *)
Theorem failed_event_aborts_once_step_set :
  forall (Session : Type)
         (hSigning : SettlementEvent -> result string Session)
         (hNonces : SettlementEvent -> Session -> result string unit)
         (hFinalization : SettlementEvent -> result string unit)
         (eventCallback : bool)
         (st before : State Session) (id reason : string)
         (rest : list StreamItem),
    interval st = pingRunning st ->
    step st <> None ->
    step before = None ->
    let exit :=
      listen Session hSigning hNonces hFinalization eventCallback st
        (Yield (FailedEvent id reason) :: rest) in
    fst exit = Rejected reason
    /\ ping_cancelled exit
    /\ aborts_on_failed Session hSigning hNonces hFinalization eventCallback
         st id reason
    /\ on_event Session hSigning hNonces hFinalization eventCallback before
         (FailedEvent id reason)
       = Continue Session
           (notify Session eventCallback before (FailedEvent id reason)).
Proof.
  intros Session hS hN hF cb st before id reason rest Hiv Hstep Hbefore.
  cbn zeta.
  pose proof (on_event_failed_after_signing Session hS hN hF cb st id reason Hstep)
    as Hev.
  pose proof (notify_interval_pingRunning Session cb st (FailedEvent id reason) Hiv)
    as Hiv'.
  destruct (stopPing_fields Session
              (notify Session cb st (FailedEvent id reason)))
    as (Hpr & _ & _ & _ & Hint).
  cbn [listen]. rewrite Hev. cbn [fst snd]. unfold ping_cancelled. cbn [snd].
  split; [reflexivity|]. split; [split; auto|]. split.
  - exists (stopPing (notify Session cb st (FailedEvent id reason))). auto.
  - now apply on_event_failed_before_signing.
Qed.

Lemma failed_event_aborts_once_step_set_witness :
  interval after_signing = pingRunning after_signing
  /\ step after_signing <> None
  /\ step (@started unit) = None
  /\ fst (listen unit signing_ok nonces_ok finalization_ok false after_signing
            [Yield ev_failed]) = Rejected "timeout"
  /\ ping_cancelled
       (listen unit signing_ok nonces_ok finalization_ok false after_signing
          [Yield ev_failed])
  /\ aborts_on_failed unit signing_ok nonces_ok finalization_ok false
       after_signing "round-1" "timeout"
  /\ on_event unit signing_ok nonces_ok finalization_ok false started ev_failed
     = Continue unit (notify unit false started ev_failed).
Proof.
  split; [reflexivity|]. split; [discriminate|]. split; [reflexivity|].
  apply (failed_event_aborts_once_step_set unit signing_ok nonces_ok
           finalization_ok false after_signing started "round-1" "timeout" []).
  - reflexivity.
  - discriminate.
  - reflexivity.
Defined.

(** C4: the exits of [settle] that leave the ping interval armed.  When no
    SigningStart event was accepted, [settle] rejects without [stopPing]:
    at the end of the stream, on a stream that only failed, when the stream
    iterator throws, and when [getInfo] rejects.  In each case the timer is
    still armed when [settle] terminates. *)
Theorem settle_exits_with_ping_running :
  forall (Session : Type)
         (hSigning : SettlementEvent -> result string Session)
         (hNonces : SettlementEvent -> Session -> result string unit)
         (hFinalization : SettlementEvent -> result string unit)
         (eventCallback : bool)
         (id reason message : string) (rest : list StreamItem),
    let settle :=
      settle Session hSigning hNonces hFinalization eventCallback in
    let leaks (exit : Outcome * State Session) :=
      interval (snd exit) = true /\ pingRunning (snd exit) = true
      /\ ~ ping_cancelled exit in
    (fst (settle (Ok tt) []) = Rejected "Settlement failed"
     /\ leaks (settle (Ok tt) []))
    /\ (fst (settle (Ok tt) [Yield (FailedEvent id reason)])
        = Rejected "Settlement failed"
        /\ leaks (settle (Ok tt) [Yield (FailedEvent id reason)]))
    /\ (fst (settle (Ok tt) (StreamThrows message :: rest)) = Rejected message
        /\ leaks (settle (Ok tt) (StreamThrows message :: rest)))
    /\ (fst (settle (Err message) rest) = Rejected message
        /\ leaks (settle (Err message) rest)).
Proof.
  intros Session hS hN hF cb id reason message rest. cbn zeta.
  assert (Hleak : forall (o : Outcome) (st : State Session),
             interval st = true -> pingRunning st = true ->
             interval (snd (o, st)) = true /\ pingRunning (snd (o, st)) = true
             /\ ~ ping_cancelled (o, st)).
  { intros o st Hi Hp. cbn [snd]. repeat split; try assumption.
    intros [H _]. cbn [snd] in H. congruence. }
  unfold settle. cbn [listen].
  rewrite (on_event_failed_before_signing Session hS hN hF cb started id reason
             eq_refl).
  destruct (notify_fields Session cb started (FailedEvent id reason))
    as (Hi & Hp & _).
  split; [split; [reflexivity|apply Hleak; reflexivity]|].
  split; [split; [reflexivity|apply Hleak; [rewrite Hi|rewrite Hp]; reflexivity]|].
  split; split; try reflexivity; apply Hleak; reflexivity.
Qed.

(** C5 (as the specification states it) fails: an event received out of
    its turn is not always dropped without effect.  A duplicate SigningStart
    event is still handed to the caller's [eventCallback], which is called
    for every event before the step is looked at; and an event of a type the
    [switch] has no case for (a batch event of the later provider) is not
    dropped at all: it becomes the step, after which the events of the round
    are out of turn and the round is never processed. *)
Lemma out_of_turn_event_is_not_without_effect :
  (~ arrives_in_turn unit after_signing ev_signing
   /\ ~ dropped_without_effect unit signing_ok nonces_ok finalization_ok true
          after_signing ev_signing
   /\ notified (snd (settle unit signing_ok nonces_ok finalization_ok true
                       (Ok tt) [Yield ev_signing; Yield ev_signing]))
      = [ev_signing; ev_signing]
   /\ handled (snd (settle unit signing_ok nonces_ok finalization_ok true
                      (Ok tt) [Yield ev_signing; Yield ev_signing]))
      = [SigningStart])
  /\ (~ arrives_in_turn unit started ev_batch_started
      /\ ~ dropped_without_effect unit signing_ok nonces_ok finalization_ok
             false started ev_batch_started
      /\ settle unit signing_ok nonces_ok finalization_ok false (Ok tt)
           [Yield ev_batch_started; Yield ev_signing; Yield ev_nonces;
            Yield ev_finalization; Yield ev_finalized]
         = (Rejected "Settlement failed",
            {| interval := true; pingRunning := true;
               step := Some BatchStarted; signingSession := None;
               handled := []; pings := 0; notified := [] |})).
Proof.
  split; [split; [|split; [|split]]|split; [|split]].
  - intros [_ H]. discriminate H.
  - unfold dropped_without_effect. cbn. discriminate.
  - reflexivity.
  - reflexivity.
  - intros [H _]. cbn in H. intuition discriminate.
  - unfold dropped_without_effect. cbn. discriminate.
  - reflexivity.
Qed.

(** C5 (amended): the events SigningStart, SigningNoncesGenerated,
    Finalization and Finalized are accepted only one after the other.  An
    event of one of these four types that arrives when the step is not the
    one immediately before it (a duplicate of a processed event included)
    is dropped: the loop continues, no handler runs, and step, signing
    session and ping state are as before; it is still handed to
    [eventCallback] when there is one, as every event is.  An event that
    arrives in its turn is accepted: its handler runs with the ping stopped
    and, when it resolves, the step becomes the type of the event.  A
    Finalized event arriving at step Finalization makes [settle] resolve
    with its [roundTxid].  In every run the handlers run in that order, and
    a run resolves only after all three, with the [roundTxid] of a Finalized
    event of the stream. *)
Theorem settle_event_order :
  forall (Session : Type)
         (hSigning : SettlementEvent -> result string Session)
         (hNonces : SettlementEvent -> Session -> result string unit)
         (hFinalization : SettlementEvent -> result string unit)
         (eventCallback : bool)
         (st : State Session) (e : SettlementEvent)
         (st_turn : State Session) (e_turn : SettlementEvent)
         (st_fin : State Session) (id roundTxid : string)
         (rest : list StreamItem)
         (getInfo : result string unit) (stream : list StreamItem),
    In (type e) round_order ->
    step st <> preceding (type e) ->
    In (type e_turn) handler_order ->
    step st_turn = preceding (type e_turn) ->
    handler_succeeds Session hSigning hNonces hFinalization e_turn
      (signingSession st_turn) ->
    step st_fin = Some Finalization ->
    (exists st' : State Session,
        on_event Session hSigning hNonces hFinalization eventCallback st e
        = Continue Session st'
        /\ step st' = step st
        /\ signingSession st' = signingSession st
        /\ handled st' = handled st
        /\ interval st' = interval st
        /\ pingRunning st' = pingRunning st
        /\ pings st' = pings st
        /\ notified st'
           = (if eventCallback then notified st ++ [e] else notified st))
    /\ (exists st' : State Session,
           on_event Session hSigning hNonces hFinalization eventCallback
             st_turn e_turn
           = Continue Session st'
           /\ step st' = Some (type e_turn)
           /\ handled st' = handled st_turn ++ [type e_turn]
           /\ pingRunning st' = false
           /\ notified st'
              = (if eventCallback then notified st_turn ++ [e_turn]
                 else notified st_turn))
    /\ listen Session hSigning hNonces hFinalization eventCallback st_fin
         (Yield (FinalizedEvent id roundTxid) :: rest)
       = (Resolved roundTxid,
          notify Session eventCallback st_fin (FinalizedEvent id roundTxid))
    /\ (let exit :=
          settle Session hSigning hNonces hFinalization eventCallback
            getInfo stream in
        in_order (snd exit)
        /\ forall txid : string,
             fst exit = Resolved txid ->
             handled (snd exit) = handler_order
             /\ exists id' : string,
                  In (Yield (FinalizedEvent id' txid)) stream).
Proof.
  intros Session hS hN hF cb st e st_turn e_turn st_fin id roundTxid rest
         getInfo stream Hkind Hstep Hkind' Hturn Hok Hfin.
  split; [|split; [|split]].
  - exists (notify Session cb st e).
    split; [now apply on_event_dropped|].
    destruct (notify_fields Session cb st e) as (? & ? & ? & ? & ? & ?).
    pose proof (notify_notified Session cb st e). auto 10.
  - destruct (on_event_in_turn Session hS hN hF cb st_turn e_turn
                Hkind' Hturn Hok) as (st' & Hev & Hs & Hh & Hp & Hn).
    exists st'. rewrite notify_notified in Hn. auto 10.
  - cbn [listen]. now rewrite on_event_finalized.
  - cbn zeta.
    destruct (settle_exit_ok Session hS hN hF cb getInfo stream)
      as (Ho & _ & _ & Hr).
    split; [exact Ho|]. intros txid H.
    destruct (Hr txid H) as (Hall & _ & Hin). now split.
Qed.

Lemma settle_event_order_witness :
  In (type ev_signing) round_order
  /\ step after_signing <> preceding (type ev_signing)
  /\ In (type ev_nonces) handler_order
  /\ step after_signing = preceding (type ev_nonces)
  /\ handler_succeeds unit signing_ok nonces_ok finalization_ok ev_nonces
       (signingSession after_signing)
  /\ step after_finalization = Some Finalization
  /\ (exists st' : State unit,
         on_event unit signing_ok nonces_ok finalization_ok true
           after_signing ev_signing
         = Continue unit st'
         /\ step st' = step after_signing
         /\ signingSession st' = signingSession after_signing
         /\ handled st' = handled after_signing
         /\ interval st' = interval after_signing
         /\ pingRunning st' = pingRunning after_signing
         /\ pings st' = pings after_signing
         /\ notified st'
            = (if true then notified after_signing ++ [ev_signing]
               else notified after_signing))
  /\ (exists st' : State unit,
         on_event unit signing_ok nonces_ok finalization_ok true
           after_signing ev_nonces
         = Continue unit st'
         /\ step st' = Some (type ev_nonces)
         /\ handled st' = handled after_signing ++ [type ev_nonces]
         /\ pingRunning st' = false
         /\ notified st'
            = (if true then notified after_signing ++ [ev_nonces]
               else notified after_signing))
  /\ listen unit signing_ok nonces_ok finalization_ok true after_finalization
       (Yield (FinalizedEvent "round-1" "aaaa") :: [])
     = (Resolved "aaaa",
        notify unit true after_finalization (FinalizedEvent "round-1" "aaaa"))
  /\ (let exit :=
        settle unit signing_ok nonces_ok finalization_ok true (Ok tt)
          [Yield ev_signing; Yield ev_signing; Yield ev_finalization;
           Yield ev_nonces; Yield ev_finalization; Yield ev_finalized] in
      in_order (snd exit)
      /\ forall txid : string,
           fst exit = Resolved txid ->
           handled (snd exit) = handler_order
           /\ exists id' : string,
                In (Yield (FinalizedEvent id' txid))
                   [Yield ev_signing; Yield ev_signing; Yield ev_finalization;
                    Yield ev_nonces; Yield ev_finalization; Yield ev_finalized]).
Proof.
  assert (Hok : handler_succeeds unit signing_ok nonces_ok finalization_ok
                  ev_nonces (signingSession after_signing))
    by (exists tt; split; reflexivity).
  split; [now left|]. split; [discriminate|].
  split; [right; now left|]. split; [reflexivity|]. split; [exact Hok|].
  split; [reflexivity|].
  apply (settle_event_order unit signing_ok nonces_ok finalization_ok true
           after_signing ev_signing after_signing ev_nonces
           after_finalization "round-1" "aaaa" [] (Ok tt)
           [Yield ev_signing; Yield ev_signing; Yield ev_finalization;
            Yield ev_nonces; Yield ev_finalization; Yield ev_finalized]).
  - now left.
  - discriminate.
  - right; now left.
  - reflexivity.
  - exact Hok.
  - reflexivity.
Defined.

(** Events out of order and duplicates leave the round as it is. *)
Example settle_drops_out_of_order :
  settle unit signing_ok nonces_ok finalization_ok false (Ok tt)
    [Yield ev_finalized; Yield ev_signing; Yield ev_signing;
     Yield ev_finalization; Yield ev_nonces; Yield ev_nonces;
     Yield ev_finalization; Yield ev_finalized]
  = (Resolved "aaaa", after_finalization).
Proof. reflexivity. Qed.

End Settle.

(** ** The callers of the VHTLC script

    The class [VHTLC.Script] is not among the sources; the code that
    constructs it is: the integration test "should claim a VHTLC" and
    [examples/vhtlc.js].  The constructor is a parameter of both, and the
    parameter record is written as they pass it. *)

Module VHTLC.

Inductive TimelockType := blocks | seconds.

(** A relative (CSV) delay, [{ type, value }]. *)
Record RelativeTimelock := { type : TimelockType; value : Z }.

Record Options := {
  preimageHash : list byte;
  sender : list byte;
  receiver : list byte;
  server : list byte;
  refundLocktime : Z;
  unilateralClaimDelay : RelativeTimelock;
  unilateralRefundDelay : RelativeTimelock;
  unilateralRefundWithoutReceiverDelay : RelativeTimelock
}.

(** What a call can throw. *)
Inductive Error :=
| ConfigError
| OtherError (message : string).

Definition in_blocks (v : Z) : RelativeTimelock :=
  {| type := blocks; value := v |}.

(** The keys and the hash that a caller makes up before it builds the
    script. *)
Record Parties := {
  hash : list byte;
  alice : list byte;
  bob : list byte;
  serverKey : list byte
}.

(** The options of the integration test: a refund locktime of 1000 and
    delays of 100, 50 and 50 blocks. *)
Definition test_options (who : Parties) : Options :=
  {| preimageHash := hash who;
     sender := alice who;
     receiver := bob who;
     server := serverKey who;
     refundLocktime := 1000;
     unilateralClaimDelay := in_blocks 100;
     unilateralRefundDelay := in_blocks 50;
     unilateralRefundWithoutReceiverDelay := in_blocks 50 |}.

(** The options of the example: a refund locktime 10 blocks from the
    chain tip and delays of 10, 2 and 3 blocks. *)
Definition example_options (who : Parties) (chainTip : Z) : Options :=
  {| preimageHash := hash who;
     sender := alice who;
     receiver := bob who;
     server := serverKey who;
     refundLocktime := chainTip + 10;
     unilateralClaimDelay := in_blocks 10;
     unilateralRefundDelay := in_blocks 2;
     unilateralRefundWithoutReceiverDelay := in_blocks 3 |}.

Section Callers.

(** The class and its constructor, which are not among the sources. *)
Variable Script : Type.
Variable new_Script : Options -> result Error Script.

(** What each caller goes on to do with the script: it takes its address,
    funds it and spends it through one of its paths. *)
Variable Spent : Type.
Variable claim_funded_vhtlc : Script -> result Error Spent.
Variable run_action : Script -> result Error Spent.

(** The test "should claim a VHTLC". *)
Definition should_claim_a_VHTLC (who : Parties) : result Error Spent :=
  let* vhtlcScript := new_Script (test_options who) in
  claim_funded_vhtlc vhtlcScript.

(** [main] of [examples/vhtlc.js]. *)
Definition main (who : Parties) (chainTip : Z) : result Error Spent :=
  let* vhtlcScript := new_Script (example_options who chainTip) in
  run_action vhtlcScript.

End Callers.

(** The delay to claim is not below the delay to refund, both in one
    unit. *)
Definition claim_not_before_refund (o : Options) : Prop :=
  type (unilateralClaimDelay o) = type (unilateralRefundDelay o)
  /\ value (unilateralClaimDelay o) >= value (unilateralRefundDelay o).

(** The property of the specification for a constructor: it fails with
    [ConfigError] on every parameter set whose claim delay is not below the
    refund delay. *)
Definition enforces_delay_ordering {Script : Type}
    (new_Script : Options -> result Error Script) : Prop :=
  forall o : Options,
    claim_not_before_refund o -> new_Script o = Err ConfigError.

(** A constructor that checks nothing, and callers that always succeed. *)
Definition unchecked_Script (o : Options) : result Error Options := Ok o.
Definition spends (_ : Options) : result Error unit := Ok tt.

Definition sample_parties : Parties :=
  {| hash := repeat x00 20; alice := repeat x02 32;
     bob := repeat x03 32; serverKey := repeat x04 32 |}.

Lemma bind_Ok_inv {E A B : Type} (r : result E A) (k : A -> result E B)
    (b : B) :
  bind r k = Ok b -> exists a, r = Ok a /\ k a = Ok b.
Proof.
  destruct r as [a|e]; cbn [bind]; [|discriminate]. intros H. now exists a.
Qed.



End VHTLC.

(** * Further properties of the provider and the wallet *)

(** ** More on the matrix codec *)

Module MatrixFacts.

Import Matrix.

Local Open Scope nat_scope.

(** Equal concatenations with a shorter left part: the shorter one is a
    prefix of the other. *)
Lemma app_eq_app_le {A : Type} (a b c d : list A) :
  a ++ b = c ++ d -> length a <= length c ->
  exists m, c = a ++ m /\ b = m ++ d.
Proof.
  revert c. induction a as [|x a IH]; intros c Heq Hlen.
  - exists c. split; [reflexivity|exact Heq].
  - destruct c as [|y c]; [cbn in Hlen; lia|].
    cbn in Heq. injection Heq as -> Heq. cbn in Hlen.
    destruct (IH c Heq ltac:(lia)) as (m & -> & ->).
    exists m. split; reflexivity.
Qed.

Lemma getUint8_short (buf : list byte) (off : nat) :
  length buf <= off ->
  getUint8 (Uint8Array_of_buffer buf) off = Err RangeError.
Proof.
  intros H. unfold getUint8, Uint8Array_of_buffer. cbn [byteLength].
  destruct (Nat.leb_spec (off + 1) (length buf)); [lia|reflexivity].
Qed.

Lemma getUint32_short (buf : list byte) (off : nat) :
  length buf < off + 4 ->
  getUint32 (Uint8Array_of_buffer buf) off = Err RangeError.
Proof.
  intros H. unfold getUint32, Uint8Array_of_buffer. cbn [byteLength].
  destruct (Nat.leb_spec (off + 4) (length buf)); [lia|reflexivity].
Qed.

(** A row cut short anywhere is not decoded. *)
Lemma decode_cells_truncated (cellLength : nat) (row : list (list byte)) :
  Forall (fun cell => cell = [] \/ length cell = cellLength) row ->
  forall buf pre lost : list byte,
    pre ++ concat (map wire_cell row) = buf ++ lost ->
    lost <> [] ->
    length pre <= length buf ->
    decode_cells (Uint8Array_of_buffer buf) cellLength (length row) (length pre)
    = Err RangeError.
Proof.
  induction 1 as [|cell row Hcell _ IH]; intros buf pre lost Heq Hlost Hlen.
  - cbn in Heq. rewrite app_nil_r in Heq. exfalso.
    apply (f_equal (@length byte)) in Heq. rewrite length_app in Heq.
    destruct lost; [contradiction|cbn in Heq; lia].
  - cbn [length map concat decode_cells] in *.
    destruct (Nat.eq_dec (length buf) (length pre)) as [Hcut|Hcut].
    { rewrite getUint8_short by lia. reflexivity. }
    assert (Hflag : exists flag rest,
               wire_cell cell = flag :: rest
               /\ (cell = [] -> flag = x00 /\ rest = [])
               /\ (cell <> [] -> flag = x01 /\ rest = cell)).
    { destruct cell as [|b cell]; cbn [wire_cell]; eexists; eexists;
        (split; [reflexivity|]); split; intros Hc;
        try discriminate; try contradiction; auto. }
    destruct Hflag as (flag & tail & Hw & Hnil & Hcons).
    rewrite Hw in Heq. cbn [app] in Heq.
    assert (Hpre : (pre ++ [flag]) ++ tail ++ concat (map wire_cell row)
                   = buf ++ lost)
      by (rewrite <- app_assoc; exact Heq).
    destruct (app_eq_app_le _ _ _ _ Hpre) as (m & Hbuf & Hm).
    { rewrite length_app. cbn. lia. }
    rewrite <- app_assoc in Hbuf. cbn [app] in Hbuf.
    rewrite (getUint8_at buf pre m flag Hbuf). cbn [bind].
    destruct cell as [|b cell].
    + destruct (Hnil eq_refl) as [-> ->]. cbn [app] in *.
      change (Z_of_byte x00 =? 1)%Z with false. cbv iota.
      replace (length pre + 1) with (length (pre ++ [x00]))
        by (rewrite length_app; reflexivity).
      rewrite (IH buf (pre ++ [x00]) lost); [reflexivity| |exact Hlost|].
      * rewrite <- app_assoc. exact Heq.
      * rewrite length_app. cbn. lia.
    + destruct (Hcons ltac:(discriminate)) as [-> ->].
      destruct Hcell as [Hc|Hc]; [discriminate Hc|].
      change (Z_of_byte x01 =? 1)%Z with true. cbv iota.
      cbn [byteOffset buffer Uint8Array_of_buffer Nat.add].
      unfold Uint8Array_copy at 1.
      destruct (Nat.leb_spec (length pre + 1 + cellLength) (length buf))
        as [Hfit|Hfit]; [|reflexivity].
      cbn [bind]. subst cellLength.
      replace (length pre + 1 + length (b :: cell))
        with (length (pre ++ x01 :: b :: cell))
        by (rewrite length_app; cbn [length]; lia).
      rewrite (IH buf (pre ++ x01 :: b :: cell) lost);
        [reflexivity| |exact Hlost|].
      * rewrite <- app_assoc. exact Heq.
      * rewrite length_app. cbn [length] in *. lia.
Qed.

Lemma decode_rows_truncated (cellLength : nat)
    (matrix : list (list (list byte))) :
  cells_fit cellLength matrix ->
  Forall (fun row => (Z.of_nat (length row) < 2 ^ 32)%Z) matrix ->
  forall buf pre lost : list byte,
    pre ++ concat (map wire_row matrix) = buf ++ lost ->
    lost <> [] ->
    length pre <= length buf ->
    decode_rows (Uint8Array_of_buffer buf) cellLength (length matrix)
      (length pre)
    = Err RangeError.
Proof.
  unfold cells_fit.
  induction 1 as [|row matrix Hrow _ IH]; intros Hsize buf pre lost Heq Hlost Hlen.
  - cbn in Heq. rewrite app_nil_r in Heq. exfalso.
    apply (f_equal (@length byte)) in Heq. rewrite length_app in Heq.
    destruct lost; [contradiction|cbn in Heq; lia].
  - apply Forall_cons_iff in Hsize as [Hrowlen Hsize].
    cbn [length map concat decode_rows] in *.
    destruct (Nat.ltb_spec (length buf) (length pre + 4)) as [Hcut|Hcut].
    { rewrite getUint32_short by lia. reflexivity. }
    unfold wire_row at 1 in Heq.
    assert (Hhead : (pre ++ u32le (Z.of_nat (length row)))
                    ++ concat (map wire_cell row) ++ concat (map wire_row matrix)
                    = buf ++ lost)
      by (rewrite <- Heq, <- !app_assoc; reflexivity).
    destruct (app_eq_app_le _ _ _ _ Hhead) as (m & Hbuf & Hm).
    { rewrite length_app. cbn. lia. }
    rewrite <- app_assoc in Hbuf.
    rewrite (getUint32_at buf pre m (Z.of_nat (length row)) ltac:(lia) Hbuf).
    cbn [bind]. rewrite Nat2Z.id.
    replace (length pre + 4)
      with (length (pre ++ u32le (Z.of_nat (length row))))
      by (rewrite length_app; reflexivity).
    set (pre' := pre ++ u32le (Z.of_nat (length row))) in *.
    destruct (Nat.ltb_spec (length buf)
                (length pre' + length (concat (map wire_cell row))))
      as [Hin|Hout].
    + (* the cut falls inside this row *)
      assert (Hrowcut : (pre' ++ concat (map wire_cell row))
                        ++ concat (map wire_row matrix) = buf ++ lost)
        by (rewrite <- app_assoc; exact Hhead).
      symmetry in Hrowcut.
      destruct (app_eq_app_le _ _ _ _ Hrowcut) as (m' & Hfull & _).
      { rewrite length_app. lia. }
      rewrite (decode_cells_truncated cellLength row Hrow buf pre' m');
        [reflexivity|exact Hfull| |].
      * intros ->. rewrite app_nil_r in Hfull.
        apply (f_equal (@length byte)) in Hfull. rewrite length_app in Hfull.
        lia.
      * subst pre'. rewrite length_app. cbn. lia.
    + (* the row is whole; the cut falls later *)
      assert (Hrowcut : (pre' ++ concat (map wire_cell row))
                        ++ concat (map wire_row matrix) = buf ++ lost)
        by (rewrite <- app_assoc; exact Hhead).
      destruct (app_eq_app_le _ _ _ _ Hrowcut) as (m' & Hbuf' & _).
      { rewrite length_app. lia. }
      rewrite <- app_assoc in Hbuf'.
      rewrite (decode_cells_wire cellLength row Hrow buf pre' m' Hbuf').
      cbn [bind]. rewrite <- length_app.
      rewrite (IH Hsize buf (pre' ++ concat (map wire_cell row)) lost);
        [reflexivity|exact Hrowcut|exact Hlost|].
      rewrite length_app. lia.
Qed.

Lemma not_nil_app_length {A : Type} (a b : list A) :
  b <> [] -> length a < length (a ++ b).
Proof.
  intros H. rewrite length_app. destruct b; [contradiction|cbn; lia].
Qed.

(** X1: [encodeMatrix] never throws, whatever the sizes of the cells: the
    size computed by its first loop is exactly what its second loop writes.
    The result is a fresh array of [4 + 4 * rows + cells + bytes] bytes. *)
Theorem encodeMatrix_never_fails :
  forall matrix : list (list (list byte)),
  exists encoded : Uint8Array,
    encodeMatrix matrix = Ok encoded
    /\ byteOffset encoded = 0
    /\ byteLength encoded = length (buffer encoded)
    /\ byteLength encoded
       = 4 + 4 * length matrix
         + list_sum (map (fun row => length row) matrix)
         + list_sum (map (fun row => list_sum (map (@length byte) row)) matrix).
Proof.
  intros matrix. exists (Uint8Array_of_buffer (wire_matrix matrix)).
  split; [apply encodeMatrix_wire|]. split; [reflexivity|].
  split; [reflexivity|]. cbn [byteLength Uint8Array_of_buffer].
  unfold wire_matrix. rewrite length_app. cbn [length u32le].
  assert (Hrow : forall row : list (list byte),
             length (concat (map wire_cell row))
             = length row + list_sum (map (@length byte) row)).
  { induction row as [|cell row IH]; [reflexivity|].
    cbn [map concat length]. rewrite length_app, length_wire_cell, IH.
    simpl list_sum. lia. }
  induction matrix as [|row matrix IH]; [reflexivity|].
  cbn [map concat length]. rewrite length_app.
  unfold wire_row at 1. rewrite length_app, Hrow. cbn [length u32le].
  simpl list_sum. lia.
Qed.

(** X2: [decodeMatrix] reads a matrix off the front of its input and does
    not look at what follows: bytes after the encoding are ignored. *)
Theorem decodeMatrix_ignores_trailing_bytes :
  forall (cellLength : nat) (matrix : list (list (list byte)))
         (extra : list byte),
    cells_fit cellLength matrix ->
    array_sized matrix ->
    decodeMatrix (Uint8Array_of_buffer (wire_matrix matrix ++ extra)) cellLength
    = Ok matrix.
Proof.
  intros cellLength matrix extra Hfit [Hrows Hrow]. unfold decodeMatrix.
  assert (Hbuf : wire_matrix matrix ++ extra
                 = [] ++ u32le (Z.of_nat (length matrix))
                   ++ concat (map wire_row matrix) ++ extra)
    by (unfold wire_matrix; rewrite <- app_assoc; reflexivity).
  pose proof (getUint32_at _ [] _ (Z.of_nat (length matrix)) ltac:(lia) Hbuf)
    as Hhead.
  cbn [length] in Hhead. rewrite Hhead; clear Hhead.
  cbn [bind]. rewrite Nat2Z.id.
  change 4 with (length (u32le (Z.of_nat (length matrix)))).
  rewrite (decode_rows_wire cellLength matrix Hfit Hrow _ _ extra Hbuf).
  reflexivity.
Qed.

Lemma decodeMatrix_ignores_trailing_bytes_witness :
  cells_fit 2 sample_matrix
  /\ array_sized sample_matrix
  /\ decodeMatrix
       (Uint8Array_of_buffer (wire_matrix sample_matrix ++ [xff; xfe; xfd])) 2
     = Ok sample_matrix.
Proof.
  assert (Hfit : cells_fit 2 sample_matrix)
    by (unfold cells_fit, sample_matrix;
        repeat constructor; (now left) || (now right)).
  assert (Hsize : array_sized sample_matrix)
    by (unfold array_sized, sample_matrix; split; [cbn; lia|];
        repeat constructor; cbn; lia).
  split; [exact Hfit|]. split; [exact Hsize|].
  exact (decodeMatrix_ignores_trailing_bytes 2 sample_matrix [xff; xfe; xfd]
           Hfit Hsize).
Defined.

(** *** A window cut short over a buffer that holds the rest *)

(** A window of [n] bytes at [byteOffset] of a buffer. *)
Definition window (buf : list byte) (byteOffset n : nat) : Uint8Array :=
  {| buffer := buf; byteOffset := byteOffset; byteLength := n |}.

(** The bytes of the last cell of a matrix: none when it has no row, when
    its last row has no cell, or when that cell is absent. *)
Definition last_cell (matrix : list (list (list byte))) : list byte :=
  last (last matrix []) [].

Lemma getUint8_window (buf skip pre post : list byte) (b : byte) (n : nat) :
  buf = skip ++ pre ++ b :: post ->
  length pre + 1 <= n ->
  getUint8 (window buf (length skip) n) (length pre) = Ok (Z_of_byte b).
Proof.
  intros -> Hn. unfold getUint8, window. cbn [byteLength byteOffset buffer].
  destruct (Nat.leb_spec (length pre + 1) n) as [_|H]; [|lia].
  rewrite nth_error_app2 by lia.
  replace (length skip + length pre - length skip) with (length pre) by lia.
  rewrite nth_error_app2, Nat.sub_diag by lia. reflexivity.
Qed.

Lemma getUint32_window (buf skip pre post : list byte) (v : Z) (n : nat) :
  (0 <= v < 2 ^ 32)%Z ->
  buf = skip ++ pre ++ u32le v ++ post ->
  length pre + 4 <= n ->
  length skip + n <= length buf ->
  getUint32 (window buf (length skip) n) (length pre) = Ok v.
Proof.
  intros Hv -> Hn Hbuf. unfold getUint32, window.
  cbn [byteLength byteOffset buffer].
  destruct (Nat.leb_spec (length pre + 4) n) as [_|H]; [|lia].
  destruct (Nat.leb_spec (length skip + n)
              (length (skip ++ pre ++ u32le v ++ post))) as [_|H]; [|lia].
  cbn [andb]. rewrite app_assoc, <- length_app, skipn_app_exact.
  change 4 with (length (u32le v)). rewrite firstn_app_exact.
  now rewrite Z_of_le_u32le.
Qed.

Lemma last_of_row_le (row : list (list byte)) :
  row <> [] ->
  length (last row []) + 1 <= length (concat (map wire_cell row)).
Proof.
  induction row as [|cell row IH]; [contradiction|]. intros _.
  cbn [map concat]. rewrite length_app, length_wire_cell.
  destruct row as [|c2 row]; [cbn; lia|].
  change (last (cell :: c2 :: row) []) with (last (c2 :: row) []).
  specialize (IH ltac:(discriminate)). lia.
Qed.

Lemma last_cell_le (matrix : list (list (list byte))) :
  matrix <> [] ->
  length (last_cell matrix) + 4 <= length (concat (map wire_row matrix)).
Proof.
  unfold last_cell.
  induction matrix as [|row matrix IH]; [contradiction|]. intros _.
  cbn [map concat]. rewrite length_app. unfold wire_row at 1.
  rewrite length_app. cbn [length u32le].
  destruct matrix as [|r2 matrix].
  - cbn [last map concat length]. destruct row as [|c row]; [cbn; lia|].
    pose proof (last_of_row_le (c :: row) ltac:(discriminate)). lia.
  - change (last (row :: r2 :: matrix) []) with (last (r2 :: matrix) []).
    specialize (IH ltac:(discriminate)). lia.
Qed.

(** The cells of a row are read when the window reaches behind the flag of
    the last of them; the bytes of a cell are taken from the buffer. *)
Lemma decode_cells_window (cellLength : nat) (row : list (list byte)) :
  Forall (fun cell => cell = [] \/ length cell = cellLength) row ->
  forall (buf skip pre post : list byte) (n : nat),
    buf = skip ++ pre ++ concat (map wire_cell row) ++ post ->
    (row = []
     \/ length pre + length (concat (map wire_cell row))
        - length (last row []) <= n) ->
    decode_cells (window buf (length skip) n) cellLength (length row)
      (length pre)
    = Ok (row, length pre + length (concat (map wire_cell row))).
Proof.
  induction 1 as [|cell row Hcell _ IH]; intros buf skip pre post n Hbuf Hn.
  - cbn. now rewrite Nat.add_0_r.
  - destruct Hn as [Hn|Hn]; [discriminate Hn|].
    cbn [map concat] in Hn. rewrite length_app, length_wire_cell in Hn.
    assert (Hflag : length pre + 1 <= n).
    { destruct row as [|c2 row]; [cbn in Hn; lia|].
      change (last (cell :: c2 :: row) []) with (last (c2 :: row) []) in Hn.
      pose proof (last_of_row_le (c2 :: row) ltac:(discriminate)). lia. }
    assert (Hrest : row = []
                    \/ length (pre ++ wire_cell cell)
                       + length (concat (map wire_cell row))
                       - length (last row []) <= n).
    { destruct row as [|c2 row]; [now left|]. right.
      change (last (cell :: c2 :: row) []) with (last (c2 :: row) []) in Hn.
      rewrite length_app, length_wire_cell. lia. }
    cbn [length map concat decode_cells] in *.
    destruct cell as [|b cell].
    + cbn [wire_cell app] in *.
      rewrite (getUint8_window buf skip pre
                 (concat (map wire_cell row) ++ post) x00 n Hbuf Hflag).
      cbn [bind]. change (Z_of_byte x00 =? 1)%Z with false. cbv iota.
      replace (length pre + 1) with (length (pre ++ [x00]))
        by (rewrite length_app; reflexivity).
      rewrite (IH buf skip (pre ++ [x00]) post n);
        [|rewrite Hbuf, <- app_assoc; reflexivity|exact Hrest].
      cbn [bind]. rewrite length_app. cbn [length]. do 2 f_equal. lia.
    + destruct Hcell as [Hnil|Hlen]; [discriminate Hnil|].
      cbn [wire_cell] in *. rewrite <- app_assoc in Hbuf. cbn [app] in Hbuf.
      rewrite (getUint8_window buf skip pre _ x01 n Hbuf Hflag).
      cbn [bind]. change (Z_of_byte x01 =? 1)%Z with true. cbv iota.
      cbn [byteOffset buffer window].
      replace (length skip + (length pre + 1))
        with (length (skip ++ pre ++ [x01]))
        by (rewrite !length_app; reflexivity).
      subst cellLength.
      rewrite (Uint8Array_copy_at buf (skip ++ pre ++ [x01]) (b :: cell)
                 (concat (map wire_cell row) ++ post))
        by (rewrite Hbuf, <- !app_assoc; reflexivity).
      cbn [bind].
      replace (length pre + 1 + length (b :: cell))
        with (length (pre ++ x01 :: b :: cell))
        by (rewrite length_app; cbn [length]; lia).
      rewrite (IH buf skip (pre ++ x01 :: b :: cell) post n);
        [|rewrite Hbuf, <- app_assoc; reflexivity|exact Hrest].
      cbn [bind]. rewrite !length_app. cbn [length]. do 2 f_equal. lia.
Qed.

Lemma decode_rows_window (cellLength : nat)
    (matrix : list (list (list byte))) :
  cells_fit cellLength matrix ->
  Forall (fun row => (Z.of_nat (length row) < 2 ^ 32)%Z) matrix ->
  forall (buf skip pre post : list byte) (n : nat),
    buf = skip ++ pre ++ concat (map wire_row matrix) ++ post ->
    length skip + n <= length buf ->
    (matrix = []
     \/ length pre + length (concat (map wire_row matrix))
        - length (last_cell matrix) <= n) ->
    decode_rows (window buf (length skip) n) cellLength (length matrix)
      (length pre)
    = Ok (matrix, length pre + length (concat (map wire_row matrix))).
Proof.
  unfold cells_fit.
  induction 1 as [|row matrix Hrow _ IH];
    intros Hsize buf skip pre post n Hbuf Hwin Hn.
  - cbn. now rewrite Nat.add_0_r.
  - apply Forall_cons_iff in Hsize as [Hlen Hsize].
    destruct Hn as [Hn|Hn]; [discriminate Hn|].
    cbn [map concat] in Hn. rewrite length_app in Hn.
    unfold wire_row at 1 in Hn. rewrite length_app in Hn.
    cbn [length u32le] in Hn.
    assert (Hlast : length (last row [])
                    <= length (concat (map wire_cell row))).
    { destruct row as [|c row]; [cbn; lia|].
      pose proof (last_of_row_le (c :: row) ltac:(discriminate)). lia. }
    assert (Hhead : length pre + 4 <= n
                    /\ (row = []
                        \/ length (pre ++ u32le (Z.of_nat (length row)))
                           + length (concat (map wire_cell row))
                           - length (last row []) <= n)
                    /\ (matrix = []
                        \/ length ((pre ++ u32le (Z.of_nat (length row)))
                                   ++ concat (map wire_cell row))
                           + length (concat (map wire_row matrix))
                           - length (last_cell matrix) <= n)).
    { rewrite !length_app. cbn [length u32le].
      destruct matrix as [|r2 matrix].
      - unfold last_cell in Hn. cbn [last map concat length] in Hn.
        split; [lia|]. split; [right; lia|now left].
      - assert (Hl : last_cell (row :: r2 :: matrix)
                     = last_cell (r2 :: matrix)) by reflexivity.
        rewrite Hl in Hn.
        pose proof (last_cell_le (r2 :: matrix) ltac:(discriminate)).
        split; [lia|]. split; right; lia. }
    destruct Hhead as (Hcount & Hcells & Hrows).
    cbn [length map concat decode_rows] in *.
    unfold wire_row at 1 in Hbuf. rewrite <- !app_assoc in Hbuf.
    rewrite (getUint32_window buf skip pre _ (Z.of_nat (length row)) n
               ltac:(lia) Hbuf Hcount Hwin).
    cbn [bind]. rewrite Nat2Z.id.
    replace (length pre + 4)
      with (length (pre ++ u32le (Z.of_nat (length row))))
      by (rewrite length_app; reflexivity).
    rewrite (decode_cells_window cellLength row Hrow buf skip _
               (concat (map wire_row matrix) ++ post) n);
      [|rewrite Hbuf, <- !app_assoc; reflexivity|exact Hcells].
    cbn [bind]. rewrite <- length_app.
    rewrite (IH Hsize buf skip _ post n);
      [|rewrite Hbuf, <- !app_assoc; reflexivity|exact Hwin|exact Hrows].
    cbn [bind]. do 2 f_equal. unfold wire_row. rewrite !length_app. lia.
Qed.

(** X3: what [decodeMatrix] makes of a truncated encoding depends on where
    the missing bytes are.  It guards the counts and the presence flags by
    the window of its argument, but takes the bytes of a cell from the
    underlying buffer.  So a proper prefix of an encoding that is held in an
    array of its own (as [hex.decode] returns it) is never decoded:
    [decodeMatrix] throws a [RangeError].  But a window over a buffer that
    holds the whole encoding is decoded as if it was whole as soon as it
    reaches behind the last count or flag: it may be cut short by the bytes
    of the last cell. *)
Theorem decodeMatrix_on_truncation :
  forall (cellLength : nat) (matrix : list (list (list byte)))
         (buf lost skip extra : list byte) (n : nat),
    cells_fit cellLength matrix ->
    array_sized matrix ->
    wire_matrix matrix = buf ++ lost ->
    lost <> [] ->
    length (wire_matrix matrix) - length (last_cell matrix) <= n ->
    n <= length (wire_matrix matrix ++ extra) ->
    decodeMatrix (Uint8Array_of_buffer buf) cellLength = Err RangeError
    /\ decodeMatrix
         (window (skip ++ wire_matrix matrix ++ extra) (length skip) n)
         cellLength
       = Ok matrix.
Proof.
  intros cellLength matrix buf lost skip extra n Hfit [Hrows Hrow] Heq Hlost
         Hreach Hwin.
  split.
  - unfold decodeMatrix.
    destruct (Nat.ltb_spec (length buf) 4) as [Hcut|Hcut].
    { rewrite getUint32_short by (cbn; lia). reflexivity. }
    unfold wire_matrix in Heq.
    destruct (app_eq_app_le _ _ _ _ Heq) as (m & Hbuf & Hm); [cbn; lia|].
    pose proof (getUint32_at buf [] m (Z.of_nat (length matrix)) ltac:(lia)
                  Hbuf) as Hhead.
    cbn [length] in Hhead. rewrite Hhead; clear Hhead.
    cbn [bind]. rewrite Nat2Z.id.
    change 4 with (length (u32le (Z.of_nat (length matrix)))).
    rewrite (decode_rows_truncated cellLength matrix Hfit Hrow buf _ lost Heq
               Hlost);
      [reflexivity|cbn [length u32le]; lia].
  - unfold decodeMatrix.
    assert (Hbuf : skip ++ wire_matrix matrix ++ extra
                   = skip ++ [] ++ u32le (Z.of_nat (length matrix))
                     ++ concat (map wire_row matrix) ++ extra)
      by (unfold wire_matrix; rewrite <- app_assoc; reflexivity).
    assert (Hlen : length (wire_matrix matrix)
                   = 4 + length (concat (map wire_row matrix)))
      by (unfold wire_matrix; rewrite length_app; reflexivity).
    assert (Hcell : length (last_cell matrix)
                    <= length (concat (map wire_row matrix))).
    { destruct matrix as [|row matrix]; [cbn; lia|].
      pose proof (last_cell_le (row :: matrix) ltac:(discriminate)). lia. }
    assert (Hall : length skip + n
                   <= length (skip ++ wire_matrix matrix ++ extra))
      by (rewrite length_app; lia).
    pose proof (getUint32_window _ skip [] _ (Z.of_nat (length matrix)) n
                  ltac:(lia) Hbuf ltac:(cbn [length]; lia) Hall) as Hhead.
    cbn [length] in Hhead. rewrite Hhead; clear Hhead.
    cbn [bind]. rewrite Nat2Z.id.
    change 4 with (length (u32le (Z.of_nat (length matrix)))).
    rewrite (decode_rows_window cellLength matrix Hfit Hrow _ skip
               (u32le (Z.of_nat (length matrix))) extra n);
      [reflexivity|cbn [app] in Hbuf; exact Hbuf|exact Hall|].
    right. cbn [length u32le]. lia.
Qed.

Lemma decodeMatrix_on_truncation_witness :
  cells_fit 2 sample_matrix
  /\ array_sized sample_matrix
  /\ wire_matrix sample_matrix
     = firstn 22 (wire_matrix sample_matrix)
       ++ skipn 22 (wire_matrix sample_matrix)
  /\ skipn 22 (wire_matrix sample_matrix) <> []
  /\ length (wire_matrix sample_matrix) - length (last_cell sample_matrix)
     <= 22
  /\ 22 <= length (wire_matrix sample_matrix ++ [])
  /\ decodeMatrix
       (Uint8Array_of_buffer (firstn 22 (wire_matrix sample_matrix))) 2
     = Err RangeError
  /\ decodeMatrix
       (window ([xff] ++ wire_matrix sample_matrix ++ []) (length [xff]) 22) 2
     = Ok sample_matrix.
Proof.
  assert (Hfit : cells_fit 2 sample_matrix)
    by (unfold cells_fit, sample_matrix;
        repeat constructor; (now left) || (now right)).
  assert (Hsize : array_sized sample_matrix)
    by (unfold array_sized, sample_matrix; split; [cbn; lia|];
        repeat constructor; cbn; lia).
  assert (Hsplit : wire_matrix sample_matrix
                   = firstn 22 (wire_matrix sample_matrix)
                     ++ skipn 22 (wire_matrix sample_matrix))
    by (symmetry; apply firstn_skipn).
  assert (Hlost : skipn 22 (wire_matrix sample_matrix) <> [])
    by (vm_compute; discriminate).
  assert (Hreach : length (wire_matrix sample_matrix)
                   - length (last_cell sample_matrix) <= 22)
    by (vm_compute; lia).
  assert (Hwin : 22 <= length (wire_matrix sample_matrix ++ []))
    by (vm_compute; lia).
  split; [exact Hfit|]. split; [exact Hsize|]. split; [exact Hsplit|].
  split; [exact Hlost|]. split; [exact Hreach|]. split; [exact Hwin|].
  exact (decodeMatrix_on_truncation 2 sample_matrix _ _ [xff] [] 22
           Hfit Hsize Hsplit Hlost Hreach Hwin).
Defined.

(** X4: on matrices of one cell size, [encodeMatrix] is injective: two
    matrices with the same encoding are the same matrix. *)
Theorem encodeMatrix_injective :
  forall (cellLength : nat) (m1 m2 : list (list (list byte))),
    cells_fit cellLength m1 -> array_sized m1 ->
    cells_fit cellLength m2 -> array_sized m2 ->
    encodeMatrix m1 = encodeMatrix m2 ->
    m1 = m2.
Proof.
  intros cellLength m1 m2 Hfit1 Hsize1 Hfit2 Hsize2 Henc.
  rewrite !encodeMatrix_wire in Henc.
  assert (Hwire : wire_matrix m1 = wire_matrix m2).
  { assert (Hu : Uint8Array_of_buffer (wire_matrix m1)
                 = Uint8Array_of_buffer (wire_matrix m2)) by congruence.
    exact (f_equal buffer Hu). }
  pose proof (decodeMatrix_wire cellLength m1 Hfit1 Hsize1) as Hd1.
  pose proof (decodeMatrix_wire cellLength m2 Hfit2 Hsize2) as Hd2.
  rewrite Hwire in Hd1. rewrite Hd1 in Hd2. now injection Hd2.
Qed.

Lemma encodeMatrix_injective_witness :
  cells_fit 2 sample_matrix /\ array_sized sample_matrix
  /\ encodeMatrix sample_matrix = encodeMatrix sample_matrix
  /\ sample_matrix = sample_matrix.
Proof.
  assert (Hfit : cells_fit 2 sample_matrix)
    by (unfold cells_fit, sample_matrix;
        repeat constructor; (now left) || (now right)).
  assert (Hsize : array_sized sample_matrix)
    by (unfold array_sized, sample_matrix; split; [cbn; lia|];
        repeat constructor; cbn; lia).
  split; [exact Hfit|]. split; [exact Hsize|]. split; [reflexivity|].
  exact (encodeMatrix_injective 2 sample_matrix sample_matrix
           Hfit Hsize Hfit Hsize eq_refl).
Defined.

End MatrixFacts.

(** ** Reading events off a response body ([getEventStream])

    The inner loop of [getEventStream]: the chunks of one response body are
    appended to a buffer, split at line feeds, and every complete line is
    parsed; the text after the last line feed waits for the next chunk.
    Chunks are taken after [TextDecoder.decode], as text. *)

Module EventStream.

Import Events.

Local Open Scope string_scope.

Definition line_feed : ascii := "010"%char.

(** [s.split("\n")]: the pieces of [s] between line feeds; never empty. *)
Fixpoint split (s : string) : list string :=
  match s with
  | EmptyString => [EmptyString]
  | String c rest =>
      if Ascii.eqb c line_feed then EmptyString :: split rest
      else match split rest with
           | [] => [String c EmptyString]
           | line :: lines => String c line :: lines
           end
  end.

(** What the loop over the lines can throw. *)
Inductive LineError :=
| JsonError (message : string)
| EventError (e : Events.Error).

Section Reader.

(** [String.prototype.trim]. *)
Variable trim : string -> string.

(** [JSON.parse(line).result], or what it throws. *)
Variable JSON_parse_result : string -> result string ProtoTypes.EventData.

(** The [for] loop over the complete lines: the events yielded, and the
    error that ends the stream, if any. *)
Fixpoint process_lines (lines : list string)
  : list SettlementEvent * option LineError :=
  match lines with
  | [] => ([], None)
  | raw :: rest =>
      let line := trim raw in
      if String.eqb line "" then process_lines rest
      else
        match JSON_parse_result line with
        | Err message => ([], Some (JsonError message))
        | Ok data =>
            match parseSettlementEvent data with
            | Err e => ([], Some (EventError e))
            | Ok None => process_lines rest
            | Ok (Some event) =>
                let (events, thrown) := process_lines rest in
                (event :: events, thrown)
            end
        end
  end.

(** The [while] loop over the chunks of a body, from a given buffer. *)
Fixpoint read_body (buffer : string) (chunks : list string)
  : list SettlementEvent * option LineError :=
  match chunks with
  | [] => ([], None)
  | value :: rest =>
      let buffer := buffer ++ value in
      let lines := split buffer in
      match process_lines (removelast lines) with
      | (events, Some e) => (events, Some e)
      | (events, None) =>
          (* Keep the last partial line in the buffer *)
          let (later, thrown) := read_body (last lines "") rest in
          ((events ++ later)%list, thrown)
      end
  end.

End Reader.

(** The whole text of a body. *)
Fixpoint join (chunks : list string) : string :=
  match chunks with
  | [] => ""
  | value :: rest => value ++ join rest
  end.

(** *** Splitting and appending *)

Lemma append_assoc (a b c : string) : (a ++ b) ++ c = a ++ (b ++ c).
Proof. induction a as [|x a IH]; cbn; [reflexivity|now rewrite IH]. Qed.

Lemma append_nil_r (a : string) : a ++ "" = a.
Proof. induction a as [|x a IH]; cbn; [reflexivity|now rewrite IH]. Qed.

Lemma split_not_nil (s : string) : split s <> [].
Proof.
  destruct s as [|c s]; cbn; [discriminate|].
  destruct (Ascii.eqb c line_feed); [discriminate|].
  destruct (split s); discriminate.
Qed.

(** Splitting [a ++ b]: the complete lines of [a], then the split of what
    its last piece and [b] make together. *)
Lemma split_append (a b : string) :
  split (a ++ b) = (removelast (split a) ++ split (last (split a) "" ++ b))%list.
Proof.
  induction a as [|c a IH]; [reflexivity|].
  cbn [append split]. destruct (Ascii.eqb c line_feed) eqn:Ec.
  - rewrite IH. pose proof (split_not_nil a) as Hne.
    destruct (split a) as [|l ls] eqn:Es; [contradiction|]. reflexivity.
  - rewrite IH. pose proof (split_not_nil a) as Hne.
    destruct (split a) as [|l ls] eqn:Es; [contradiction|].
    destruct ls as [|l' ls].
    + cbn [removelast last app]. cbn [append split]. rewrite Ec.
      pose proof (split_not_nil (l ++ b)) as Hne'.
      destruct (split (l ++ b)); [contradiction|reflexivity].
    + cbn [removelast last app]. reflexivity.
Qed.

(** The last piece holds no line feed. *)
Lemma split_last (s : string) : split (last (split s) "") = [last (split s) ""].
Proof.
  induction s as [|c s IH]; [reflexivity|].
  cbn [split]. destruct (Ascii.eqb c line_feed) eqn:Ec.
  - pose proof (split_not_nil s) as Hne.
    destruct (split s) as [|l ls] eqn:Es; [contradiction|]. exact IH.
  - pose proof (split_not_nil s) as Hne.
    destruct (split s) as [|l ls] eqn:Es; [contradiction|].
    destruct ls as [|l' ls].
    + cbn [last] in *. cbn [split]. rewrite Ec, IH. reflexivity.
    + exact IH.
Qed.

Section ReaderFacts.

Variable trim : string -> string.
Variable JSON_parse_result : string -> result string ProtoTypes.EventData.

Local Abbreviation process_lines := (process_lines trim JSON_parse_result).
Local Abbreviation read_body := (read_body trim JSON_parse_result).

Lemma process_lines_app (l1 l2 : list string) :
  process_lines (l1 ++ l2)%list
  = match process_lines l1 with
    | (events, Some e) => (events, Some e)
    | (events, None) =>
        let (later, thrown) := process_lines l2 in
        ((events ++ later)%list, thrown)
    end.
Proof.
  induction l1 as [|raw l1 IH]; cbn [app EventStream.process_lines].
  - destruct (process_lines l2). reflexivity.
  - destruct (String.eqb (trim raw) ""); [exact IH|].
    destruct (JSON_parse_result (trim raw)) as [data|message]; [|reflexivity].
    destruct (parseSettlementEvent data) as [[event|]|e];
      [|exact IH|reflexivity].
    rewrite IH. destruct (process_lines l1) as [events [e|]]; [reflexivity|].
    destruct (process_lines l2). reflexivity.
Qed.

Lemma read_body_whole (chunks : list string) :
  forall buffer : string,
    split buffer = [buffer] ->
    read_body buffer chunks
    = process_lines (removelast (split (buffer ++ join chunks))).
Proof.
  induction chunks as [|value rest IH]; intros buffer Hbuf.
  - cbn [join EventStream.read_body]. rewrite append_nil_r, Hbuf. reflexivity.
  - cbn [join EventStream.read_body].
    rewrite <- append_assoc, (split_append (buffer ++ value)).
    rewrite removelast_app by apply split_not_nil.
    rewrite process_lines_app.
    destruct (process_lines (removelast (split (buffer ++ value))))
      as [events [e|]]; [reflexivity|].
    rewrite (IH _ (split_last (buffer ++ value))). reflexivity.
Qed.

End ReaderFacts.

(** X5: the events read off a body do not depend on how its bytes arrive in
    chunks: they are the events of the complete lines of the whole text, in
    order, up to the first line that fails to parse.  Text after the last
    line feed is never parsed. *)
Theorem read_body_chunking :
  forall (trim : string -> string)
         (JSON_parse_result : string -> result string ProtoTypes.EventData)
         (chunks : list string),
    read_body trim JSON_parse_result "" chunks
    = process_lines trim JSON_parse_result
        (removelast (split (join chunks))).
Proof.
  intros trim JSON_parse_result chunks.
  exact (read_body_whole trim JSON_parse_result chunks "" eq_refl).
Qed.

End EventStream.

(** ** More on the parser of the REST provider *)

Module EventsFacts.

Import Events.

(** All the nodes of a raw tree, level by level. *)
Definition all_nodes (t : ProtoTypes.Tree) : list ProtoTypes.Node :=
  flat_map ProtoTypes.nodes (ProtoTypes.levels t).

(** The five event types of this parser. *)
Definition round_types : list SettlementEventType :=
  [Finalization; Finalized; Failed; SigningStart; SigningNoncesGenerated].

(** A raw record with no field set. *)
Definition empty_record (data : ProtoTypes.EventData) : Prop :=
  ProtoTypes.roundFinalization data = None
  /\ ProtoTypes.roundFinalized data = None
  /\ ProtoTypes.roundFailed data = None
  /\ ProtoTypes.roundSigning data = None
  /\ ProtoTypes.roundSigningNoncesGenerated data = None.

(** X6: what [parseSettlementEvent] can do with a raw record.  It returns
    [null] exactly for a record with none of the five fields; it throws
    exactly when the record has a [roundFinalization] whose
    [minRelayFeeRate] is no integer literal (the [SyntaxError] of
    [BigInt]); and an event it returns has one of the five round types. *)
Theorem parseSettlementEvent_outcomes :
  forall data : ProtoTypes.EventData,
    (parseSettlementEvent data = Ok None <-> empty_record data)
    /\ (forall e : Error,
          parseSettlementEvent data = Err e
          <-> exists f, ProtoTypes.roundFinalization data = Some f
                        /\ BigInt (ProtoTypes.minRelayFeeRate f) = Err e)
    /\ (forall event : SettlementEvent,
          parseSettlementEvent data = Ok (Some event) ->
          In (type event) round_types).
Proof.
  intros data. unfold parseSettlementEvent, empty_record, round_types.
  destruct (ProtoTypes.roundFinalization data) as [f|].
  { destruct (BigInt (ProtoTypes.minRelayFeeRate f)) as [n|e0] eqn:Hn;
      cbn [bind].
    - split; [split; [discriminate|intros [H _]; discriminate H]|].
      split.
      + intros e. split; [discriminate|].
        intros (f' & Hf & He). injection Hf as <-. congruence.
      + intros event H. injection H as <-. cbn. auto.
    - split; [split; [discriminate|intros [H _]; discriminate H]|].
      split.
      + intros e. split.
        * intros _. exists f. destruct e0, e. auto.
        * intros _. destruct e0, e. reflexivity.
      + intros event H. discriminate H. }
  destruct (ProtoTypes.roundFinalized data) as [f|].
  { split; [split; [discriminate|intros (_ & H & _); discriminate H]|].
    split.
    - intros e. split; [discriminate|intros (f' & Hf & _); discriminate Hf].
    - intros event H. injection H as <-. cbn. auto. }
  destruct (ProtoTypes.roundFailed data) as [f|].
  { split; [split; [discriminate|intros (_ & _ & H & _); discriminate H]|].
    split.
    - intros e. split; [discriminate|intros (f' & Hf & _); discriminate Hf].
    - intros event H. injection H as <-. cbn. auto. }
  destruct (ProtoTypes.roundSigning data) as [f|].
  { split; [split; [discriminate|intros (_ & _ & _ & H & _); discriminate H]|].
    split.
    - intros e. split; [discriminate|intros (f' & Hf & _); discriminate Hf].
    - intros event H. injection H as <-. cbn. auto. }
  destruct (ProtoTypes.roundSigningNoncesGenerated data) as [f|].
  { split; [split; [discriminate|intros (_ & _ & _ & _ & H); discriminate H]|].
    split.
    - intros e. split; [discriminate|intros (f' & Hf & _); discriminate Hf].
    - intros event H. injection H as <-. cbn. auto 10. }
  split; [split; auto 10|]. split.
  - intros e. split; [discriminate|intros (f' & Hf & _); discriminate Hf].
  - intros event H. discriminate H.
Qed.

(** *** [toVtxoTree] *)

Lemma toVtxoTree_nodes (t : ProtoTypes.Tree) (n : TreeNode) :
  In n (concat (toVtxoTree t))
  <-> exists raw : ProtoTypes.Node,
        In raw (all_nodes t)
        /\ n = {| node_txid := ProtoTypes.txid raw;
                  node_tx := ProtoTypes.tx raw;
                  node_parentTxid := ProtoTypes.parentTxid raw;
                  leaf := negb (existsb (String.eqb (ProtoTypes.txid raw))
                                  (flat_map
                                     (fun node =>
                                        if String.eqb (ProtoTypes.parentTxid node) ""
                                        then []
                                        else [ProtoTypes.parentTxid node])
                                     (all_nodes t))) |}.
Proof.
  unfold toVtxoTree, all_nodes.
  rewrite <- flat_map_concat_map, in_flat_map.
  assert (Hparents :
            flat_map
              (fun level =>
                 flat_map
                   (fun node =>
                      if String.eqb (ProtoTypes.parentTxid node) "" then []
                      else [ProtoTypes.parentTxid node])
                   (ProtoTypes.nodes level))
              (ProtoTypes.levels t)
            = flat_map
                (fun node =>
                   if String.eqb (ProtoTypes.parentTxid node) "" then []
                   else [ProtoTypes.parentTxid node])
                (flat_map ProtoTypes.nodes (ProtoTypes.levels t))).
  { induction (ProtoTypes.levels t) as [|l ls IH]; [reflexivity|].
    cbn [flat_map]. rewrite flat_map_app, IH. reflexivity. }
  rewrite Hparents. split.
  - intros (level & Hlevel & Hn). apply in_map_iff in Hn as (raw & <- & Hraw).
    exists raw. split; [|reflexivity].
    apply in_flat_map. exists level. auto.
  - intros (raw & Hraw & ->). apply in_flat_map in Hraw as (level & Hlevel & Hraw).
    exists level. split; [exact Hlevel|].
    apply in_map_iff. exists raw. auto.
Qed.

(** X7: [toVtxoTree] keeps the levels and the nodes of the tree as they are
    and marks as leaves exactly the nodes that no node of the tree names as
    its parent; a node with an empty txid is always a leaf. *)
Theorem toVtxoTree_leaves :
  forall t : ProtoTypes.Tree,
    map (map node_txid) (toVtxoTree t)
    = map (fun level => map ProtoTypes.txid (ProtoTypes.nodes level))
          (ProtoTypes.levels t)
    /\ forall n : TreeNode,
         In n (concat (toVtxoTree t)) ->
         (leaf n = false
          <-> node_txid n <> ""%string
              /\ exists child : ProtoTypes.Node,
                   In child (all_nodes t)
                   /\ ProtoTypes.parentTxid child = node_txid n).
Proof.
  intros t. split.
  - unfold toVtxoTree. rewrite map_map. apply map_ext. intros level.
    rewrite map_map. reflexivity.
  - intros n Hn. apply toVtxoTree_nodes in Hn as (raw & Hraw & ->).
    cbn [leaf node_txid]. rewrite negb_false_iff, existsb_exists. split.
    + intros (p & Hp & Heq). apply String.eqb_eq in Heq. subst p.
      apply in_flat_map in Hp as (child & Hchild & Hp).
      destruct (String.eqb (ProtoTypes.parentTxid child) "") eqn:Hempty;
        [contradiction|].
      destruct Hp as [Hp|[]]. split.
      * apply String.eqb_neq in Hempty. congruence.
      * exists child. auto.
    + intros (Hne & child & Hchild & Hp).
      exists (ProtoTypes.txid raw). split; [|apply String.eqb_refl].
      apply in_flat_map. exists child. split; [exact Hchild|].
      destruct (String.eqb (ProtoTypes.parentTxid child) "") eqn:Hempty.
      * apply String.eqb_eq in Hempty. congruence.
      * left. exact Hp.
Qed.

End EventsFacts.

(** ** The virtual coins of the REST provider, and their balance *)

Module VirtualCoins.

Record Outpoint := { txid : string; vout : Z }.

(** A vtxo as the server lists it; a flag the record lacks is falsy. *)
Record ServerVtxo := {
  outpoint : Outpoint;
  amount : string;
  roundTxid : option string;
  spent : bool;
  swept : bool;
  isPending : bool;
  expireAt : option string
}.

(** The response of [GET /v1/vtxos/{address}]; either list may be missing. *)
Record ServerResponse := {
  spendableVtxos : option (list ServerVtxo);
  spentVtxos : option (list ServerVtxo)
}.

Record VirtualStatus := {
  state : Balance.VirtualState;
  batchTxID : option string;
  batchExpiry : option Z
}.

Record VirtualCoin := {
  coin_txid : string;
  coin_vout : Z;
  value : Z;
  status : Balance.Status;
  virtualStatus : VirtualStatus
}.

(** JavaScript truthiness of an optional string: [undefined] and the empty
    string are falsy. *)
Definition truthy (s : option string) : bool :=
  match s with
  | Some (String _ _) => true
  | _ => false
  end.

(** [xs || []]. *)
Definition or_empty {A : Type} (xs : option (list A)) : list A :=
  match xs with
  | Some l => l
  | None => []
  end.

Section Provider.

(** [Number(s)] on the amounts and expiries of the server. *)
Variable Number : string -> Z.

(** The conversion of one vtxo in [getVirtualCoins]. *)
Definition toVirtualCoin (vtxo : ServerVtxo) : VirtualCoin :=
  {| coin_txid := txid (outpoint vtxo);
     coin_vout := vout (outpoint vtxo);
     value := Number (amount vtxo);
     status := {| Balance.confirmed := truthy (roundTxid vtxo) |};
     virtualStatus :=
       {| state :=
            if spent vtxo then Balance.spent
            else if swept vtxo then Balance.swept
            else if isPending vtxo then Balance.pending
            else Balance.settled;
          batchTxID := roundTxid vtxo;
          batchExpiry :=
            if truthy (expireAt vtxo)
            then option_map Number (expireAt vtxo)
            else None |} |}.

(** [getVirtualCoins], from the parsed response on. *)
Definition getVirtualCoins (data : ServerResponse) : list VirtualCoin :=
  map toVirtualCoin
      (or_empty (spendableVtxos data) ++ or_empty (spentVtxos data)).

(** The amounts of the listed vtxos that satisfy [p], added up. *)
Fixpoint amount_where (p : ServerVtxo -> bool) (vtxos : list ServerVtxo) : Z :=
  match vtxos with
  | [] => 0
  | vtxo :: rest =>
      (if p vtxo then Number (amount vtxo) else 0) + amount_where p rest
  end.

End Provider.

(** What [Wallet.getBalance] reads of a virtual coin. *)
Definition as_balance_coin (c : VirtualCoin) : Balance.VirtualCoin :=
  {| Balance.coin :=
       {| Balance.txid := coin_txid c; Balance.vout := coin_vout c;
          Balance.value := value c; Balance.status := status c |};
     Balance.virtualStatus :=
       {| Balance.state := state (virtualStatus c) |} |}.

(** Every vtxo the server lists, spendable ones first. *)
Definition listed (data : ServerResponse) : list ServerVtxo :=
  or_empty (spendableVtxos data) ++ or_empty (spentVtxos data).

(** The state [getVirtualCoins] gives a vtxo. *)
Definition state_of (vtxo : ServerVtxo) : Balance.VirtualState :=
  if spent vtxo then Balance.spent
  else if swept vtxo then Balance.swept
  else if isPending vtxo then Balance.pending
  else Balance.settled.

Lemma value_in_state_listed (Number : string -> Z) (s : Balance.VirtualState)
    (vtxos : list ServerVtxo) :
  Balance.value_in_state s
    (map as_balance_coin (map (toVirtualCoin Number) vtxos))
  = amount_where Number (fun v => Balance.state_eqb (state_of v) s) vtxos.
Proof.
  induction vtxos as [|v vtxos IH]; [reflexivity|].
  cbn [map Balance.value_in_state amount_where]. rewrite IH. reflexivity.
Qed.

Lemma amount_where_ext (Number : string -> Z) (p q : ServerVtxo -> bool)
    (vtxos : list ServerVtxo) :
  (forall v, p v = q v) ->
  amount_where Number p vtxos = amount_where Number q vtxos.
Proof.
  intros H. induction vtxos as [|v vtxos IH]; [reflexivity|].
  cbn [amount_where]. now rewrite H, IH.
Qed.

Lemma amount_where_or (Number : string -> Z) (p q : ServerVtxo -> bool)
    (vtxos : list ServerVtxo) :
  (forall v, p v && q v = false) ->
  amount_where Number (fun v => p v || q v) vtxos
  = amount_where Number p vtxos + amount_where Number q vtxos.
Proof.
  intros H. induction vtxos as [|v vtxos IH]; [reflexivity|].
  cbn [amount_where]. rewrite IH. specialize (H v).
  destruct (p v), (q v); cbn in *; try discriminate; lia.
Qed.

(** X8: the balance of the coins of [getVirtualCoins].  A vtxo the server
    flags as spent counts in no field of the balance, in whichever of the
    two lists it comes; an unspent swept one counts in [offchain.swept]
    only; [offchain.total], and with it the wallet total, adds up the
    amounts of exactly the vtxos that are neither spent nor swept. *)
Theorem getBalance_of_server_vtxos :
  forall (Number : string -> Z) (coins : list Balance.Coin)
         (data : ServerResponse),
    let b :=
      Balance.getBalance coins
        (Some (map as_balance_coin (getVirtualCoins Number data))) in
    let live v := negb (spent v) && negb (swept v) in
    Balance.offchain_total (Balance.offchain b)
    = amount_where Number live (listed data)
    /\ Balance.offchain_swept (Balance.offchain b)
       = amount_where Number (fun v => negb (spent v) && swept v) (listed data)
    /\ Balance.offchain_pending (Balance.offchain b)
       = amount_where Number (fun v => live v && isPending v) (listed data)
    /\ Balance.offchain_settled (Balance.offchain b)
       = amount_where Number (fun v => live v && negb (isPending v))
           (listed data)
    /\ Balance.total b
       = Balance.onchain_total (Balance.onchain b)
         + amount_where Number live (listed data).
Proof.
  intros Number coins data. cbn zeta.
  unfold Balance.getBalance, getVirtualCoins. fold (listed data).
  cbn [Balance.offchain Balance.offchain_total Balance.offchain_swept
       Balance.offchain_pending Balance.offchain_settled Balance.total
       Balance.onchain Balance.onchain_total].
  rewrite !Balance.reduce_filter_state, !value_in_state_listed.
  assert (Hsettled :
            amount_where Number
              (fun v => Balance.state_eqb (state_of v) Balance.settled)
              (listed data)
            = amount_where Number
                (fun v => negb (spent v) && negb (swept v) && negb (isPending v))
                (listed data)).
  { apply amount_where_ext. intros v. unfold state_of.
    destruct (spent v), (swept v), (isPending v); reflexivity. }
  assert (Hpending :
            amount_where Number
              (fun v => Balance.state_eqb (state_of v) Balance.pending)
              (listed data)
            = amount_where Number
                (fun v => negb (spent v) && negb (swept v) && isPending v)
                (listed data)).
  { apply amount_where_ext. intros v. unfold state_of.
    destruct (spent v), (swept v), (isPending v); reflexivity. }
  assert (Hswept :
            amount_where Number
              (fun v => Balance.state_eqb (state_of v) Balance.swept)
              (listed data)
            = amount_where Number (fun v => negb (spent v) && swept v)
                (listed data)).
  { apply amount_where_ext. intros v. unfold state_of.
    destruct (spent v), (swept v), (isPending v); reflexivity. }
  assert (Hlive :
            amount_where Number (fun v => negb (spent v) && negb (swept v))
              (listed data)
            = amount_where Number
                (fun v => negb (spent v) && negb (swept v) && negb (isPending v))
                (listed data)
              + amount_where Number
                  (fun v => negb (spent v) && negb (swept v) && isPending v)
                  (listed data)).
  { rewrite <- amount_where_or.
    - apply amount_where_ext. intros v.
      destruct (spent v), (swept v), (isPending v); reflexivity.
    - intros v. destruct (spent v), (swept v), (isPending v); reflexivity. }
  rewrite Hsettled, Hpending, Hswept, Hlive.
  repeat split; lia.
Qed.

End VirtualCoins.

(** ** More on the wallet balance *)

Module BalanceFacts.

Import Balance.

(** The values of a list of onchain coins, added up. *)
Fixpoint coins_value (coins : list Coin) : Z :=
  match coins with
  | [] => 0
  | c :: rest => value c + coins_value rest
  end.

(** The values of a list of virtual coins, added up. *)
Fixpoint vtxos_value (vtxos : list VirtualCoin) : Z :=
  match vtxos with
  | [] => 0
  | c :: rest => value c + vtxos_value rest
  end.

Lemma reduce_confirmed_split (coins : list Coin) :
  reduce_value value (filter (fun c => confirmed (status c)) coins)
  + reduce_value value (filter (fun c => negb (confirmed (status c))) coins)
  = coins_value coins.
Proof.
  induction coins as [|c coins IH]; [reflexivity|].
  cbn [filter coins_value]. destruct (confirmed (status c)); cbn [negb];
    rewrite reduce_value_cons; lia.
Qed.

Lemma value_in_states_total (vtxos : list VirtualCoin) :
  value_in_state settled vtxos + value_in_state pending vtxos
  + value_in_state swept vtxos + value_in_state spent vtxos
  = vtxos_value vtxos.
Proof.
  induction vtxos as [|c vtxos IH]; [reflexivity|].
  cbn [value_in_state vtxos_value].
  destruct (state (virtualStatus c)); cbn [state_eqb]; lia.
Qed.

(** X9: [getBalance] counts every onchain coin exactly once:
    [onchain.total] is the sum of the values of all the coins, confirmed or
    not.  Of the virtual coins, everything that is not in
    [offchain.total] or [offchain.swept] is spent; and without an Ark
    provider the wallet total is the onchain total. *)
Theorem getBalance_accounts_for_every_coin :
  forall (coins : list Coin) (vtxos : list VirtualCoin),
    let b := getBalance coins (Some vtxos) in
    let b0 := getBalance coins None in
    onchain_total (onchain b) = coins_value coins
    /\ onchain_confirmed (onchain b) + onchain_unconfirmed (onchain b)
       = coins_value coins
    /\ offchain_total (offchain b) + offchain_swept (offchain b)
       + value_in_state spent vtxos
       = vtxos_value vtxos
    /\ total b0 = coins_value coins
    /\ offchain b0
       = {| offchain_swept := 0; offchain_settled := 0;
            offchain_pending := 0; offchain_total := 0 |}.
Proof.
  intros coins vtxos. cbn zeta. unfold getBalance.
  cbn [onchain offchain total onchain_total onchain_confirmed
       onchain_unconfirmed offchain_total offchain_swept].
  rewrite !reduce_filter_state.
  pose proof (reduce_confirmed_split coins) as Hc.
  pose proof (value_in_states_total vtxos) as Hv.
  repeat split; try reflexivity; lia.
Qed.

End BalanceFacts.

(** ** More on the event loop of [Wallet.settle] *)

Module SettleFacts.

Import Events Settle.

(** The stream as the loop sees it when the timer never fires. *)
Definition remove_ticks (stream : list StreamItem) : list StreamItem :=
  filter (fun item => match item with Tick _ => false | _ => true end) stream.

(** Two states of the loop that differ at most in the ping timer. *)
Definition same_round {Session : Type} (a b : State Session) : Prop :=
  step a = step b
  /\ signingSession a = signingSession b
  /\ handled a = handled b
  /\ notified a = notified b.

(** Two ends of an iteration that differ at most in the ping timer. *)
Definition same_flow {Session : Type} (f g : Flow Session) : Prop :=
  match f, g with
  | Continue _ a, Continue _ b => same_round a b
  | Return _ x a, Return _ y b => x = y /\ same_round a b
  | Throw _ x a, Throw _ y b => x = y /\ same_round a b
  | _, _ => False
  end.

Section EngineFacts.

Variable Session : Type.
Variable hSigning : SettlementEvent -> result string Session.
Variable hNonces : SettlementEvent -> Session -> result string unit.
Variable hFinalization : SettlementEvent -> result string unit.
Variable eventCallback : bool.

Local Abbreviation on_event :=
  (on_event Session hSigning hNonces hFinalization eventCallback).
Local Abbreviation listen :=
  (listen Session hSigning hNonces hFinalization eventCallback).
Local Abbreviation settle :=
  (settle Session hSigning hNonces hFinalization eventCallback).

(** What the handler of an accepted event answers, the guard on the
    signing session included; [None] for an event that has no handler. *)
Definition handler_outcome (e : SettlementEvent) (session : option Session)
  : option (result string unit) :=
  match e with
  | SigningStartEvent _ _ _ _ =>
      Some (match hSigning e with Ok _ => Ok tt | Err m => Err m end)
  | SigningNoncesGeneratedEvent _ _ =>
      Some (match session with
            | Some s => hNonces e s
            | None => Err "Signing session not found"%string
            end)
  | FinalizationEvent _ _ _ _ _ => Some (hFinalization e)
  | _ => None
  end.

Lemma same_round_refl (a : State Session) : same_round a a.
Proof. repeat split. Qed.

Lemma tick_same_round (a b : State Session) (pingOk : bool) :
  same_round a b -> same_round (tick Session a pingOk) b.
Proof.
  unfold same_round, tick, stopPing.
  destruct a as [iv pr stp ss hd pg nt]. cbn.
  destruct iv, pingOk, pr; cbn; auto.
Qed.

Lemma on_event_same_flow (a b : State Session) (e : SettlementEvent) :
  same_round a b -> same_flow (on_event a e) (on_event b e).
Proof.
  unfold same_round, same_flow, Settle.on_event, notify, stopPing, entering,
    advance, step_is.
  destruct a as [iv1 pr1 stp ss hd pg1 nt], b as [iv2 pr2 stp2 ss2 hd2 pg2 nt2].
  cbn [step signingSession handled notified interval pingRunning pings].
  intros (<- & <- & <- & <-).
  destruct eventCallback, e, stp as [[]|], pr1, pr2; cbn;
    repeat match goal with
           | |- context [match ?h with Ok _ => _ | Err _ => _ end] =>
               destruct h; cbn
           | |- context [match ?x with Some _ => _ | None => _ end] =>
               destruct x; cbn
           end;
    unfold same_round; cbn; auto 10.
Qed.

Lemma listen_without_ticks (stream : list StreamItem) :
  forall a b : State Session,
    same_round a b ->
    fst (listen a stream) = fst (listen b (remove_ticks stream))
    /\ same_round (snd (listen a stream))
                  (snd (listen b (remove_ticks stream))).
Proof.
  induction stream as [|item stream IH]; intros a b Hab.
  - cbn. auto.
  - destruct item as [e|message|pingOk];
      cbn [remove_ticks filter Settle.listen]; fold (remove_ticks stream).
    + pose proof (on_event_same_flow a b e Hab) as Hf.
      destruct (on_event a e) as [a'|x a'|x a'],
               (on_event b e) as [b'|y b'|y b']; cbn [same_flow] in Hf;
        try contradiction.
      * now apply IH.
      * destruct Hf as [<- Hf]. cbn. auto.
      * destruct Hf as [<- Hf]. cbn. auto.
    + cbn. auto.
    + apply IH. now apply tick_same_round.
Qed.

(** The ping fields through one iteration: no ping is sent, and a cleared
    timer stays cleared. *)
Lemma on_event_ping_fields (st : State Session) (e : SettlementEvent) :
  match on_event st e with
  | Continue _ st' | Return _ _ st' | Throw _ _ st' =>
      pings st' = pings st /\ (interval st = false -> interval st' = false)
  end.
Proof.
  unfold Settle.on_event, notify, stopPing, entering, advance, step_is.
  destruct st as [iv pr stp ss hd pg nt].
  cbn [step signingSession handled notified interval pingRunning pings].
  destruct eventCallback, e, stp as [[]|], pr; cbn;
    repeat match goal with
           | |- context [match ?h with Ok _ => _ | Err _ => _ end] =>
               destruct h; cbn
           | |- context [match ?x with Some _ => _ | None => _ end] =>
               destruct x; cbn
           end;
    auto.
Qed.

Lemma listen_no_ping_once_cleared (stream : list StreamItem) :
  forall st : State Session,
    interval st = false ->
    pings (snd (listen st stream)) = pings st
    /\ interval (snd (listen st stream)) = false.
Proof.
  induction stream as [|item stream IH]; intros st Hiv.
  - cbn. auto.
  - destruct item as [e|message|pingOk]; cbn [Settle.listen].
    + pose proof (on_event_ping_fields st e) as Hf.
      destruct (on_event st e) as [st'|x st'|x st']; destruct Hf as [Hp Hi].
      * destruct (IH st' (Hi Hiv)) as [Hp' Hi']. rewrite Hp', Hp. auto.
      * cbn. auto.
      * cbn. auto.
    + cbn. auto.
    + unfold tick. rewrite Hiv. now apply IH.
Qed.

(** An accepted event runs its handler, the ping stopped first. *)
Lemma on_event_accepted (st : State Session) (e : SettlementEvent)
    (r : result string unit) :
  In (type e) handler_order ->
  step st = preceding (type e) ->
  interval st = pingRunning st ->
  handler_outcome e (signingSession st) = Some r ->
  match r with
  | Ok _ =>
      exists st', on_event st e = Continue Session st'
                  /\ step st' = Some (type e)
                  /\ handled st' = (handled st ++ [type e])%list
                  /\ interval st' = false /\ pingRunning st' = false
  | Err message =>
      exists st', on_event st e = Throw Session message st'
                  /\ interval st' = false /\ pingRunning st' = false
  end.
Proof.
  unfold handler_order, handler_outcome, Settle.on_event, notify, stopPing,
    entering, advance, step_is.
  destruct st as [iv pr stp ss hd pg nt].
  cbn [step signingSession handled notified interval pingRunning pings].
  intros Hkind Hstep Hiv Hout. subst iv stp.
  destruct e; cbn [type preceding In] in *;
    try (exfalso; intuition discriminate);
    injection Hout as <-;
    destruct eventCallback, pr; cbn;
    repeat match goal with
           | |- context [hSigning ?x] => destruct (hSigning x); cbn
           | |- context [hNonces ?x ?y] => destruct (hNonces x y); cbn
           | |- context [hFinalization ?x] => destruct (hFinalization x); cbn
           | |- context [match ?x with Some _ => _ | None => _ end] =>
               destruct x; cbn
           end;
    eexists; repeat split; reflexivity.
Qed.

End EngineFacts.

(** X10: the ping timer never decides how [settle] ends.  Timer ticks, and
    pings that are rejected, change neither the outcome nor the handlers
    that run nor what the callback sees: a failing ping stops the ping loop
    and nothing else. *)
Theorem settle_outcome_ignores_ping :
  forall (Session : Type)
         (hSigning : SettlementEvent -> result string Session)
         (hNonces : SettlementEvent -> Session -> result string unit)
         (hFinalization : SettlementEvent -> result string unit)
         (eventCallback : bool)
         (getInfo : result string unit) (stream : list StreamItem),
    let with_ticks :=
      settle Session hSigning hNonces hFinalization eventCallback
        getInfo stream in
    let without :=
      settle Session hSigning hNonces hFinalization eventCallback
        getInfo (remove_ticks stream) in
    fst with_ticks = fst without
    /\ handled (snd with_ticks) = handled (snd without)
    /\ notified (snd with_ticks) = notified (snd without)
    /\ step (snd with_ticks) = step (snd without).
Proof.
  intros Session hS hN hF cb getInfo stream. cbn zeta. unfold settle.
  destruct getInfo as [[]|message]; [|cbn; auto].
  destruct (listen_without_ticks Session hS hN hF cb stream started started
              (same_round_refl Session started))
    as (Hout & Hstep & _ & Hh & Hn).
  auto.
Qed.

(** X11: the ping loop stops for good.  From a state whose timer is
    cleared no ping is sent any more, whatever the stream brings, and the
    timer is never armed again; and after a rejected ping no further ping
    is sent. *)
Theorem ping_stops_for_good :
  forall (Session : Type)
         (hSigning : SettlementEvent -> result string Session)
         (hNonces : SettlementEvent -> Session -> result string unit)
         (hFinalization : SettlementEvent -> result string unit)
         (eventCallback : bool)
         (cleared st : State Session) (rest : list StreamItem),
    interval cleared = false ->
    interval st = pingRunning st ->
    let listen :=
      listen Session hSigning hNonces hFinalization eventCallback in
    pings (snd (listen cleared rest)) = pings cleared
    /\ interval (snd (listen cleared rest)) = false
    /\ pings (snd (listen st (Tick false :: rest)))
       = (if interval st then S (pings st) else pings st).
Proof.
  intros Session hS hN hF cb cleared st rest Hcleared Hiv. cbn zeta.
  destruct (listen_no_ping_once_cleared Session hS hN hF cb rest cleared Hcleared)
    as [Hp Hi].
  split; [exact Hp|]. split; [exact Hi|].
  cbn [listen]. unfold tick, stopPing.
  destruct st as [iv pr stp ss hd pg nt]. cbn in Hiv. subst pr. cbn.
  destruct iv.
  - now destruct (listen_no_ping_once_cleared Session hS hN hF cb rest
                    {| interval := false; pingRunning := false; step := stp;
                       signingSession := ss; handled := hd; pings := S pg;
                       notified := nt |} eq_refl).
  - now destruct (listen_no_ping_once_cleared Session hS hN hF cb rest
                    {| interval := false; pingRunning := false; step := stp;
                       signingSession := ss; handled := hd; pings := pg;
                       notified := nt |} eq_refl).
Qed.

Lemma ping_stops_for_good_witness :
  interval after_signing = false
  /\ interval (@started unit) = pingRunning (@started unit)
  /\ pings (snd (listen unit signing_ok nonces_ok finalization_ok false
                   after_signing [Tick true; Tick false; Yield ev_nonces]))
     = pings after_signing
  /\ interval (snd (listen unit signing_ok nonces_ok finalization_ok false
                      after_signing [Tick true; Tick false; Yield ev_nonces]))
     = false
  /\ pings (snd (listen unit signing_ok nonces_ok finalization_ok false
                   started
                   (Tick false :: [Tick true; Tick false; Yield ev_nonces])))
     = (if interval (@started unit) then S (pings (@started unit))
        else pings (@started unit)).
Proof.
  split; [reflexivity|]. split; [reflexivity|].
  apply (ping_stops_for_good unit signing_ok nonces_ok finalization_ok false
           after_signing started [Tick true; Tick false; Yield ev_nonces]).
  - reflexivity.
  - reflexivity.
Defined.

(** X12: an event accepted in its turn runs its handler with the ping
    stopped.  When the handler succeeds the step becomes the type of the
    event; when it throws (a validation or provider error, or the missing
    signing session), [settle] rejects with that very error and the ping
    interval is cleared. *)
Theorem accepted_event_runs_its_handler :
  forall (Session : Type)
         (hSigning : SettlementEvent -> result string Session)
         (hNonces : SettlementEvent -> Session -> result string unit)
         (hFinalization : SettlementEvent -> result string unit)
         (eventCallback : bool)
         (st : State Session) (e : SettlementEvent)
         (r : result string unit) (rest : list StreamItem),
    In (type e) handler_order ->
    step st = preceding (type e) ->
    interval st = pingRunning st ->
    handler_outcome Session hSigning hNonces hFinalization e
      (signingSession st) = Some r ->
    let on_event :=
      on_event Session hSigning hNonces hFinalization eventCallback in
    let listen :=
      listen Session hSigning hNonces hFinalization eventCallback in
    match r with
    | Ok _ =>
        exists st' : State Session,
          on_event st e = Continue Session st'
          /\ step st' = Some (type e)
          /\ handled st' = (handled st ++ [type e])%list
          /\ ping_cancelled (Rejected "", st')
    | Err message =>
        fst (listen st (Yield e :: rest)) = Rejected message
        /\ ping_cancelled (listen st (Yield e :: rest))
    end.
Proof.
  intros Session hS hN hF cb st e r rest Hkind Hstep Hiv Hout. cbn zeta.
  pose proof (on_event_accepted Session hS hN hF cb st e r Hkind Hstep Hiv)
    as H.
  unfold ping_cancelled. destruct r as [u|message].
  - destruct H as (st' & Hev & Hs & Hh & Hi & Hp); [exact Hout|].
    exists st'. cbn [snd]. auto 10.
  - destruct H as (st' & Hev & Hi & Hp); [exact Hout|].
    cbn [listen]. rewrite Hev. cbn [fst snd]. auto.
Qed.

(** A signing handler that finds the tree invalid. *)
Definition signing_fails (_ : SettlementEvent) : result string unit :=
  Err "invalid vtxo tree"%string.

Lemma accepted_event_runs_its_handler_witness :
  In (type ev_signing) handler_order
  /\ step (@started unit) = preceding (type ev_signing)
  /\ interval (@started unit) = pingRunning (@started unit)
  /\ handler_outcome unit signing_fails nonces_ok finalization_ok ev_signing
       (signingSession (@started unit))
     = Some (Err "invalid vtxo tree"%string)
  /\ fst (listen unit signing_fails nonces_ok finalization_ok false started
            (Yield ev_signing :: [Yield ev_nonces]))
     = Rejected "invalid vtxo tree"
  /\ ping_cancelled
       (listen unit signing_fails nonces_ok finalization_ok false started
          (Yield ev_signing :: [Yield ev_nonces])).
Proof.
  split; [now left|]. split; [reflexivity|]. split; [reflexivity|].
  split; [reflexivity|].
  apply (accepted_event_runs_its_handler unit signing_fails nonces_ok
           finalization_ok false started ev_signing
           (Err "invalid vtxo tree"%string) [Yield ev_nonces]).
  - now left.
  - reflexivity.
  - reflexivity.
  - reflexivity.
Defined.

(** X13: a round the server scripts in order settles.  When the stream
    brings, timer ticks aside, a SigningStart, a SigningNoncesGenerated, a
    Finalization and a Finalized event one after the other and the three
    handlers succeed, [settle] resolves with the [roundTxid] of the
    Finalized event, the ping interval cleared, whatever follows in the
    stream. *)
Theorem settle_resolves_scripted_round :
  forall (Session : Type)
         (hSigning : SettlementEvent -> result string Session)
         (hNonces : SettlementEvent -> Session -> result string unit)
         (hFinalization : SettlementEvent -> result string unit)
         (eventCallback : bool)
         (signing nonces finalization : SettlementEvent)
         (id roundTxid : string) (session : Session)
         (stream rest : list StreamItem),
    type signing = SigningStart ->
    type nonces = SigningNoncesGenerated ->
    type finalization = Finalization ->
    hSigning signing = Ok session ->
    hNonces nonces session = Ok tt ->
    hFinalization finalization = Ok tt ->
    remove_ticks stream
    = Yield signing :: Yield nonces :: Yield finalization
      :: Yield (FinalizedEvent id roundTxid) :: rest ->
    let exit :=
      settle Session hSigning hNonces hFinalization eventCallback
        (Ok tt) stream in
    fst exit = Resolved roundTxid
    /\ ping_cancelled exit
    /\ handled (snd exit) = handler_order.
Proof.
  intros Session hS hN hF cb signing nonces finalization id roundTxid session
         stream rest Ht1 Ht2 Ht3 HS HN HF Hstream. cbn zeta.
  assert (Hres : fst (settle Session hS hN hF cb (Ok tt) stream)
                 = Resolved roundTxid).
  { unfold settle.
    destruct (listen_without_ticks Session hS hN hF cb stream started started
                (same_round_refl Session started)) as [-> _].
    rewrite Hstream.
    destruct signing; try discriminate Ht1.
    destruct nonces; try discriminate Ht2.
    destruct finalization; try discriminate Ht3.
    destruct cb; cbn; rewrite HS; cbn; rewrite HN; cbn; rewrite HF;
      reflexivity. }
  split; [exact Hres|].
  destruct (settle_exit_ok Session hS hN hF cb (Ok tt) stream)
    as (_ & _ & _ & Hr).
  destruct (Hr roundTxid Hres) as (Hall & Hping & _). auto.
Qed.

Lemma settle_resolves_scripted_round_witness :
  type ev_signing = SigningStart
  /\ type ev_nonces = SigningNoncesGenerated
  /\ type ev_finalization = Finalization
  /\ signing_ok ev_signing = Ok tt
  /\ nonces_ok ev_nonces tt = Ok tt
  /\ finalization_ok ev_finalization = Ok tt
  /\ remove_ticks
       [Tick true; Yield ev_signing; Tick false; Yield ev_nonces;
        Yield ev_finalization; Yield ev_finalized; Yield ev_failed]
     = Yield ev_signing :: Yield ev_nonces :: Yield ev_finalization
       :: Yield (FinalizedEvent "round-1" "aaaa") :: [Yield ev_failed]
  /\ fst (settle unit signing_ok nonces_ok finalization_ok false (Ok tt)
            [Tick true; Yield ev_signing; Tick false; Yield ev_nonces;
             Yield ev_finalization; Yield ev_finalized; Yield ev_failed])
     = Resolved "aaaa"
  /\ ping_cancelled
       (settle unit signing_ok nonces_ok finalization_ok false (Ok tt)
          [Tick true; Yield ev_signing; Tick false; Yield ev_nonces;
           Yield ev_finalization; Yield ev_finalized; Yield ev_failed])
  /\ handled
       (snd (settle unit signing_ok nonces_ok finalization_ok false (Ok tt)
               [Tick true; Yield ev_signing; Tick false; Yield ev_nonces;
                Yield ev_finalization; Yield ev_finalized; Yield ev_failed]))
     = handler_order.
Proof.
  do 7 (split; [reflexivity|]).
  apply (settle_resolves_scripted_round unit signing_ok nonces_ok
           finalization_ok false ev_signing ev_nonces ev_finalization
           "round-1" "aaaa" tt
           [Tick true; Yield ev_signing; Tick false; Yield ev_nonces;
            Yield ev_finalization; Yield ev_finalized; Yield ev_failed]
           [Yield ev_failed]); reflexivity.
Defined.

End SettleFacts.

(** ** The default parameters of [Wallet.settle]

    Called without parameters, [settle] takes every boarding utxo and every
    vtxo of the wallet as inputs and sends everything to the offchain
    address. *)

Module SettleParams.

Record Outpoint := { txid : string; vout : Z }.

(** A boarding utxo or a vtxo with its spending scripts, as
    [getBoardingUtxos] and [getVtxos] return them. *)
Record SpendableCoin := {
  outpoint : Outpoint;
  value : Z;
  forfeitScript : string;
  tapscripts : list string
}.

(** [string | SpendableVtxo]: an input is a note or a coin. *)
Inductive Input :=
| Note (note : string)
| Spendable (coin : SpendableCoin).

Record Output := { address : string; amount : Z }.

Record SettleParams := { inputs : list Input; outputs : list Output }.

(** The branch [if (!params)] of [settle]: [offchainAddress] is the address
    of the wallet, if configured; the two lists are what
    [getBoardingUtxos] and [getVtxos] resolve to. *)
Definition default_params (offchainAddress : option string)
    (boardingUtxos vtxos : list SpendableCoin) : result string SettleParams :=
  match offchainAddress with
  | None => Err "Offchain address not configured"%string
  | Some address =>
      let amount := 0 in
      let amount := amount + Balance.reduce_value value boardingUtxos in
      let amount := amount + Balance.reduce_value value vtxos in
      let inputs := boardingUtxos ++ vtxos in
      if (length inputs =? 0)%nat then Err "No inputs found"%string
      else Ok {| inputs := map Spendable inputs;
                 outputs := [{| address := address; amount := amount |}] |}
  end.

(** What the inputs are worth; a note has no value here. *)
Fixpoint inputs_value (ins : list Input) : Z :=
  match ins with
  | [] => 0
  | Note _ :: rest => inputs_value rest
  | Spendable c :: rest => value c + inputs_value rest
  end.

(** What the outputs pay. *)
Fixpoint outputs_amount (outs : list Output) : Z :=
  match outs with
  | [] => 0
  | o :: rest => amount o + outputs_amount rest
  end.

Lemma reduce_value_spendable (coins : list SpendableCoin) :
  Balance.reduce_value value coins = inputs_value (map Spendable coins).
Proof.
  induction coins as [|c coins IH]; [reflexivity|].
  rewrite Balance.reduce_value_cons, IH. reflexivity.
Qed.

Lemma inputs_value_app (a b : list Input) :
  inputs_value (a ++ b) = inputs_value a + inputs_value b.
Proof.
  induction a as [|[n|c] a IH]; cbn [app inputs_value]; lia.
Qed.



End SettleParams.

(** ** [ServiceWorkerWallet.settle]

    The wallet proxy posts a SETTLE request to its service worker and
    listens to every message of the worker until one ends the request. *)

Module ServiceWorker.

Import Events.

(** A message of the worker ([Response.Base] and the fields the handler
    reads off its variants; a field the message lacks is [None]). *)
Record Response := {
  success : bool;
  type : string;
  message : option string;
  event : option SettlementEvent;
  txid : option string
}.

(** How the promise of [settle] ends; [resolve(response.txid)] passes on
    what the message holds. *)
Inductive Outcome :=
| Resolved (txid : option string)
| Rejected (message : string).

(** The listener, the promise (pending while [None]) and what the callback
    has been given. *)
Record Handler := {
  listening : bool;
  promise : option Outcome;
  forwarded : list (option SettlementEvent)
}.

(** A promise is settled once; later calls of [resolve] or [reject] do
    nothing. *)
Definition settle_once (p : option Outcome) (o : Outcome) : option Outcome :=
  match p with
  | None => Some o
  | Some _ => p
  end.

(** [new Error(m).message]: the empty string for [undefined]. *)
Definition error_message (m : option string) : string :=
  match m with
  | Some s => s
  | None => ""%string
  end.

Section Proxy.

(** Whether [settle] was given a callback. *)
Variable callback : bool.

(** [messageHandler]. *)
Definition messageHandler (h : Handler) (response : Response) : Handler :=
  if negb (success response) then
    {| listening := false;
       promise := settle_once (promise h)
                    (Rejected (error_message (message response)));
       forwarded := forwarded h |}
  else if String.eqb (type response) "SETTLE_EVENT" then
    {| listening := listening h;
       promise := promise h;
       forwarded := if callback then forwarded h ++ [event response]
                    else forwarded h |}
  else if String.eqb (type response) "SETTLE_SUCCESS" then
    {| listening := false;
       promise := settle_once (promise h) (Resolved (txid response));
       forwarded := forwarded h |}
  else h.

(** A message of the worker reaches the handler while it is registered. *)
Definition deliver (h : Handler) (response : Response) : Handler :=
  if listening h then messageHandler h response else h.

(** The executor of the promise: the listener is added, then the request
    posted, or the promise rejected when there is no worker. *)
Definition start (serviceWorker : bool) : Handler :=
  {| listening := true;
     promise := if serviceWorker then None
                else Some (Rejected "Service worker not initialized");
     forwarded := [] |}.

(** [settle], followed through the messages the worker sends. *)
Definition settle (serviceWorker : bool) (messages : list Response) : Handler :=
  fold_left deliver messages (start serviceWorker).

End Proxy.

(** A message that ends the request. *)
Definition terminal (r : Response) : bool :=
  negb (success r) || String.eqb (type r) "SETTLE_SUCCESS".

(** What such a message makes of the promise. *)
Definition verdict (r : Response) : Outcome :=
  if success r then Resolved (txid r)
  else Rejected (error_message (message r)).

(** The events of the SETTLE_EVENT messages of a list. *)
Definition settle_events (rs : list Response) : list (option SettlementEvent) :=
  map event
      (filter (fun r => success r && String.eqb (type r) "SETTLE_EVENT") rs).

Lemma fold_deliver_deaf (callback : bool) (rs : list Response) (h : Handler) :
  listening h = false -> fold_left (deliver callback) rs h = h.
Proof.
  intros Hl. induction rs as [|r rs IH]; [reflexivity|].
  cbn [fold_left]. unfold deliver at 2. rewrite Hl. exact IH.
Qed.

Lemma fold_deliver_pending (callback : bool) (rs : list Response) :
  forall h : Handler,
    listening h = true ->
    Forall (fun r => terminal r = false) rs ->
    fold_left (deliver callback) rs h
    = {| listening := true;
         promise := promise h;
         forwarded := if callback then forwarded h ++ settle_events rs
                      else forwarded h |}.
Proof.
  induction rs as [|r rs IH]; intros h Hl Hrs.
  - cbn. destruct h as [l p f]. cbn in *. subst l.
    destruct callback; [now rewrite app_nil_r|reflexivity].
  - apply Forall_cons_iff in Hrs as [Hr Hrs]. unfold terminal in Hr.
    apply orb_false_iff in Hr as [Hs Ht]. apply negb_false_iff in Hs.
    cbn [fold_left]. unfold deliver at 2. rewrite Hl.
    unfold messageHandler. rewrite Hs, Ht. cbn [negb].
    unfold settle_events. cbn [filter]. rewrite Hs. cbn [andb].
    destruct (String.eqb (type r) "SETTLE_EVENT") eqn:He.
    + rewrite IH by (try assumption; reflexivity). cbn [promise forwarded map].
      destruct callback; [|reflexivity].
      unfold settle_events. now rewrite <- app_assoc.
    + now rewrite IH.
Qed.

(** How the promise stands while no message has ended the request:
    pending when the request was posted, rejected at once when there is no
    worker to post it to. *)
Definition before_verdict (serviceWorker : bool) : option Outcome :=
  if serviceWorker then None
  else Some (Rejected "Service worker not initialized").

(** X15: the listener of the proxy's [settle] ends with the first message
    of the worker that is unsuccessful or a SETTLE_SUCCESS, whatever request
    that message answers.  Until then every SETTLE_EVENT is handed to the
    callback, in order; afterwards the listener is gone and nothing more is
    forwarded.  With a worker, the promise is pending until that message
    and then rejects with the message of the former, verbatim, or resolves
    with the txid of the latter.  Without a worker the promise is rejected
    at once with "Service worker not initialized", which no later message
    changes, but the listener is registered all the same: it stays, and
    goes on forwarding events, until such a message arrives. *)
Theorem proxy_settle_ends_at_first_terminal_message :
  forall (callback serviceWorker : bool) (before after : list Response)
         (m : Response),
    Forall (fun r => terminal r = false) before ->
    terminal m = true ->
    let h := settle callback serviceWorker (before ++ m :: after) in
    let waiting := settle callback serviceWorker before in
    promise h
    = (if serviceWorker then Some (verdict m)
       else Some (Rejected "Service worker not initialized"))
    /\ listening h = false
    /\ forwarded h = (if callback then settle_events before else [])
    /\ promise waiting = before_verdict serviceWorker
    /\ listening waiting = true
    /\ forwarded waiting = (if callback then settle_events before else []).
Proof.
  intros callback serviceWorker before after m Hbefore Hm. cbn zeta.
  unfold settle. rewrite fold_left_app.
  rewrite (fold_deliver_pending callback before (start serviceWorker)
             eq_refl Hbefore).
  cbn [fold_left start promise forwarded listening app].
  fold (before_verdict serviceWorker).
  set (h0 := {| listening := true; promise := before_verdict serviceWorker;
                forwarded := if callback then settle_events before else [] |}).
  change (deliver callback h0 m) with (messageHandler callback h0 m).
  assert (Hend : listening (messageHandler callback h0 m) = false
                 /\ promise (messageHandler callback h0 m)
                    = settle_once (before_verdict serviceWorker) (verdict m)
                 /\ forwarded (messageHandler callback h0 m) = forwarded h0).
  { unfold messageHandler, verdict, terminal in *.
    destruct (success m); cbn [negb orb] in *.
    - rewrite Hm.
      destruct (String.eqb (type m) "SETTLE_EVENT") eqn:He.
      + apply String.eqb_eq in He. rewrite He in Hm. discriminate Hm.
      + cbn. auto.
    - cbn. auto. }
  destruct Hend as (Hl & Hp & Hf).
  rewrite (fold_deliver_deaf callback after _ Hl).
  rewrite Hl, Hp, Hf. subst h0. cbn [forwarded].
  destruct serviceWorker, callback; cbn; auto 10.
Qed.

(** A worker that reports two events, answers another request, settles,
    and goes on talking. *)
Definition sample_before : list Response :=
  [{| success := true; type := "SETTLE_EVENT"; message := None;
      event := Some (FailedEvent "r" "x"); txid := None |};
   {| success := true; type := "BALANCE"; message := None;
      event := None; txid := None |};
   {| success := true; type := "SETTLE_EVENT"; message := None;
      event := Some (FinalizedEvent "r" "aaaa"); txid := None |}].

Definition sample_success : Response :=
  {| success := true; type := "SETTLE_SUCCESS"; message := None;
     event := None; txid := Some "aaaa"%string |}.

Lemma proxy_settle_ends_at_first_terminal_message_witness :
  Forall (fun r => terminal r = false) sample_before
  /\ terminal sample_success = true
  /\ promise (settle true true (sample_before ++ sample_success :: sample_before))
     = (if true then Some (verdict sample_success)
        else Some (Rejected "Service worker not initialized"))
  /\ listening
       (settle true true (sample_before ++ sample_success :: sample_before))
     = false
  /\ forwarded
       (settle true true (sample_before ++ sample_success :: sample_before))
     = (if true then settle_events sample_before else [])
  /\ promise (settle true true sample_before) = before_verdict true
  /\ listening (settle true true sample_before) = true
  /\ forwarded (settle true true sample_before)
     = (if true then settle_events sample_before else []).
Proof.
  assert (Hb : Forall (fun r => terminal r = false) sample_before)
    by (repeat constructor).
  split; [exact Hb|]. split; [reflexivity|].
  exact (proxy_settle_ends_at_first_terminal_message true true sample_before
           sample_before sample_success Hb eq_refl).
Defined.

(** Without a worker the request is rejected before any message, and the
    events of the worker still reach the callback. *)
Example proxy_settle_without_worker :
  settle true false sample_before
  = {| listening := true;
       promise := Some (Rejected "Service worker not initialized");
       forwarded := [Some (FailedEvent "r" "x");
                     Some (FinalizedEvent "r" "aaaa")] |}.
Proof. reflexivity. Qed.

End ServiceWorker.

(** ** The later REST provider: nonce matrices and its event parser *)

Module RestProvider.

Import Matrix.

(** [Nonces] of the signing session: a public nonce of 66 bytes. *)
Record Nonces := { pubNonce : list byte }.

(** [TreeNonces]: a matrix of nonces, [null] where a node has none. *)
Definition TreeNonces := list (list (option Nonces)).

(** What [hex.decode] throws. *)
Inductive HexError := InvalidHex (input : string).

(** The bytes a [Uint8Array] shows. *)
Definition bytes_of (a : Uint8Array) : list byte :=
  firstn (byteLength a) (skipn (byteOffset a) (buffer a)).

(** [nonce ? nonce.pubNonce : new Uint8Array()]. *)
Definition nonce_cell (nonce : option Nonces) : list byte :=
  match nonce with
  | Some n => pubNonce n
  | None => []
  end.

(** What reading the matrix of an event can throw. *)
Inductive Error :=
| BigIntError (e : Events.Error)
| HexDecodeError (e : HexError)
| MatrixError (e : Matrix.Error).

Definition lift {E A : Type} (wrap : E -> Error) (r : result E A)
  : result Error A :=
  match r with
  | Ok a => Ok a
  | Err e => Err (wrap e)
  end.

Section Codec.

(** [hex] of the base library. *)
Variable hex_encode : list byte -> string.
Variable hex_decode : string -> result HexError (list byte).

Definition encodeNoncesMatrix (nonces : TreeNonces)
  : result Matrix.Error string :=
  let* encoded := encodeMatrix (map (map nonce_cell) nonces) in
  Ok (hex_encode (bytes_of encoded)).

Definition decodeNoncesMatrix (matrix : Uint8Array)
  : result Matrix.Error TreeNonces :=
  let* decoded := decodeMatrix matrix 66 in
  Ok (map (map (fun nonce => Some {| pubNonce := nonce |})) decoded).

End Codec.

(** *** The raw records and the events of this provider *)

Record Outpoint := { txid : string; vout : Z }.

Module ProtoTypes.

Record Node := {
  node_txid : string;
  tx : string;
  parentTxid : string;
  level : Z;
  levelIndex : Z;
  leaf : bool
}.

Record BatchStartedEvent := {
  started_id : string;
  intentIdHashes : list string;
  batchExpiry : string;
  forfeitAddress : string
}.

Record RoundFailed := { failed_id : string; reason : string }.

(** [connectorsIndex] is a JSON object: its entries, in order. *)
Record RoundFinalizationEvent := {
  finalization_id : string;
  roundTx : string;
  connectorsIndex : list (string * Outpoint)
}.

Record RoundFinalizedEvent := { finalized_id : string; roundTxid : string }.

Record RoundSigningEvent := {
  signing_id : string;
  cosignersPubkeys : list string;
  unsignedRoundTx : string
}.

Record RoundSigningNoncesGeneratedEvent := {
  nonces_id : string;
  treeNonces : string
}.

Record BatchTreeEvent := {
  tree_id : string;
  tree_topic : list string;
  tree_batchIndex : Z;
  treeTx : Node
}.

Record BatchTreeSignatureEvent := {
  sig_id : string;
  sig_topic : list string;
  sig_batchIndex : Z;
  sig_level : Z;
  sig_levelIndex : Z;
  signature : string
}.

Record EventData := {
  batchStarted : option BatchStartedEvent;
  roundFailed : option RoundFailed;
  roundFinalization : option RoundFinalizationEvent;
  roundFinalized : option RoundFinalizedEvent;
  roundSigning : option RoundSigningEvent;
  roundSigningNoncesGenerated : option RoundSigningNoncesGeneratedEvent;
  batchTree : option BatchTreeEvent;
  batchTreeSignature : option BatchTreeSignatureEvent
}.

End ProtoTypes.

(** A [Map<string, Outpoint>]: its entries in insertion order, no key
    twice. *)
Definition Map := list (string * Outpoint).

(** [map.set(key, value)]: a key that is there keeps its place. *)
Fixpoint Map_set (m : Map) (key : string) (value : Outpoint) : Map :=
  match m with
  | [] => [(key, value)]
  | (k, v) :: rest =>
      if String.eqb k key then (k, value) :: rest
      else (k, v) :: Map_set rest key value
  end.

(** [map.get(key)]; [None] is [undefined]. *)
Fixpoint Map_get (m : Map) (key : string) : option Outpoint :=
  match m with
  | [] => None
  | (k, v) :: rest => if String.eqb k key then Some v else Map_get rest key
  end.

(** [new Map(entries)]. *)
Definition new_Map (entries : list (string * Outpoint)) : Map :=
  fold_left (fun m entry => Map_set m (fst entry) (snd entry)) entries [].

Definition toConnectorsIndex (connectorsIndex : list (string * Outpoint))
  : Map :=
  new_Map
    (map (fun entry =>
            (fst entry, {| txid := txid (snd entry); vout := vout (snd entry) |}))
         connectorsIndex).

Inductive SettlementEvent :=
| BatchStartedEvent (id : string) (intentIdHashes : list string)
    (batchExpiry : Z) (forfeitAddress : string)
| FinalizationEvent (id roundTx : string) (connectorsIndex : Map)
| FinalizedEvent (id roundTxid : string)
| FailedEvent (id reason : string)
| SigningStartEvent (id : string) (cosignersPublicKeys : list string)
    (unsignedSettlementTx : string)
| SigningNoncesGeneratedEvent (id : string) (treeNonces : TreeNonces)
| BatchTreeEvent (id : string) (topic : list string) (batchIndex : Z)
    (treeTx : ProtoTypes.Node)
| BatchTreeSignatureEvent (id : string) (topic : list string)
    (batchIndex level levelIndex : Z) (signature : string).

Section Parser.

Variable hex_decode : string -> result HexError (list byte).

(** [parseSettlementEvent] of this provider; [None] is [null]. *)
Definition parseSettlementEvent (data : ProtoTypes.EventData)
  : result Error (option SettlementEvent) :=
  match ProtoTypes.batchStarted data with
  | Some e =>
      let* expiry :=
        lift BigIntError (Events.BigInt (ProtoTypes.batchExpiry e)) in
      Ok (Some (BatchStartedEvent (ProtoTypes.started_id e)
                  (ProtoTypes.intentIdHashes e) expiry
                  (ProtoTypes.forfeitAddress e)))
  | None =>
  match ProtoTypes.roundFinalization data with
  | Some e =>
      Ok (Some (FinalizationEvent (ProtoTypes.finalization_id e)
                  (ProtoTypes.roundTx e)
                  (toConnectorsIndex (ProtoTypes.connectorsIndex e))))
  | None =>
  match ProtoTypes.roundFinalized data with
  | Some e =>
      Ok (Some (FinalizedEvent (ProtoTypes.finalized_id e)
                               (ProtoTypes.roundTxid e)))
  | None =>
  match ProtoTypes.roundFailed data with
  | Some e =>
      Ok (Some (FailedEvent (ProtoTypes.failed_id e) (ProtoTypes.reason e)))
  | None =>
  match ProtoTypes.roundSigning data with
  | Some e =>
      Ok (Some (SigningStartEvent (ProtoTypes.signing_id e)
                  (ProtoTypes.cosignersPubkeys e)
                  (ProtoTypes.unsignedRoundTx e)))
  | None =>
  match ProtoTypes.roundSigningNoncesGenerated data with
  | Some e =>
      let* bytes :=
        lift HexDecodeError (hex_decode (ProtoTypes.treeNonces e)) in
      let* nonces :=
        lift MatrixError (decodeNoncesMatrix (Uint8Array_of_buffer bytes)) in
      Ok (Some (SigningNoncesGeneratedEvent (ProtoTypes.nonces_id e) nonces))
  | None =>
  match ProtoTypes.batchTree data with
  | Some e =>
      Ok (Some (BatchTreeEvent (ProtoTypes.tree_id e)
                  (ProtoTypes.tree_topic e) (ProtoTypes.tree_batchIndex e)
                  (ProtoTypes.treeTx e)))
  | None =>
  match ProtoTypes.batchTreeSignature data with
  | Some e =>
      Ok (Some (BatchTreeSignatureEvent (ProtoTypes.sig_id e)
                  (ProtoTypes.sig_topic e) (ProtoTypes.sig_batchIndex e)
                  (ProtoTypes.sig_level e) (ProtoTypes.sig_levelIndex e)
                  (ProtoTypes.signature e)))
  | None => Ok None
  end end end end end end end end.

End Parser.

(** *** A lowercase hexadecimal codec *)

Definition hex_digit (n : N) : ascii :=
  if (n <? 10)%N then ascii_of_N (48 + n) else ascii_of_N (87 + n).

Definition hex_value (c : ascii) : option N :=
  let n := N_of_ascii c in
  if ((48 <=? n) && (n <=? 57))%N then Some (n - 48)%N
  else if ((97 <=? n) && (n <=? 102))%N then Some (n - 87)%N
  else if ((65 <=? n) && (n <=? 70))%N then Some (n - 55)%N
  else None.

Fixpoint lower_hex_encode (bytes : list byte) : string :=
  match bytes with
  | [] => ""
  | b :: rest =>
      String (hex_digit (Byte.to_N b / 16))
        (String (hex_digit (Byte.to_N b mod 16)) (lower_hex_encode rest))
  end.

Fixpoint lower_hex_decode_from (whole : string) (s : string)
  : result HexError (list byte) :=
  match s with
  | EmptyString => Ok []
  | String _ EmptyString => Err (InvalidHex whole)
  | String hi (String lo rest) =>
      match hex_value hi, hex_value lo with
      | Some h, Some l =>
          match Byte.of_N (16 * h + l) with
          | Some b =>
              let* bytes := lower_hex_decode_from whole rest in
              Ok (b :: bytes)
          | None => Err (InvalidHex whole)
          end
      | _, _ => Err (InvalidHex whole)
      end
  end.

Definition lower_hex_decode (s : string) : result HexError (list byte) :=
  lower_hex_decode_from s s.

(** Every nonce of the matrix is absent, empty, or 66 bytes long. *)
Definition nonces_fit (nonces : TreeNonces) : Prop :=
  Forall (Forall (fun nonce => nonce_cell nonce = []
                               \/ length (nonce_cell nonce) = 66%nat))
         nonces.

(** What comes back for a nonce: an absent one as an empty [pubNonce]. *)
Definition returned (nonce : option Nonces) : option Nonces :=
  Some {| pubNonce := nonce_cell nonce |}.

(** The lookup of a key among the entries of a JSON object. *)
Definition keys_unique (entries : list (string * Outpoint)) : Prop :=
  NoDup (map fst entries).

(** The value the last entry for [key] gives it, if any has that key. *)
Fixpoint last_value (entries : list (string * Outpoint)) (key : string)
  : option Outpoint :=
  match entries with
  | [] => None
  | (k, v) :: rest =>
      match last_value rest key with
      | Some v' => Some v'
      | None => if String.eqb k key then Some v else None
      end
  end.

(** A matrix of two nonces, one absent. *)
Definition sample_nonces : TreeNonces :=
  [[Some {| pubNonce := repeat x07 66 |}; None]; []].

(** *** The hexadecimal codec *)

Lemma hex_byte (b : byte) :
  match hex_value (hex_digit (Byte.to_N b / 16)),
        hex_value (hex_digit (Byte.to_N b mod 16)) with
  | Some h, Some l => Byte.of_N (16 * h + l)
  | _, _ => None
  end = Some b.
Proof. destruct b; vm_compute; reflexivity. Qed.

Lemma lower_hex_decode_encode_from (whole : string) (bytes : list byte) :
  lower_hex_decode_from whole (lower_hex_encode bytes) = Ok bytes.
Proof.
  induction bytes as [|b bytes IH]; [reflexivity|].
  cbn [lower_hex_encode lower_hex_decode_from].
  pose proof (hex_byte b) as Hb.
  destruct (hex_value (hex_digit (Byte.to_N b / 16))) as [h|];
    [|discriminate Hb].
  destruct (hex_value (hex_digit (Byte.to_N b mod 16))) as [l|];
    [|discriminate Hb].
  rewrite Hb, IH. reflexivity.
Qed.

Lemma lower_hex_decode_encode (bytes : list byte) :
  lower_hex_decode (lower_hex_encode bytes) = Ok bytes.
Proof. apply lower_hex_decode_encode_from. Qed.

(** *** The nonce matrix *)

Lemma bytes_of_whole (b : list byte) : bytes_of (Uint8Array_of_buffer b) = b.
Proof. unfold bytes_of, Uint8Array_of_buffer. cbn. apply firstn_all. Qed.

Lemma nonces_fit_cells (nonces : TreeNonces) :
  nonces_fit nonces -> cells_fit 66 (map (map nonce_cell) nonces).
Proof.
  unfold nonces_fit, cells_fit. intros H.
  apply Forall_map. eapply Forall_impl; [|exact H].
  intros row Hrow. apply Forall_map. exact Hrow.
Qed.

Lemma decodeNoncesMatrix_wire (nonces : TreeNonces) :
  nonces_fit nonces ->
  array_sized (map (map nonce_cell) nonces) ->
  decodeNoncesMatrix
    (Uint8Array_of_buffer (wire_matrix (map (map nonce_cell) nonces)))
  = Ok (map (map returned) nonces).
Proof.
  intros Hfit Hsize. unfold decodeNoncesMatrix.
  rewrite (decodeMatrix_wire 66 _ (nonces_fit_cells nonces Hfit) Hsize).
  cbn [bind]. f_equal. rewrite map_map. apply map_ext. intros row.
  rewrite map_map. reflexivity.
Qed.

Lemma encodeNoncesMatrix_wire (hex_encode : list byte -> string)
    (nonces : TreeNonces) :
  encodeNoncesMatrix hex_encode nonces
  = Ok (hex_encode (wire_matrix (map (map nonce_cell) nonces))).
Proof.
  unfold encodeNoncesMatrix. rewrite encodeMatrix_wire. cbn [bind].
  now rewrite bytes_of_whole.
Qed.

(** X16: the nonces a cosigner submits can be read back.  For a matrix
    whose nonces are absent or 66 bytes long, [encodeNoncesMatrix] succeeds
    and [decodeNoncesMatrix] of the decoded hex returns the same matrix,
    except that an absent nonce ([null]) comes back as a nonce with an
    empty [pubNonce]. *)
Theorem nonces_matrix_round_trip :
  forall (hex_encode : list byte -> string)
         (hex_decode : string -> result HexError (list byte))
         (nonces : TreeNonces),
    (forall bytes, hex_decode (hex_encode bytes) = Ok bytes) ->
    nonces_fit nonces ->
    array_sized (map (map nonce_cell) nonces) ->
    exists (encoded : string) (bytes : list byte),
      encodeNoncesMatrix hex_encode nonces = Ok encoded
      /\ hex_decode encoded = Ok bytes
      /\ decodeNoncesMatrix (Uint8Array_of_buffer bytes)
         = Ok (map (map returned) nonces).
Proof.
  intros hex_encode hex_decode nonces Hhex Hfit Hsize.
  exists (hex_encode (wire_matrix (map (map nonce_cell) nonces))).
  exists (wire_matrix (map (map nonce_cell) nonces)).
  split; [apply encodeNoncesMatrix_wire|]. split; [apply Hhex|].
  now apply decodeNoncesMatrix_wire.
Qed.

Lemma sample_nonces_fit :
  nonces_fit sample_nonces
  /\ array_sized (map (map nonce_cell) sample_nonces).
Proof.
  split.
  - unfold nonces_fit, sample_nonces.
    repeat constructor; (now left) || (now right).
  - unfold array_sized, sample_nonces. split; [cbn; lia|].
    repeat constructor; cbn; lia.
Defined.

Lemma nonces_matrix_round_trip_witness :
  (forall bytes, lower_hex_decode (lower_hex_encode bytes) = Ok bytes)
  /\ nonces_fit sample_nonces
  /\ array_sized (map (map nonce_cell) sample_nonces)
  /\ exists (encoded : string) (bytes : list byte),
       encodeNoncesMatrix lower_hex_encode sample_nonces = Ok encoded
       /\ lower_hex_decode encoded = Ok bytes
       /\ decodeNoncesMatrix (Uint8Array_of_buffer bytes)
          = Ok (map (map returned) sample_nonces).
Proof.
  split; [exact lower_hex_decode_encode|].
  split; [exact (proj1 sample_nonces_fit)|].
  split; [exact (proj2 sample_nonces_fit)|].
  exact (nonces_matrix_round_trip lower_hex_encode lower_hex_decode
           sample_nonces lower_hex_decode_encode
           (proj1 sample_nonces_fit) (proj2 sample_nonces_fit)).
Defined.

(** *** The parser *)

(** No field of higher priority than [roundSigningNoncesGenerated]. *)
Definition nonces_record (data : ProtoTypes.EventData)
    (e : ProtoTypes.RoundSigningNoncesGeneratedEvent) : Prop :=
  ProtoTypes.batchStarted data = None
  /\ ProtoTypes.roundFinalization data = None
  /\ ProtoTypes.roundFinalized data = None
  /\ ProtoTypes.roundFailed data = None
  /\ ProtoTypes.roundSigning data = None
  /\ ProtoTypes.roundSigningNoncesGenerated data = Some e.

(** A raw record with no field set. *)
Definition empty_data (data : ProtoTypes.EventData) : Prop :=
  ProtoTypes.batchStarted data = None
  /\ ProtoTypes.roundFinalization data = None
  /\ ProtoTypes.roundFinalized data = None
  /\ ProtoTypes.roundFailed data = None
  /\ ProtoTypes.roundSigning data = None
  /\ ProtoTypes.roundSigningNoncesGenerated data = None
  /\ ProtoTypes.batchTree data = None
  /\ ProtoTypes.batchTreeSignature data = None.

(** X17: a [roundSigningNoncesGenerated] record whose [treeNonces] is what
    [encodeNoncesMatrix] produced is parsed into a SigningNoncesGenerated
    event that carries those nonces (absent ones as empty nonces). *)
Theorem parse_reads_encoded_nonces :
  forall (hex_encode : list byte -> string)
         (hex_decode : string -> result HexError (list byte))
         (nonces : TreeNonces) (data : ProtoTypes.EventData)
         (e : ProtoTypes.RoundSigningNoncesGeneratedEvent),
    (forall bytes, hex_decode (hex_encode bytes) = Ok bytes) ->
    nonces_fit nonces ->
    array_sized (map (map nonce_cell) nonces) ->
    nonces_record data e ->
    encodeNoncesMatrix hex_encode nonces = Ok (ProtoTypes.treeNonces e) ->
    parseSettlementEvent hex_decode data
    = Ok (Some (SigningNoncesGeneratedEvent (ProtoTypes.nonces_id e)
                  (map (map returned) nonces))).
Proof.
  intros hex_encode hex_decode nonces data e Hhex Hfit Hsize
         (H1 & H2 & H3 & H4 & H5 & H6) Henc.
  unfold parseSettlementEvent. rewrite H1, H2, H3, H4, H5, H6.
  rewrite encodeNoncesMatrix_wire in Henc. injection Henc as <-.
  rewrite Hhex. cbn [lift bind].
  rewrite (decodeNoncesMatrix_wire nonces Hfit Hsize). reflexivity.
Qed.

(** A record that carries the encoding of [sample_nonces]. *)
Definition sample_nonces_event : ProtoTypes.RoundSigningNoncesGeneratedEvent :=
  {| ProtoTypes.nonces_id := "round-1";
     ProtoTypes.treeNonces :=
       lower_hex_encode (wire_matrix (map (map nonce_cell) sample_nonces)) |}.

Definition sample_nonces_data : ProtoTypes.EventData :=
  {| ProtoTypes.batchStarted := None;
     ProtoTypes.roundFailed := None;
     ProtoTypes.roundFinalization := None;
     ProtoTypes.roundFinalized := None;
     ProtoTypes.roundSigning := None;
     ProtoTypes.roundSigningNoncesGenerated := Some sample_nonces_event;
     ProtoTypes.batchTree := None;
     ProtoTypes.batchTreeSignature := None |}.

Lemma parse_reads_encoded_nonces_witness :
  (forall bytes, lower_hex_decode (lower_hex_encode bytes) = Ok bytes)
  /\ nonces_fit sample_nonces
  /\ array_sized (map (map nonce_cell) sample_nonces)
  /\ nonces_record sample_nonces_data sample_nonces_event
  /\ encodeNoncesMatrix lower_hex_encode sample_nonces
     = Ok (ProtoTypes.treeNonces sample_nonces_event)
  /\ parseSettlementEvent lower_hex_decode sample_nonces_data
     = Ok (Some (SigningNoncesGeneratedEvent
                   (ProtoTypes.nonces_id sample_nonces_event)
                   (map (map returned) sample_nonces))).
Proof.
  assert (Hrec : nonces_record sample_nonces_data sample_nonces_event)
    by (repeat split).
  assert (Henc : encodeNoncesMatrix lower_hex_encode sample_nonces
                 = Ok (ProtoTypes.treeNonces sample_nonces_event))
    by (apply encodeNoncesMatrix_wire).
  split; [exact lower_hex_decode_encode|].
  split; [exact (proj1 sample_nonces_fit)|].
  split; [exact (proj2 sample_nonces_fit)|].
  split; [exact Hrec|]. split; [exact Henc|].
  exact (parse_reads_encoded_nonces lower_hex_encode lower_hex_decode
           sample_nonces sample_nonces_data sample_nonces_event
           lower_hex_decode_encode (proj1 sample_nonces_fit)
           (proj2 sample_nonces_fit) Hrec Henc).
Defined.

(** X18: this parser returns [null] exactly for a record with none of its
    eight fields, and it throws only on a [batchStarted] record (a
    [batchExpiry] that is no integer) or on a [roundSigningNoncesGenerated]
    record (nonces that are no hex string or no matrix); every other record
    is parsed. *)
Theorem rest_parse_outcomes :
  forall (hex_decode : string -> result HexError (list byte))
         (data : ProtoTypes.EventData),
    (parseSettlementEvent hex_decode data = Ok None <-> empty_data data)
    /\ (forall err : Error,
          parseSettlementEvent hex_decode data = Err err ->
          (exists e, ProtoTypes.batchStarted data = Some e
                     /\ exists s, err = BigIntError s)
          \/ (exists e, ProtoTypes.roundSigningNoncesGenerated data = Some e
                        /\ ProtoTypes.batchStarted data = None
                        /\ ((exists h, err = HexDecodeError h)
                            \/ exists m, err = MatrixError m))).
Proof.
  intros hex_decode data. unfold parseSettlementEvent, empty_data.
  destruct (ProtoTypes.batchStarted data) as [e|].
  { destruct (Events.BigInt (ProtoTypes.batchExpiry e)) as [n|s];
      cbn [lift bind].
    - split; [split; [discriminate|intros [H _]; discriminate H]|].
      intros err H. discriminate H.
    - split; [split; [discriminate|intros [H _]; discriminate H]|].
      intros err H. injection H as <-. left. exists e. split; [reflexivity|].
      now exists s. }
  destruct (ProtoTypes.roundFinalization data) as [e|].
  { split; [split; [discriminate|intros (_ & H & _); discriminate H]|].
    intros err H. discriminate H. }
  destruct (ProtoTypes.roundFinalized data) as [e|].
  { split; [split; [discriminate|intros (_ & _ & H & _); discriminate H]|].
    intros err H. discriminate H. }
  destruct (ProtoTypes.roundFailed data) as [e|].
  { split; [split; [discriminate|intros (_ & _ & _ & H & _); discriminate H]|].
    intros err H. discriminate H. }
  destruct (ProtoTypes.roundSigning data) as [e|].
  { split; [split; [discriminate
                   |intros (_ & _ & _ & _ & H & _); discriminate H]|].
    intros err H. discriminate H. }
  destruct (ProtoTypes.roundSigningNoncesGenerated data) as [e|].
  { destruct (hex_decode (ProtoTypes.treeNonces e)) as [bytes|h];
      cbn [lift bind].
    - destruct (decodeNoncesMatrix (Uint8Array_of_buffer bytes)) as [ns|m];
        cbn [lift bind].
      + split; [split; [discriminate
                       |intros (_ & _ & _ & _ & _ & H & _); discriminate H]|].
        intros err H. discriminate H.
      + split; [split; [discriminate
                       |intros (_ & _ & _ & _ & _ & H & _); discriminate H]|].
        intros err H. injection H as <-. right. exists e.
        split; [reflexivity|]. split; [reflexivity|]. right. now exists m.
    - split; [split; [discriminate
                     |intros (_ & _ & _ & _ & _ & H & _); discriminate H]|].
      intros err H. injection H as <-. right. exists e.
      split; [reflexivity|]. split; [reflexivity|]. left. now exists h. }
  destruct (ProtoTypes.batchTree data) as [e|].
  { split; [split; [discriminate
                   |intros (_ & _ & _ & _ & _ & _ & H & _); discriminate H]|].
    intros err H. discriminate H. }
  destruct (ProtoTypes.batchTreeSignature data) as [e|].
  { split; [split; [discriminate
                   |intros (_ & _ & _ & _ & _ & _ & _ & H); discriminate H]|].
    intros err H. discriminate H. }
  split; [split; auto 10|]. intros err H. discriminate H.
Qed.

(** *** The connectors index *)

Lemma Map_get_set (m : Map) (key key' : string) (value : Outpoint) :
  Map_get (Map_set m key value) key'
  = if String.eqb key key' then Some value else Map_get m key'.
Proof.
  induction m as [|[k v] m IH]; cbn [Map_set Map_get].
  - reflexivity.
  - destruct (String.eqb k key) eqn:Hk.
    + apply String.eqb_eq in Hk. subst k. cbn [Map_get].
      destruct (String.eqb key key'); reflexivity.
    + cbn [Map_get]. rewrite IH.
      destruct (String.eqb k key') eqn:Hk'; [|reflexivity].
      apply String.eqb_eq in Hk'. subst key'.
      now rewrite String.eqb_sym, Hk.
Qed.

Lemma Map_get_fold (entries : list (string * Outpoint)) (key : string) :
  forall m : Map,
    Map_get (fold_left (fun m entry => Map_set m (fst entry) (snd entry))
               entries m) key
    = match last_value entries key with
      | Some v => Some v
      | None => Map_get m key
      end.
Proof.
  induction entries as [|[k v] entries IH]; intros m; [reflexivity|].
  cbn [fold_left last_value fst snd]. rewrite IH.
  destruct (last_value entries key); [reflexivity|].
  rewrite Map_get_set. destruct (String.eqb k key); reflexivity.
Qed.

Lemma last_value_unique (entries : list (string * Outpoint)) (key : string)
    (value : Outpoint) :
  keys_unique entries ->
  (last_value entries key = Some value <-> In (key, value) entries).
Proof.
  unfold keys_unique. induction entries as [|[k v] entries IH]; intros Hnd.
  - cbn. split; [discriminate|contradiction].
  - cbn [map fst] in Hnd. apply NoDup_cons_iff in Hnd as [Hk Hnd].
    cbn [last_value In]. specialize (IH Hnd).
    destruct (last_value entries key) as [v'|] eqn:Hl.
    + split.
      * intros H. right. apply IH. exact H.
      * intros [H|H]; [|now apply IH].
        injection H as -> ->. exfalso. apply Hk.
        assert (Hin : In (key, v') entries) by
          (clear IH Hk Hnd; revert Hl; induction entries as [|[k2 v2] es IHes];
           cbn; [discriminate|];
           destruct (last_value es key) eqn:E;
           [intros H; injection H as <-; right; now apply IHes
           |destruct (String.eqb k2 key) eqn:E2; [|discriminate];
            intros H; injection H as <-; apply String.eqb_eq in E2;
            subst; now left]).
        apply in_map_iff. exists (key, v'). auto.
    + destruct (String.eqb k key) eqn:Hkk.
      * apply String.eqb_eq in Hkk. subst k. split.
        -- intros H. injection H as ->. now left.
        -- intros [H|H]; [now injection H as ->|].
           exfalso. apply Hk. apply in_map_iff. exists (key, value). auto.
      * apply String.eqb_neq in Hkk. split; [discriminate|].
        intros [H|H]; [injection H as -> _; contradiction|].
        apply IH in H. discriminate H.
Qed.

(** X19: the connectors index answers for the record it was made from: a
    key of the record maps to the outpoint the record gives it, and a key
    the record does not have is [undefined]. *)
Theorem toConnectorsIndex_lookup :
  forall (connectorsIndex : list (string * Outpoint)) (key : string)
         (value : Outpoint),
    keys_unique connectorsIndex ->
    (Map_get (toConnectorsIndex connectorsIndex) key = Some value
     <-> In (key, value) connectorsIndex)
    /\ (~ In key (map fst connectorsIndex) ->
        Map_get (toConnectorsIndex connectorsIndex) key = None).
Proof.
  intros entries key value Hnd.
  assert (Hcopy : map (fun entry : string * Outpoint =>
                         (fst entry,
                          {| txid := txid (snd entry);
                             vout := vout (snd entry) |})) entries
                  = entries).
  { rewrite <- (map_id entries) at 2. apply map_ext.
    intros [k [t v]]. reflexivity. }
  unfold toConnectorsIndex, new_Map. rewrite Hcopy, Map_get_fold.
  cbn [Map_get]. split.
  - rewrite <- (last_value_unique entries key value Hnd).
    destruct (last_value entries key); split; congruence.
  - intros Hmiss. destruct (last_value entries key) as [v|] eqn:Hl;
      [|reflexivity].
    exfalso. apply Hmiss. apply (last_value_unique entries key v Hnd) in Hl.
    apply in_map_iff. exists (key, v). auto.
Qed.

Lemma toConnectorsIndex_lookup_witness :
  let index :=
    [("aa:0"%string, {| txid := "c1"; vout := 0 |});
     ("bb:1"%string, {| txid := "c1"; vout := 1 |})] in
  keys_unique index
  /\ (Map_get (toConnectorsIndex index) "bb:1"
      = Some {| txid := "c1"; vout := 1 |}
      <-> In ("bb:1"%string, {| txid := "c1"; vout := 1 |}) index)
  /\ (~ In "bb:1"%string (map fst index) ->
      Map_get (toConnectorsIndex index) "bb:1" = None).
Proof.
  cbn zeta.
  assert (Hnd : keys_unique
                  [("aa:0"%string, {| txid := "c1"; vout := 0 |});
                   ("bb:1"%string, {| txid := "c1"; vout := 1 |})]).
  { unfold keys_unique. cbn. repeat constructor; cbn; intuition discriminate. }
  split; [exact Hnd|].
  exact (toConnectorsIndex_lookup _ "bb:1" {| txid := "c1"; vout := 1 |} Hnd).
Defined.

End RestProvider.
